(** * addStyles: the runtime that injects and updates style elements

    A shallow embedding of [addStyles.js]: the identity-keyed registry
    [stylesInDom], the grouping of the input list into style descriptors
    ([listToStyles]), the element inserter, the three part-update
    strategies and the public entry point with its [update] closure.

    JavaScript objects that are compared with [===] (style descriptors,
    registry entries, DOM nodes, object URLs) are represented by the
    number under which they were allocated; everything the module keeps
    in module-level variables is a field of the explicit [state]. *)

From stdpp Require Import gmap strings list fin_maps.
From Stdlib Require Import ZArith Lia.

Set Default Proof Using "Type".

(** ** Data model *)

(** DOM nodes and object URLs are named by natural numbers. *)
Notation node := nat (only parsing).
Notation url := nat (only parsing).

(** An input tuple [[id, css, media, sourceMap]]. *)
Record Item := mkItem {
  item_id : Z;
  item_css : string;
  item_media : string;
  item_sourceMap : option string
}.

(** [{ css, media, sourceMap }]; [None] is [undefined]. *)
Record Part := mkPart {
  css : string;
  media : string;
  sourceMap : option string
}.

(** [{ id, parts }]; [s_ref] is the identity of the descriptor object. *)
Record Style := mkStyle {
  s_ref : nat;
  s_id : Z;
  s_parts : list Part
}.

#[global] Instance Part_eq_dec : EqDecision Part.
Proof. solve_decision. Defined.

#[global] Instance Item_eq_dec : EqDecision Item.
Proof. solve_decision. Defined.

#[global] Instance Style_eq_dec : EqDecision Style.
Proof. solve_decision. Defined.

(** Truthiness of a JavaScript string, and of an optional one. *)
Definition truthy (s : string) : bool :=
  if decide (s = EmptyString) then false else true.

Definition truthy_opt (o : option string) : bool :=
  match o with
  | Some s => truthy s
  | None => false
  end.

(** ** listToStyles *)

Definition part_of_item (item : Item) : Part :=
  {| css := item_css item; media := item_media item;
     sourceMap := item_sourceMap item |}.

Definition push_part (part : Part) (s : Style) : Style :=
  {| s_ref := s_ref s; s_id := s_id s; s_parts := s_parts s ++ [part] |}.

(** One turn of the loop. [newStyles] maps an id to the position in
    [result] of the descriptor it aliases; descriptors are allocated
    from [base] upwards in the order they are created. *)
Definition listToStyles_step (base : nat)
    (acc : list Style * gmap Z nat) (item : Item) : list Style * gmap Z nat :=
  let part := part_of_item item in
  match acc.2 !! item_id item with
  | None =>
      (acc.1 ++ [ {| s_ref := base + length acc.1; s_id := item_id item;
                     s_parts := [part] |} ],
       <[item_id item := length acc.1]> acc.2)
  | Some k => (alter (push_part part) k acc.1, acc.2)
  end.

Definition listToStyles_loop (base : nat) (items : list Item)
    : list Style * gmap Z nat :=
  foldl (listToStyles_step base) ([], ∅) items.

Definition listToStyles (base : nat) (items : list Item) : list Style :=
  (listToStyles_loop base items).1.

(** The ids of a list in the order in which each is first seen. *)
Fixpoint first_seen (ids : list Z) : list Z :=
  match ids with
  | [] => []
  | i :: rest => i :: filter (λ j, j ≠ i) (first_seen rest)
  end.

(** The parts an input list gives for one id, in input order. *)
Definition parts_for (i : Z) (items : list Item) : list Part :=
  part_of_item <$> filter (λ it, item_id it = i) items.

(** ** The registry stylesInDom *)

(** [cache] maps a module id to the array of [[style, domStyle]] pairs,
    each object given by its identity. *)

Definition stylesInDom_get (cache : gmap Z (list (nat * nat))) (style : Style)
    : option nat :=
  match cache !! s_id style with
  | Some existing =>
      head (snd <$> filter (λ s, s.1 = s_ref style) existing)
  | None => None
  end.

(** The scan of [set]: the first pair whose descriptor is [r] gets the
    entry [e]; [None] when no pair matches. *)
Fixpoint replace_first (r e : nat) (existing : list (nat * nat))
    : option (list (nat * nat)) :=
  match existing with
  | [] => None
  | s :: rest =>
      if decide (s.1 = r) then Some ((s.1, e) :: rest)
      else (cons s) <$> replace_first r e rest
  end.

Definition stylesInDom_set (cache : gmap Z (list (nat * nat)))
    (style : Style) (domStyle : nat) : gmap Z (list (nat * nat)) :=
  match cache !! s_id style with
  | None => <[s_id style := [(s_ref style, domStyle)]]> cache
  | Some existing =>
      match replace_first (s_ref style) domStyle existing with
      | Some existing' => <[s_id style := existing']> cache
      | None => <[s_id style := existing ++ [(s_ref style, domStyle)]]> cache
      end
  end.

(** [delete] is given the entry (its [id] and identity). The filtered
    array is only tested for emptiness; it is not stored back. *)
Definition stylesInDom_delete (cache : gmap Z (list (nat * nat)))
    (dom_id : Z) (domStyle : nat) : gmap Z (list (nat * nat)) :=
  match cache !! dom_id with
  | None => delete dom_id cache
  | Some existing =>
      match filter (λ s, s.2 ≠ domStyle) existing with
      | [] => delete dom_id cache
      | _ :: _ => cache
      end
  end.

(** ** Options, elements, handles and entries *)

(** The options object as the caller passes it; [None] is [undefined].
    [raw_attrs] is the identity of the caller's [attrs] object. *)
Record RawOptions := mkRawOptions {
  raw_convertToAbsoluteUrls : option bool;
  raw_singleton : option bool;
  raw_attrs : option nat;
  raw_insertInto : option string;
  raw_insertAt : option string
}.

(** The options after the entry point has filled in the defaults. *)
Record Options := mkOptions {
  convertToAbsoluteUrls : option bool;
  singleton : bool;
  attrs : nat;
  insertInto : string;
  insertAt : string
}.

Inductive tag := StyleTag | LinkTag.

Record element := mkElement {
  tagName : tag;
  attributes : list (string * string);
  cssText : string;           (* [styleSheet.cssText], where that API exists *)
  childNodes : list string;   (* the data of the child text nodes *)
  href : option url           (* [None] is the empty href *)
}.

(** The three shapes of the [update]/[remove] pair that [addStyle]
    closes over. *)
Inductive Strategy :=
  | SingletonSlot (styleIndex : nat)
  | BlobLink (options : Options)
  | InlineTag.

(** The closure [updateStyle]: its element, its strategy and the
    captured variable [obj]. *)
Record Handle := mkHandle {
  h_el : node;
  h_strategy : Strategy;
  h_obj : Part
}.

(** [{ id, refs, parts }]. *)
Record StyleInDOM := mkStyleInDOM {
  dom_id : Z;
  refs : Z;
  parts : list Handle
}.

(** What the entry point returns: [update] closes over [styles] and
    [options]. *)
Record Closure := mkClosure {
  cl_styles : list Style;
  cl_options : Options
}.

(** The environment the module runs in. *)
Record Env := mkEnv {
  querySelector : string → option node;
  (* [window && document && document.all && !window.atob] *)
  oldIE : bool;
  (* style elements have a [styleSheet] property *)
  has_styleSheet : bool;
  (* [URL], [URL.createObjectURL], [URL.revokeObjectURL], [Blob] and
     [btoa] are all functions *)
  has_blob_api : bool;
  (* the required module fixUrls *)
  fixUrls : string → string;
  (* [btoa(unescape(encodeURIComponent(JSON.stringify(sourceMap))))] *)
  encodeSourceMap : string → string
}.

(** ** The state: module-level variables, document and object URLs *)

Record state := mkState {
  cache : gmap Z (list (nat * nat));  (* the registry: id to [[style, domStyle]] pairs *)
  entries : gmap nat StyleInDOM;  (* the registry entries, by identity *)
  next_ref : nat;  (* allocation counter of descriptor, entry and attrs objects *)
  attrsObjs : gmap nat (list (string * string));  (* the [options.attrs] objects, by identity *)
  memo : gmap string (option node);  (* the memo of [getElement] *)
  isOldIE_memo : option bool;  (* the memo of [isOldIE] *)
  singletonElement : option node;
  singletonCounter : nat;
  styleElementsInsertedAtTop : list node;
  textStore : list (option string);  (* the array of [replaceText]; [None] is a hole *)
  children : gmap node (list node);  (* child elements of each node, in document order *)
  parent : gmap node node;  (* [parentNode] *)
  nodes : gmap node element;  (* the elements created so far *)
  next_node : nat;  (* allocation counter of DOM nodes *)
  blobs : list string;  (* text of the blob behind each object URL created *)
  revoked : gset url  (* object URLs passed to [URL.revokeObjectURL] *)
}.

Definition with_cache (v : gmap Z (list (nat * nat))) (σ : state) : state :=
  {| cache := v; entries := entries σ; next_ref := next_ref σ;
     attrsObjs := attrsObjs σ; memo := memo σ;
     isOldIE_memo := isOldIE_memo σ; singletonElement := singletonElement σ;
     singletonCounter := singletonCounter σ;
     styleElementsInsertedAtTop := styleElementsInsertedAtTop σ;
     textStore := textStore σ; children := children σ; parent := parent σ;
     nodes := nodes σ; next_node := next_node σ; blobs := blobs σ;
     revoked := revoked σ |}.

Definition with_entries (v : gmap nat StyleInDOM) (σ : state) : state :=
  {| cache := cache σ; entries := v; next_ref := next_ref σ;
     attrsObjs := attrsObjs σ; memo := memo σ;
     isOldIE_memo := isOldIE_memo σ; singletonElement := singletonElement σ;
     singletonCounter := singletonCounter σ;
     styleElementsInsertedAtTop := styleElementsInsertedAtTop σ;
     textStore := textStore σ; children := children σ; parent := parent σ;
     nodes := nodes σ; next_node := next_node σ; blobs := blobs σ;
     revoked := revoked σ |}.

Definition with_next_ref (v : nat) (σ : state) : state :=
  {| cache := cache σ; entries := entries σ; next_ref := v;
     attrsObjs := attrsObjs σ; memo := memo σ;
     isOldIE_memo := isOldIE_memo σ; singletonElement := singletonElement σ;
     singletonCounter := singletonCounter σ;
     styleElementsInsertedAtTop := styleElementsInsertedAtTop σ;
     textStore := textStore σ; children := children σ; parent := parent σ;
     nodes := nodes σ; next_node := next_node σ; blobs := blobs σ;
     revoked := revoked σ |}.

Definition with_attrsObjs (v : gmap nat (list (string * string))) (σ : state) : state :=
  {| cache := cache σ; entries := entries σ; next_ref := next_ref σ;
     attrsObjs := v; memo := memo σ; isOldIE_memo := isOldIE_memo σ;
     singletonElement := singletonElement σ;
     singletonCounter := singletonCounter σ;
     styleElementsInsertedAtTop := styleElementsInsertedAtTop σ;
     textStore := textStore σ; children := children σ; parent := parent σ;
     nodes := nodes σ; next_node := next_node σ; blobs := blobs σ;
     revoked := revoked σ |}.

Definition with_memo (v : gmap string (option node)) (σ : state) : state :=
  {| cache := cache σ; entries := entries σ; next_ref := next_ref σ;
     attrsObjs := attrsObjs σ; memo := v; isOldIE_memo := isOldIE_memo σ;
     singletonElement := singletonElement σ;
     singletonCounter := singletonCounter σ;
     styleElementsInsertedAtTop := styleElementsInsertedAtTop σ;
     textStore := textStore σ; children := children σ; parent := parent σ;
     nodes := nodes σ; next_node := next_node σ; blobs := blobs σ;
     revoked := revoked σ |}.

Definition with_isOldIE_memo (v : option bool) (σ : state) : state :=
  {| cache := cache σ; entries := entries σ; next_ref := next_ref σ;
     attrsObjs := attrsObjs σ; memo := memo σ; isOldIE_memo := v;
     singletonElement := singletonElement σ;
     singletonCounter := singletonCounter σ;
     styleElementsInsertedAtTop := styleElementsInsertedAtTop σ;
     textStore := textStore σ; children := children σ; parent := parent σ;
     nodes := nodes σ; next_node := next_node σ; blobs := blobs σ;
     revoked := revoked σ |}.

Definition with_singletonElement (v : option node) (σ : state) : state :=
  {| cache := cache σ; entries := entries σ; next_ref := next_ref σ;
     attrsObjs := attrsObjs σ; memo := memo σ;
     isOldIE_memo := isOldIE_memo σ; singletonElement := v;
     singletonCounter := singletonCounter σ;
     styleElementsInsertedAtTop := styleElementsInsertedAtTop σ;
     textStore := textStore σ; children := children σ; parent := parent σ;
     nodes := nodes σ; next_node := next_node σ; blobs := blobs σ;
     revoked := revoked σ |}.

Definition with_singletonCounter (v : nat) (σ : state) : state :=
  {| cache := cache σ; entries := entries σ; next_ref := next_ref σ;
     attrsObjs := attrsObjs σ; memo := memo σ;
     isOldIE_memo := isOldIE_memo σ; singletonElement := singletonElement σ;
     singletonCounter := v;
     styleElementsInsertedAtTop := styleElementsInsertedAtTop σ;
     textStore := textStore σ; children := children σ; parent := parent σ;
     nodes := nodes σ; next_node := next_node σ; blobs := blobs σ;
     revoked := revoked σ |}.

Definition with_styleElementsInsertedAtTop (v : list node) (σ : state) : state :=
  {| cache := cache σ; entries := entries σ; next_ref := next_ref σ;
     attrsObjs := attrsObjs σ; memo := memo σ;
     isOldIE_memo := isOldIE_memo σ; singletonElement := singletonElement σ;
     singletonCounter := singletonCounter σ; styleElementsInsertedAtTop := v;
     textStore := textStore σ; children := children σ; parent := parent σ;
     nodes := nodes σ; next_node := next_node σ; blobs := blobs σ;
     revoked := revoked σ |}.

Definition with_textStore (v : list (option string)) (σ : state) : state :=
  {| cache := cache σ; entries := entries σ; next_ref := next_ref σ;
     attrsObjs := attrsObjs σ; memo := memo σ;
     isOldIE_memo := isOldIE_memo σ; singletonElement := singletonElement σ;
     singletonCounter := singletonCounter σ;
     styleElementsInsertedAtTop := styleElementsInsertedAtTop σ;
     textStore := v; children := children σ; parent := parent σ;
     nodes := nodes σ; next_node := next_node σ; blobs := blobs σ;
     revoked := revoked σ |}.

Definition with_children (v : gmap node (list node)) (σ : state) : state :=
  {| cache := cache σ; entries := entries σ; next_ref := next_ref σ;
     attrsObjs := attrsObjs σ; memo := memo σ;
     isOldIE_memo := isOldIE_memo σ; singletonElement := singletonElement σ;
     singletonCounter := singletonCounter σ;
     styleElementsInsertedAtTop := styleElementsInsertedAtTop σ;
     textStore := textStore σ; children := v; parent := parent σ;
     nodes := nodes σ; next_node := next_node σ; blobs := blobs σ;
     revoked := revoked σ |}.

Definition with_parent (v : gmap node node) (σ : state) : state :=
  {| cache := cache σ; entries := entries σ; next_ref := next_ref σ;
     attrsObjs := attrsObjs σ; memo := memo σ;
     isOldIE_memo := isOldIE_memo σ; singletonElement := singletonElement σ;
     singletonCounter := singletonCounter σ;
     styleElementsInsertedAtTop := styleElementsInsertedAtTop σ;
     textStore := textStore σ; children := children σ; parent := v;
     nodes := nodes σ; next_node := next_node σ; blobs := blobs σ;
     revoked := revoked σ |}.

Definition with_nodes (v : gmap node element) (σ : state) : state :=
  {| cache := cache σ; entries := entries σ; next_ref := next_ref σ;
     attrsObjs := attrsObjs σ; memo := memo σ;
     isOldIE_memo := isOldIE_memo σ; singletonElement := singletonElement σ;
     singletonCounter := singletonCounter σ;
     styleElementsInsertedAtTop := styleElementsInsertedAtTop σ;
     textStore := textStore σ; children := children σ; parent := parent σ;
     nodes := v; next_node := next_node σ; blobs := blobs σ;
     revoked := revoked σ |}.

Definition with_next_node (v : nat) (σ : state) : state :=
  {| cache := cache σ; entries := entries σ; next_ref := next_ref σ;
     attrsObjs := attrsObjs σ; memo := memo σ;
     isOldIE_memo := isOldIE_memo σ; singletonElement := singletonElement σ;
     singletonCounter := singletonCounter σ;
     styleElementsInsertedAtTop := styleElementsInsertedAtTop σ;
     textStore := textStore σ; children := children σ; parent := parent σ;
     nodes := nodes σ; next_node := v; blobs := blobs σ;
     revoked := revoked σ |}.

Definition with_blobs (v : list string) (σ : state) : state :=
  {| cache := cache σ; entries := entries σ; next_ref := next_ref σ;
     attrsObjs := attrsObjs σ; memo := memo σ;
     isOldIE_memo := isOldIE_memo σ; singletonElement := singletonElement σ;
     singletonCounter := singletonCounter σ;
     styleElementsInsertedAtTop := styleElementsInsertedAtTop σ;
     textStore := textStore σ; children := children σ; parent := parent σ;
     nodes := nodes σ; next_node := next_node σ; blobs := v;
     revoked := revoked σ |}.

Definition with_revoked (v : gset url) (σ : state) : state :=
  {| cache := cache σ; entries := entries σ; next_ref := next_ref σ;
     attrsObjs := attrsObjs σ; memo := memo σ;
     isOldIE_memo := isOldIE_memo σ; singletonElement := singletonElement σ;
     singletonCounter := singletonCounter σ;
     styleElementsInsertedAtTop := styleElementsInsertedAtTop σ;
     textStore := textStore σ; children := children σ; parent := parent σ;
     nodes := nodes σ; next_node := next_node σ; blobs := blobs σ;
     revoked := v |}.

(** ** Computations: state passing with exceptions *)

Inductive error :=
  | NoStyleTarget      (* thrown when no style target is found *)
  | InvalidInsertAt    (* thrown for an invalid value of insertAt *)
  | TypeError          (* a property read on [undefined] or [null] *)
  | NotFoundError.     (* DOM: the reference node is not a child *)

Inductive outcome (A : Type) :=
  | Return (a : A) (σ : state)
  | Throw (e : error) (σ : state).
Arguments Return {A} a σ.
Arguments Throw {A} e σ.

Definition M (A : Type) : Type := state → outcome A.

#[global] Instance M_ret : MRet M := λ A a σ, Return a σ.

#[global] Instance M_bind : MBind M := λ A B f m σ,
  match m σ with
  | Return a σ' => f a σ'
  | Throw e σ' => Throw e σ'
  end.

Definition throw {A} (e : error) : M A := λ σ, Throw e σ.
Definition gets {A} (f : state → A) : M A := λ σ, Return (f σ) σ.
Definition modify (f : state → state) : M unit := λ σ, Return tt (f σ).

(** A [for] loop over an array. *)
Fixpoint forM {A} (f : A → M unit) (l : list A) : M unit :=
  match l with
  | [] => mret tt
  | x :: l' => f x ;; forM f l'
  end.

(** A loop that pushes one result per element onto a local array. *)
Fixpoint mapM' {A B} (f : A → M B) (l : list A) : M (list B) :=
  match l with
  | [] => mret []
  | x :: l' => y ← f x; ys ← mapM' f l'; mret (y :: ys)
  end.

Definition nl : string := String (Ascii.ascii_of_nat 10) EmptyString.

(** [obj[k] = v] on an object whose keys keep their insertion order. *)
Fixpoint assoc_set (k v : string) (l : list (string * string))
    : list (string * string) :=
  match l with
  | [] => [(k, v)]
  | kv :: l' =>
      if decide (kv.1 = k) then (kv.1, v) :: l' else kv :: assoc_set k v l'
  end.

(** [array[index] = v], which pads a short array with holes. *)
Definition array_set {A} (index : nat) (v : A) (l : list (option A))
    : list (option A) :=
  if decide (index < length l) then <[index := Some v]> l
  else l ++ replicate (index - length l) None ++ [Some v].

(** [array.splice(array.indexOf(x), 1)] when [x] occurs. *)
Fixpoint remove_first (x : node) (l : list node) : list node :=
  match l with
  | [] => []
  | y :: l' => if decide (y = x) then l' else y :: remove_first x l'
  end.

Fixpoint next_after (el : node) (l : list node) : option node :=
  match l with
  | [] => None
  | c :: l' => if decide (c = el) then head l' else next_after el l'
  end.

Fixpoint insert_before (el r : node) (l : list node) : list node :=
  match l with
  | [] => [el]
  | c :: l' =>
      if decide (c = r) then el :: c :: l' else c :: insert_before el r l'
  end.

(** The children of the target after a top insertion behind [lastEl]:
    in front of its next sibling, or at the end when it has none. *)
Definition placed_after (lastEl el : node) (kids : list node) : list node :=
  match next_after lastEl kids with
  | Some s => insert_before el s kids
  | None => kids ++ [el]
  end.

Definition set_attributes (v : list (string * string)) (e : element) :=
  {| tagName := tagName e; attributes := v; cssText := cssText e;
     childNodes := childNodes e; href := href e |}.

Definition set_cssText (v : string) (e : element) :=
  {| tagName := tagName e; attributes := attributes e; cssText := v;
     childNodes := childNodes e; href := href e |}.

Definition set_childNodes (v : list string) (e : element) :=
  {| tagName := tagName e; attributes := attributes e; cssText := cssText e;
     childNodes := v; href := href e |}.

Definition set_href (v : option url) (e : element) :=
  {| tagName := tagName e; attributes := attributes e; cssText := cssText e;
     childNodes := childNodes e; href := v |}.

Definition upd_node (el : node) (f : element → element) (σ : state) : state :=
  with_nodes (alter f el (nodes σ)) σ.

Definition set_refs (v : Z) (d : StyleInDOM) : StyleInDOM :=
  {| dom_id := dom_id d; refs := v; parts := parts d |}.

Definition set_parts (v : list Handle) (d : StyleInDOM) : StyleInDOM :=
  {| dom_id := dom_id d; refs := refs d; parts := v |}.

Definition upd_entry (e : nat) (f : StyleInDOM → StyleInDOM) (σ : state)
    : state :=
  with_entries (alter f e (entries σ)) σ.

Definition set_obj (v : Part) (h : Handle) : Handle :=
  {| h_el := h_el h; h_strategy := h_strategy h; h_obj := v |}.

(** *** Reading the document *)

Definition children_of (σ : state) (t : node) : list node :=
  default [] (children σ !! t).

Definition firstChild (t : node) (σ : state) : option node :=
  head (children_of σ t).

Definition nextSibling (el : node) (σ : state) : option node :=
  match parent σ !! el with
  | Some p => next_after el (children_of σ p)
  | None => None
  end.

Definition href_of (σ : state) (el : node) : option url :=
  nodes σ !! el ≫= href.

Definition attrs_of (σ : state) (a : nat) : list (string * string) :=
  default [] (attrsObjs σ !! a).

Definition entry_parts (σ : state) (e : nat) : list Handle :=
  match entries σ !! e with
  | Some d => parts d
  | None => []
  end.

(** *** DOM operations *)

(** Taking a node out of its parent's child list, as every insertion
    first does with a node that is already in the document. *)
Definition detach (el : node) (σ : state) : state :=
  match parent σ !! el with
  | Some p =>
      with_parent (delete el (parent σ))
        (with_children
           (<[p := filter (λ c, c ≠ el) (children_of σ p)]> (children σ)) σ)
  | None => σ
  end.

Definition appendChild (t el : node) : M unit :=
  modify (λ σ,
    let σ1 := detach el σ in
    with_parent (<[el := t]> (parent σ1))
      (with_children (<[t := children_of σ1 t ++ [el]]> (children σ1)) σ1)).

Definition insertBefore (t el : node) (ref : option node) : M unit :=
  match ref with
  | None => appendChild t el
  | Some r => λ σ,
      if decide (r ∈ children_of σ t) then
        let σ1 := detach el σ in
        Return tt
          (with_parent (<[el := t]> (parent σ1))
             (with_children
                (<[t := insert_before el r (children_of σ1 t)]> (children σ1))
                σ1))
      else Throw NotFoundError σ
  end.

Definition createElement (t : tag) : M node := λ σ,
  let el := next_node σ in
  Return el
    (with_next_node (S el)
       (with_nodes
          (<[el := {| tagName := t; attributes := []; cssText := EmptyString;
                      childNodes := []; href := None |}]> (nodes σ)) σ)).

Definition setAttribute (el : node) (k v : string) : M unit :=
  modify (upd_node el (λ e, set_attributes (assoc_set k v (attributes e)) e)).

Definition createObjectURL (blob : string) : M url := λ σ,
  Return (length (blobs σ)) (with_blobs (blobs σ ++ [blob]) σ).

Definition revokeObjectURL (u : url) : M unit :=
  modify (λ σ, with_revoked ({[u]} ∪ revoked σ) σ).

(** The text a style element shows: [styleSheet.cssText] where that
    API exists, else the concatenation of its text nodes. *)
Definition element_text (has_sheet : bool) (σ : state) (el : node) : string :=
  match nodes σ !! el with
  | Some e =>
      if has_sheet then cssText e else String.concat EmptyString (childNodes e)
  | None => EmptyString
  end.

(** ** The module's functions *)

Section Model.
Context (env : Env).

(** [memoize]: the function runs while the memo is [undefined]. *)
Definition isOldIE : M bool := λ σ,
  match isOldIE_memo σ with
  | Some b => Return b σ
  | None => Return (oldIE env) (with_isOldIE_memo (Some (oldIE env)) σ)
  end.

(** [document.querySelector] gives an element or [null], and either is
    kept in the memo. *)
Definition getElement (selector : string) : M (option node) := λ σ,
  match memo σ !! selector with
  | Some r => Return r σ
  | None =>
      let r := querySelector env selector in
      Return r (with_memo (<[selector := r]> (memo σ)) σ)
  end.

Definition insertStyleElement (options : Options) (styleElement : node)
    : M unit :=
  styleTarget ← getElement (insertInto options);
  match styleTarget with
  | None => throw NoStyleTarget
  | Some target =>
      lastStyleElementInsertedAtTop ←
        gets (λ σ, last (styleElementsInsertedAtTop σ));
      if decide (insertAt options = "top") then
        match lastStyleElementInsertedAtTop with
        | None =>
            first ← gets (firstChild target);
            insertBefore target styleElement first
        | Some lastEl =>
            sibling ← gets (nextSibling lastEl);
            match sibling with
            | Some s => insertBefore target styleElement (Some s)
            | None => appendChild target styleElement
            end
        end;;
        modify (λ σ,
          with_styleElementsInsertedAtTop
            (styleElementsInsertedAtTop σ ++ [styleElement]) σ)
      else if decide (insertAt options = "bottom") then
        appendChild target styleElement
      else throw InvalidInsertAt
  end.

Definition removeStyleElement (styleElement : node) : M unit := λ σ,
  match parent σ !! styleElement with
  | None => Throw TypeError σ
  | Some _ =>
      let σ1 := detach styleElement σ in
      Return tt
        (with_styleElementsInsertedAtTop
           (remove_first styleElement (styleElementsInsertedAtTop σ1)) σ1)
  end.

Definition set_attrs_prop (a : nat) (k v : string) : M unit :=
  modify (λ σ,
    with_attrsObjs (<[a := assoc_set k v (attrs_of σ a)]> (attrsObjs σ)) σ).

Definition attachTagAttrs (el : node) (a : nat) : M unit := λ σ,
  forM (λ kv, setAttribute el kv.1 kv.2) (attrs_of σ a) σ.

Definition createStyleElement (options : Options) : M node :=
  styleElement ← createElement StyleTag;
  set_attrs_prop (attrs options) "type" "text/css";;
  attachTagAttrs styleElement (attrs options);;
  insertStyleElement options styleElement;;
  mret styleElement.

Definition createLinkElement (options : Options) : M node :=
  linkElement ← createElement LinkTag;
  set_attrs_prop (attrs options) "type" "text/css";;
  set_attrs_prop (attrs options) "rel" "stylesheet";;
  attachTagAttrs linkElement (attrs options);;
  insertStyleElement options linkElement;;
  mret linkElement.

(** [textStore.filter(Boolean)]: holes and empty strings are dropped. *)
Definition filter_Boolean (store : list (option string)) : list string :=
  omap (λ o, match o with
             | Some s => if truthy s then Some s else None
             | None => None
             end) store.

Definition replaceText (index : nat) (replacement : string) : M string := λ σ,
  let store := array_set index replacement (textStore σ) in
  Return (String.concat nl (filter_Boolean store)) (with_textStore store σ).

(** The text-node branch of [applyToSingletonTag] on the live
    [childNodes] list. *)
Definition splice_text_node (index : nat) (css : string) (nodes : list string)
    : list string :=
  let removed :=
    match nodes !! index with
    | Some _ => delete index nodes
    | None => nodes
    end in
  match removed with
  | [] => [css]
  | _ :: _ =>
      match removed !! index with
      | Some _ => take index removed ++ css :: drop index removed
      | None => removed ++ [css]
      end
  end.

Definition applyToSingletonTag (styleElement : node) (index : nat)
    (remove : bool) (obj : option Part) : M unit :=
  css ← (if remove then mret EmptyString
         else match obj with
              | Some o => mret (css o)
              | None => throw TypeError
              end);
  if has_styleSheet env then
    text ← replaceText index css;
    modify (upd_node styleElement (set_cssText text))
  else
    modify (upd_node styleElement
              (λ e, set_childNodes (splice_text_node index css (childNodes e)) e)).

Definition applyToTag (styleElement : node) (obj : Part) : M unit :=
  (if truthy (media obj) then setAttribute styleElement "media" (media obj)
   else mret tt);;
  if has_styleSheet env then
    modify (upd_node styleElement (set_cssText (css obj)))
  else
    modify (upd_node styleElement (set_childNodes [css obj])).

(** [options.convertToAbsoluteUrls === undefined && sourceMap] *)
Definition autoFixUrls (options : Options) (obj : Part) : bool :=
  bool_decide (convertToAbsoluteUrls options = None)
  && truthy_opt (sourceMap obj).

(** The condition under which [updateLink] calls [fixUrls]. *)
Definition fixes_urls (options : Options) (obj : Part) : bool :=
  bool_decide (convertToAbsoluteUrls options = Some true)
  || autoFixUrls options obj.

(** The source-map comment that [updateLink] appends when the part has
    a source map. *)
Definition append_sourceMap (obj : Part) (css1 : string) : string :=
  match sourceMap obj with
  | Some sm =>
      if truthy sm then
        css1 ++ nl ++ "/*# sourceMappingURL=data:application/json;base64,"
        ++ encodeSourceMap env sm ++ " */"
      else css1
  | None => css1
  end.

(** The text [updateLink] puts in the blob. *)
Definition link_css (options : Options) (obj : Part) : string :=
  append_sourceMap obj
    (if fixes_urls options obj then fixUrls env (css obj) else css obj).

(** The states [updateLink] goes through, one per statement with an
    effect: the object URL is created, it becomes the href, and the old
    href, if there was one, is revoked. *)
Definition updateLink_states (linkElement : node) (options : Options)
    (obj : Part) (σ : state) : list state :=
  let blob := link_css options obj in
  let oldSrc := href_of σ linkElement in
  let newSrc := length (blobs σ) in
  let σ1 := with_blobs (blobs σ ++ [blob]) σ in
  let σ2 := upd_node linkElement (set_href (Some newSrc)) σ1 in
  match oldSrc with
  | Some old => [σ1; σ2; with_revoked ({[old]} ∪ revoked σ2) σ2]
  | None => [σ1; σ2]
  end.

Definition updateLink (linkElement : node) (options : Options) (obj : Part)
    : M unit := λ σ,
  Return tt (default σ (last (updateLink_states linkElement options obj σ))).


(** The [update] and [remove] a handle closes over. *)
Definition handle_update (h : Handle) (obj : Part) : M unit :=
  match h_strategy h with
  | SingletonSlot styleIndex =>
      applyToSingletonTag (h_el h) styleIndex false (Some obj)
  | BlobLink options => updateLink (h_el h) options obj
  | InlineTag => applyToTag (h_el h) obj
  end.

Definition handle_remove (h : Handle) : M unit :=
  match h_strategy h with
  | SingletonSlot styleIndex =>
      applyToSingletonTag (h_el h) styleIndex true None
  | BlobLink _ =>
      removeStyleElement (h_el h);;
      old ← gets (λ σ, href_of σ (h_el h));
      match old with
      | Some u => revokeObjectURL u
      | None => mret tt
      end
  | InlineTag => removeStyleElement (h_el h)
  end.

(** The closure [addStyle] returns; the result is the closure with its
    variable [obj] as the call leaves it. *)
Definition updateStyle (h : Handle) (newObj : option Part) : M Handle :=
  match newObj with
  | Some n =>
      if bool_decide (css n = css (h_obj h))
         && bool_decide (media n = media (h_obj h))
         && bool_decide (sourceMap n = sourceMap (h_obj h))
      then mret h
      else handle_update h n;; mret (set_obj n h)
  | None => handle_remove h;; mret h
  end.

Definition addStyle (obj : Part) (options : Options) : M Handle :=
  if singleton options then
    styleIndex ← (λ σ, Return (singletonCounter σ)
                         (with_singletonCounter (S (singletonCounter σ)) σ));
    current ← gets singletonElement;
    styleElement ← match current with
                   | Some el => mret el
                   | None =>
                       el ← createStyleElement options;
                       modify (with_singletonElement (Some el));;
                       mret el
                   end;
    let h := {| h_el := styleElement; h_strategy := SingletonSlot styleIndex;
                h_obj := obj |} in
    handle_update h obj;; mret h
  else if truthy_opt (sourceMap obj) && has_blob_api env then
    styleElement ← createLinkElement options;
    let h := {| h_el := styleElement; h_strategy := BlobLink options;
                h_obj := obj |} in
    handle_update h obj;; mret h
  else
    styleElement ← createStyleElement options;
    let h := {| h_el := styleElement; h_strategy := InlineTag;
                h_obj := obj |} in
    handle_update h obj;; mret h.

(** [domStyle.parts[j](arg)] *)
Definition invoke_part (e j : nat) (arg : option Part) : M unit :=
  target ← gets (λ σ, entry_parts σ e !! j);
  match target with
  | None => throw TypeError
  | Some h =>
      h' ← updateStyle h arg;
      modify (upd_entry e (λ d, set_parts (<[j := h']> (parts d)) d))
  end.

Definition push_handle (e : nat) (h : Handle) : M unit :=
  modify (upd_entry e (λ d, set_parts (parts d ++ [h]) d)).

Definition alloc_ref : M nat := λ σ,
  Return (next_ref σ) (with_next_ref (S (next_ref σ)) σ).

Definition addStylesToDom_one (options : Options) (style : Style) : M unit :=
  domStyle ← gets (λ σ, stylesInDom_get (cache σ) style);
  match domStyle with
  | Some e =>
      modify (upd_entry e (λ d, set_refs (refs d + 1) d));;
      n ← gets (λ σ, length (entry_parts σ e));
      forM (λ j, invoke_part e j (s_parts style !! j)) (seq 0 n);;
      forM (λ p, h ← addStyle p options; push_handle e h)
        (drop n (s_parts style))
  | None =>
      handles ← mapM' (λ p, addStyle p options) (s_parts style);
      e ← alloc_ref;
      modify (λ σ,
        with_entries
          (<[e := {| dom_id := s_id style; refs := 1; parts := handles |}]>
             (entries σ)) σ);;
      modify (λ σ, with_cache (stylesInDom_set (cache σ) style e) σ)
  end.

Definition addStylesToDom (styles : list Style) (options : Options)
    : M unit :=
  forM (addStylesToDom_one options) styles.

(** [listToStyles] with the descriptors it allocates. *)
Definition new_styles (items : list Item) : M (list Style) := λ σ,
  let styles := listToStyles (next_ref σ) items in
  Return styles (with_next_ref (next_ref σ + length styles) σ).

Definition default_options : RawOptions :=
  {| raw_convertToAbsoluteUrls := None; raw_singleton := None;
     raw_attrs := None; raw_insertInto := None; raw_insertAt := None |}.

(** [module.exports]; a live document is assumed, so the DEBUG check
    passes. *)
Definition install (items : list Item) (options : option RawOptions)
    : M Closure :=
  let raw := default default_options options in
  a ← match raw_attrs raw with
      | Some a => mret a
      | None =>
          a ← alloc_ref;
          modify (λ σ, with_attrsObjs (<[a := []]> (attrsObjs σ)) σ);;
          mret a
      end;
  s ← match raw_singleton raw with
      | Some b => mret b
      | None => isOldIE
      end;
  let options' :=
    {| convertToAbsoluteUrls := raw_convertToAbsoluteUrls raw;
       singleton := s; attrs := a;
       insertInto := default "head" (raw_insertInto raw);
       insertAt := default "bottom" (raw_insertAt raw) |} in
  styles ← new_styles items;
  addStylesToDom styles options';;
  mret {| cl_styles := styles; cl_options := options' |}.

Definition stage_removal (style : Style) : M nat :=
  domStyle ← gets (λ σ, stylesInDom_get (cache σ) style);
  match domStyle with
  | None => throw TypeError
  | Some e => modify (upd_entry e (λ d, set_refs (refs d - 1) d));; mret e
  end.

Definition evict (e : nat) : M unit :=
  modify (λ σ,
    match entries σ !! e with
    | Some d => with_cache (stylesInDom_delete (cache σ) (dom_id d) e) σ
    | None => σ
    end).

Definition remove_if_unreferenced (e : nat) : M unit :=
  r ← gets (λ σ, refs <$> entries σ !! e);
  if decide (r = Some 0%Z) then
    n ← gets (λ σ, length (entry_parts σ e));
    forM (λ j, invoke_part e j None) (seq 0 n);;
    evict e
  else mret tt.

(** The closure [update] that the entry point returns. *)
Definition update (c : Closure) (newList : option (list Item)) : M unit :=
  mayRemove ← mapM' stage_removal (cl_styles c);
  match newList with
  | Some items =>
      newStyles ← new_styles items;
      addStylesToDom newStyles (cl_options c)
  | None => mret tt
  end;;
  forM remove_if_unreferenced mayRemove.

End Model.

(** ** A session as the module starts it, and a sample environment *)

(** The module-level variables as the module initialises them, over a
    given document. *)
Definition session_start (children0 : gmap node (list node))
    (parent0 : gmap node node) (first_node : nat) : state :=
  {| cache := ∅; entries := ∅; next_ref := 0; attrsObjs := ∅; memo := ∅;
     isOldIE_memo := None; singletonElement := None; singletonCounter := 0;
     styleElementsInsertedAtTop := []; textStore := []; children := children0;
     parent := parent0; nodes := ∅; next_node := first_node; blobs := [];
     revoked := ∅ |}.

(** A document whose head is node 0, with two children already. *)
Definition sample_state : state :=
  session_start {[ 0 := [1; 2] ]} {[ 1 := 0; 2 := 0 ]} 3.

(** The same document with two entries for module 7 on the heap, one
    per descriptor object. *)
Definition two_entries : state :=
  with_entries
    {[ 2 := {| dom_id := 7; refs := 0; parts := [] |};
       3 := {| dom_id := 7; refs := 1; parts := [] |} ]}
    sample_state.

(** A current browser: no [styleSheet] property, blob URLs available,
    and only the selector head resolves. *)
Definition modern_env : Env :=
  {| querySelector := λ s, if decide (s = "head") then Some 0 else None;
     oldIE := false; has_styleSheet := false; has_blob_api := true;
     fixUrls := λ s, ("fixed:" ++ s)%string;
     encodeSourceMap := λ s, ("b64:" ++ s)%string |}.

(** Internet Explorer up to 9: [styleSheet.cssText], no blob URLs. *)
Definition legacy_env : Env :=
  {| querySelector := λ s, if decide (s = "head") then Some 0 else None;
     oldIE := true; has_styleSheet := true; has_blob_api := false;
     fixUrls := λ s, ("fixed:" ++ s)%string;
     encodeSourceMap := λ s, ("b64:" ++ s)%string |}.

Definition state_of {A} (r : outcome A) : state :=
  match r with
  | Return _ σ => σ
  | Throw _ σ => σ
  end.

Definition value_of {A} (r : outcome A) : option A :=
  match r with
  | Return a _ => Some a
  | Throw _ _ => None
  end.

Definition thrown {A} (r : outcome A) : option error :=
  match r with
  | Return _ _ => None
  | Throw e _ => Some e
  end.

(** The node [getElement] gives for a selector in a state. *)
Definition target_of (env : Env) (σ : state) (selector : string)
    : option node :=
  match memo σ !! selector with
  | Some r => r
  | None => querySelector env selector
  end.

Definition options_at (where_ : string) (single : bool) : Options :=
  {| convertToAbsoluteUrls := None; singleton := single; attrs := 0;
     insertInto := "head"; insertAt := where_ |}.

(** The state [getElement] leaves: at most the memo has grown. *)
Definition memoized (env : Env) (selector : string) (σ : state) : state :=
  state_of (getElement env selector σ).

(** ** Notions used to state and prove the properties *)

(** What a descriptor holds apart from its identity. *)
Definition view (s : Style) : Z * list Part := (s_id s, s_parts s).

(** The grouping of an input list, said directly: one group per id in
    first-seen order, holding the parts of that id in input order. *)
Definition grouped (items : list Item) : list (Z * list Part) :=
  (λ i, (i, parts_for i items)) <$> first_seen (item_id <$> items).

(** The invariant of the loop of [listToStyles] after the items
    [items] have been read. *)
Definition loop_inv (items : list Item) (acc : list Style * gmap Z nat)
    : Prop :=
  view <$> acc.1 = grouped items
  ∧ (∀ i k, acc.2 !! i = Some k → (s_id <$> acc.1) !! k = Some i)
  ∧ (∀ i, acc.2 !! i = None → i ∉ item_id <$> items).

(** A computation preserves an observation [f] of the state, whether it
    returns or throws. *)
Definition preserves {A B} (m : M A) (f : state → B) : Prop :=
  ∀ σ, f (state_of (m σ)) = f σ.

(** An observation that does not look at the field a setter writes. *)
Definition ignores {B V} (setter : V → state → state) (f : state → B)
    : Prop :=
  ∀ v σ, f (setter v σ) = f σ.



(** What an element holds apart from its attributes. *)
Definition node_content (el : node) (σ : state)
    : option (tag * string * list string * option url) :=
  (λ e, (tagName e, cssText e, childNodes e, href e)) <$> nodes σ !! el.

(** The state after [applyToSingletonTag] has put the text [text] in
    the slot [index]. *)
Definition singleton_applied (env : Env) (el : node) (index : nat)
    (text : string) (σ : state) : state :=
  if has_styleSheet env then
    let store := array_set index text (textStore σ) in
    upd_node el (set_cssText (String.concat nl (filter_Boolean store)))
      (with_textStore store σ)
  else
    upd_node el
      (λ e, set_childNodes (splice_text_node index text (childNodes e)) e) σ.

(** The error the configuration makes [insertStyleElement] throw, if
    any: an unresolved target, else an invalid [insertAt]. *)
Definition config_error (env : Env) (options : Options) (σ : state)
    : option error :=
  match target_of env σ (insertInto options) with
  | None => Some NoStyleTarget
  | Some _ =>
      if decide (insertAt options = "top") then None
      else if decide (insertAt options = "bottom") then None
      else Some InvalidInsertAt
  end.

(** The element inserted at the top last, when it is still in the
    document, is a child of the target of these options. *)
Definition top_compatible (env : Env) (options : Options) (σ : state)
    : Prop :=
  insertAt options = "top" →
  ∀ lastEl t p,
    last (styleElementsInsertedAtTop σ) = Some lastEl →
    target_of env σ (insertInto options) = Some t →
    parent σ !! lastEl = Some p → p = t.

(** The child lists and the parent pointers agree, and every node in
    the document was allocated. *)
Definition dom_wf (σ : state) : Prop :=
  (∀ el t, el ∈ children_of σ t → parent σ !! el = Some t)
  ∧ (∀ el, is_Some (parent σ !! el) → el < next_node σ).

(** The options the entry point works with, given what the caller
    passed and the state it is called in. *)
Definition effective_singleton (env : Env) (raw : RawOptions) (σ : state)
    : bool :=
  match raw_singleton raw with
  | Some b => b
  | None =>
      match isOldIE_memo σ with
      | Some b => b
      | None => oldIE env
      end
  end.

Definition effective_options (env : Env) (options : option RawOptions)
    (σ : state) : Options :=
  let raw := default default_options options in
  {| convertToAbsoluteUrls := raw_convertToAbsoluteUrls raw;
     singleton := effective_singleton env raw σ;
     attrs := default (next_ref σ) (raw_attrs raw);
     insertInto := default "head" (raw_insertInto raw);
     insertAt := default "bottom" (raw_insertAt raw) |}.

(** Adding a part has to insert a new element: always outside singleton
    mode, and in singleton mode while there is no shared element. *)
Definition needs_element (options : Options) (σ : state) : bool :=
  negb (singleton options) || bool_decide (singletonElement σ = None).

(** Every object the registry mentions was allocated. *)
Definition registry_fresh (σ : state) : Prop :=
  (∀ i bucket r e, cache σ !! i = Some bucket → (r, e) ∈ bucket →
     r < next_ref σ ∧ e < next_ref σ)
  ∧ (∀ e, is_Some (entries σ !! e) → e < next_ref σ).

(** Parts can be added without an exception. *)
Definition can_add (env : Env) (options : Options) (σ : state) : Prop :=
  needs_element options σ = false
  ∨ (config_error env options σ = None ∧ top_compatible env options σ).

(** The state in which the entry point starts to add styles: the
    prologue has at most allocated an attrs object, filled the memo of
    [isOldIE] and allocated the descriptors. *)
Definition after_prologue (a : gmap nat (list (string * string)))
    (r : nat) (m : option bool) (σ : state) : state :=
  with_attrsObjs a (with_next_ref r (with_isOldIE_memo m σ)).

(** Registering a new entry for [style] with the handles [handles]. *)
Definition registered (style : Style) (handles : list Handle) (σ : state)
    : state :=
  with_cache (stylesInDom_set (cache σ) style (next_ref σ))
    (with_entries
       (<[next_ref σ := {| dom_id := s_id style; refs := 1;
                           parts := handles |}]> (entries σ))
       (with_next_ref (S (next_ref σ)) σ)).

(** ** Sample inputs *)

Definition red_item : Item := mkItem 1 "a{color:red}" EmptyString None.
Definition blue_item : Item := mkItem 1 "a{color:blue}" EmptyString None.
Definition mapped_item : Item := mkItem 2 "b{}" EmptyString (Some "map").

Definition red_part : Part := part_of_item red_item.
Definition blue_part : Part := part_of_item blue_item.

Definition raw_options_at (where_ : string) (single : bool) : RawOptions :=
  {| raw_convertToAbsoluteUrls := None; raw_singleton := Some single;
     raw_attrs := None; raw_insertInto := None; raw_insertAt := Some where_ |}.

(** The sample document with one new link element, not yet inserted. *)
Definition link_created : state :=
  state_of (createElement LinkTag sample_state).

Definition new_link : element :=
  {| tagName := LinkTag; attributes := []; cssText := EmptyString;
     childNodes := []; href := None |}.

Definition is_singleton_slot (h : Handle) : bool :=
  match h_strategy h with
  | SingletonSlot _ => true
  | _ => false
  end.

Definition is_link (h : Handle) : bool :=
  match h_strategy h with
  | BlobLink _ => true
  | _ => false
  end.

(** The element [el], a child of [p] in [σ], has been taken out of the
    document in [σ'], and nothing else has moved. *)
Definition taken_out (el p : node) (σ σ' : state) : Prop :=
  parent σ' = delete el (parent σ)
  ∧ (∀ t x, x ∈ children_of σ' t ↔ x ∈ children_of σ t ∧ ¬ (x = el ∧ t = p))
  ∧ nodes σ' = nodes σ ∧ blobs σ' = blobs σ ∧ next_node σ' = next_node σ
  ∧ cache σ' = cache σ ∧ entries σ' = entries σ ∧ next_ref σ' = next_ref σ.

(** An element that is in no child list and has no parent. *)
Definition detached (σ : state) (el : node) : Prop :=
  parent σ !! el = None ∧ ∀ t, el ∉ children_of σ t.

(** A handle that owns its element, still in the document. *)
Definition owns_attached (σ : state) (h : Handle) : Prop :=
  is_singleton_slot h = false ∧ is_Some (parent σ !! h_el h).

(** ** Sessions of several consumers *)

(** [calls] are the arguments of successive calls of the entry point;
    the result is the list of the [update] closures they return. *)
Definition installs (env : Env)
    (calls : list (list Item * option RawOptions)) : M (list Closure) :=
  mapM' (λ call, install env call.1 call.2) calls.

(** Each closure is called once, without an argument. *)
Definition teardowns (env : Env) (closures : list Closure) : M unit :=
  forM (λ c, update env c None) closures.

(** The call asks for elements of their own for the parts: singleton
    mode is switched off, or left to a browser that is not an old IE. *)
Definition own_elements (env : Env) (options : option RawOptions) : Prop :=
  match raw_singleton (default default_options options) with
  | Some b => b = false
  | None => oldIE env = false
  end.

(** The memo of [isOldIE], when filled, holds what the environment
    says. *)
Definition isOldIE_memo_wf (env : Env) (σ : state) : Prop :=
  isOldIE_memo σ = None ∨ isOldIE_memo σ = Some (oldIE env).

(** The handles [hs] account for every element and every object URL
    created since the counters stood at [n0] and [b0]: an element is out
    of the document or belongs to a handle, a URL is revoked or is the
    href of the link of a handle. *)
Definition live_inv (n0 b0 : nat) (hs : list Handle) (σ : state) : Prop :=
  dom_wf σ
  ∧ NoDup (h_el <$> hs)
  ∧ Forall (owns_attached σ) hs
  ∧ (∀ el, n0 ≤ el < next_node σ → detached σ el ∨ el ∈ h_el <$> hs)
  ∧ (∀ u, b0 ≤ u < length (blobs σ) →
       u ∈ revoked σ
       ∨ ∃ h, h ∈ hs ∧ is_link h = true ∧ href_of σ (h_el h) = Some u).

(** A descriptor with its entry and the handles of the entry, as one
    call of the entry point leaves them. *)
Definition tracked (σ : state) (t : Style * nat * list Handle) : Prop :=
  stylesInDom_get (cache σ) t.1.1 = Some t.1.2
  ∧ ∃ x, entries σ !! t.1.2 = Some x ∧ refs x = 1%Z ∧ parts x = t.2.

(** The same after the first loop of [update] has taken the reference
    away. *)
Definition staged (σ : state) (t : Style * nat * list Handle) : Prop :=
  ∃ x, entries σ !! t.1.2 = Some x ∧ refs x = 0%Z ∧ parts x = t.2.

Definition handles_of (L : list (Style * nat * list Handle)) : list Handle :=
  concat (L.*2).

Definition reg_inv (L : list (Style * nat * list Handle)) (σ : state)
    : Prop :=
  registry_fresh σ ∧ Forall (tracked σ) L ∧ NoDup (L.*1.*2).

(** The invariant of a session: [LL] lists, per closure that has not
    been called yet, what that closure tracks. *)
Definition session_inv (env : Env) (n0 b0 : nat)
    (LL : list (list (Style * nat * list Handle))) (σ : state) : Prop :=
  isOldIE_memo_wf env σ
  ∧ reg_inv (concat LL) σ
  ∧ live_inv n0 b0 (handles_of (concat LL)) σ.

(** A single consumer of module 1 in the current browser, and its
    closure called with the same list again. *)
Definition red_installed : outcome Closure :=
  install modern_env [red_item] None sample_state.

Definition red_closure : Closure :=
  default (mkClosure [] (options_at "bottom" false)) (value_of red_installed).

Definition red_updated : outcome unit :=
  update modern_env red_closure (Some [red_item]) (state_of red_installed).

(** Module 1 with two parts, in the old browser (singleton mode) and in
    the current one, and the same descriptor object with one part left. *)
Definition two_parts_singleton : outcome Closure :=
  install legacy_env [red_item; blue_item] None sample_state.

Definition two_parts_own : outcome Closure :=
  install modern_env [red_item; blue_item] None sample_state.



(** Two consumers of module 1, and one consumer in singleton mode. *)
Definition two_consumers : list (list Item * option RawOptions) :=
  [([red_item; mapped_item], None); ([red_item], None)].

Definition singleton_consumer : list (list Item * option RawOptions) :=
  [([red_item], Some (raw_options_at "bottom" true))].

(** ** Further notions: the registry, the grouping and the memo *)

(** Each bucket of the registry holds at most one pair per descriptor
    object. *)
Definition one_pair_per_descriptor (cache : gmap Z (list (nat * nat)))
    : Prop :=
  ∀ i bucket, cache !! i = Some bucket → NoDup bucket.*1.

(** The input list as pairs of id and part, and the descriptors spelled
    out the same way. *)
Definition tuples (items : list Item) : list (Z * Part) :=
  (λ it, (item_id it, part_of_item it)) <$> items.

Definition flatten (styles : list Style) : list (Z * Part) :=
  s ← styles; (λ p, (s_id s, p)) <$> s_parts s.

(** The input tuple that gives a part of a module. *)
Definition item_of (t : Z * Part) : Item :=
  {| item_id := t.1; item_css := css t.2; item_media := media t.2;
     item_sourceMap := sourceMap t.2 |}.

(** The tuples of one group of parts. *)
Definition group_items (g : Z * list Part) : list Item :=
  (λ p, item_of (g.1, p)) <$> g.2.

(** [memoize(fn)]: the returned function keeps one memo for all its
    inputs and calls [fn] while the memo is [undefined] ([None]). The
    result is the value returned and the memo afterwards. *)
Definition memoize {I O} (fn : I → option O) (memo : option O) (input : I)
    : option O * option O :=
  match memo with
  | None => let r := fn input in (r, r)
  | Some v => (Some v, Some v)
  end.

(** The values successive calls of the memoized function return. *)
Fixpoint memoize_calls {I O} (fn : I → option O) (memo : option O)
    (inputs : list I) : list (option O) :=
  match inputs with
  | [] => []
  | input :: rest =>
      let r := memoize fn memo input in
      r.1 :: memoize_calls fn r.2 rest
  end.

(** [element.getAttribute(k)]; [None] is [null]. *)
Definition getAttribute (σ : state) (el : node) (k : string)
    : option string :=
  e ← nodes σ !! el; head (snd <$> filter (λ kv, kv.1 = k) (attributes e)).



(** What a call that threw has left alone: the document, the registry,
    the shared element and the object URLs. *)
Definition untouched (σ σ' : state) : Prop :=
  children σ' = children σ ∧ parent σ' = parent σ
  ∧ styleElementsInsertedAtTop σ' = styleElementsInsertedAtTop σ
  ∧ cache σ' = cache σ ∧ entries σ' = entries σ
  ∧ singletonElement σ' = singletonElement σ
  ∧ blobs σ' = blobs σ ∧ revoked σ' = revoked σ.




(** ** Further sample inputs *)

Definition print_part : Part := mkPart "a{}" "print" None.
Definition plain_part : Part := mkPart "b{}" EmptyString None.
Definition mapped_part : Part := part_of_item mapped_item.

(** The sample document with one new style element, not yet inserted. *)
Definition style_created : state :=
  state_of (createElement StyleTag sample_state).


(** Modules 1 and 2 interleaved; module 2 comes with a source map. *)
Definition three_items : list Item := [red_item; mapped_item; blue_item].

Definition three_installed : outcome Closure :=
  install modern_env three_items None sample_state.

Definition three_closure : Closure :=
  default (mkClosure [] (options_at "bottom" false))
    (value_of three_installed).

(** The sample session after a part could not be added in singleton
    mode because [insertAt] was invalid. *)
Definition failed_singleton : state :=
  state_of (addStyle modern_env red_part (options_at "middle" true)
              sample_state).

(** Two descriptor objects of module 7. *)
Definition first_seven : Style := {| s_ref := 0; s_id := 7; s_parts := [] |}.
Definition second_seven : Style := {| s_ref := 1; s_id := 7; s_parts := [] |}.

(** A function that is [undefined] below 2. *)
Definition from_two (n : nat) : option nat :=
  if decide (n < 2) then None else Some (10 * n).

(** ** The id-keyed version of the module

    The earlier version that is kept in the same file has a plain
    object [stylesInDom] from module id to entry, read and written as
    [stylesInDom[item.id]]; descriptor objects are not compared there.
    Its other functions are the ones above. *)

(** Two states show the same document and the same module variables
    beside the registry, its entries and the objects of the options. *)
Definition same_document (σ σ' : state) : Prop :=
  nodes σ' = nodes σ ∧ children σ' = children σ ∧ parent σ' = parent σ
  ∧ next_node σ' = next_node σ
  ∧ styleElementsInsertedAtTop σ' = styleElementsInsertedAtTop σ
  ∧ singletonElement σ' = singletonElement σ
  ∧ singletonCounter σ' = singletonCounter σ
  ∧ textStore σ' = textStore σ
  ∧ memo σ' = memo σ
  ∧ blobs σ' = blobs σ ∧ revoked σ' = revoked σ.

Module ById.

(** The registry of this version beside the rest of the module's
    state, of which the field [cache] is not used here. *)
Record session := mkSession {
  stylesInDom : gmap Z nat;
  vars : state
}.

Inductive result (A : Type) :=
  | Done (a : A) (s : session)
  | Raised (e : error) (s : session).
Arguments Done {A} a s.
Arguments Raised {A} e s.

Definition MS (A : Type) : Type := session → result A.

#[global] Instance MS_ret : MRet MS := λ A a s, Done a s.

#[global] Instance MS_bind : MBind MS := λ A B f m s,
  match m s with
  | Done a s' => f a s'
  | Raised e s' => Raised e s'
  end.

(** A computation that does not touch the registry. *)
Definition lift {A} (m : M A) : MS A := λ s,
  match m (vars s) with
  | Return a σ => Done a {| stylesInDom := stylesInDom s; vars := σ |}
  | Throw e σ => Raised e {| stylesInDom := stylesInDom s; vars := σ |}
  end.

(** [stylesInDom[id]], [stylesInDom[id] = e] and
    [delete stylesInDom[id]]. *)
Definition lookup_style (id : Z) : MS (option nat) := λ s,
  Done (stylesInDom s !! id) s.

Definition store_style (id : Z) (e : nat) : MS unit := λ s,
  Done tt {| stylesInDom := <[id := e]> (stylesInDom s); vars := vars s |}.

Definition delete_style (id : Z) : MS unit := λ s,
  Done tt {| stylesInDom := delete id (stylesInDom s); vars := vars s |}.

Fixpoint forS {A} (f : A → MS unit) (l : list A) : MS unit :=
  match l with
  | [] => mret tt
  | x :: l' => f x ;; forS f l'
  end.

Fixpoint mapS {A B} (f : A → MS B) (l : list A) : MS (list B) :=
  match l with
  | [] => mret []
  | x :: l' => y ← f x; ys ← mapS f l'; mret (y :: ys)
  end.

Section Model.
Context (env : Env).

Definition addStylesToDom_one (options : Options) (item : Style)
    : MS unit :=
  domStyle ← lookup_style (s_id item);
  match domStyle with
  | Some e =>
      lift (modify (upd_entry e (λ d, set_refs (refs d + 1) d));;
            n ← gets (λ σ, length (entry_parts σ e));
            forM (λ j, invoke_part env e j (s_parts item !! j)) (seq 0 n);;
            forM (λ p, h ← addStyle env p options; push_handle e h)
              (drop n (s_parts item)))
  | None =>
      handles ← lift (mapM' (λ p, addStyle env p options) (s_parts item));
      e ← lift alloc_ref;
      lift (modify (λ σ,
        with_entries
          (<[e := {| dom_id := s_id item; refs := 1; parts := handles |}]>
             (entries σ)) σ));;
      store_style (s_id item) e
  end.

Definition addStylesToDom (styles : list Style) (options : Options)
    : MS unit :=
  forS (addStylesToDom_one options) styles.

Definition install (items : list Item) (options : option RawOptions)
    : MS Closure :=
  let raw := default default_options options in
  a ← lift (match raw_attrs raw with
            | Some a => mret a
            | None =>
                a ← alloc_ref;
                modify (λ σ, with_attrsObjs (<[a := []]> (attrsObjs σ)) σ);;
                mret a
            end);
  s ← lift (match raw_singleton raw with
            | Some b => mret b
            | None => isOldIE env
            end);
  let options' :=
    {| convertToAbsoluteUrls := raw_convertToAbsoluteUrls raw;
       singleton := s; attrs := a;
       insertInto := default "head" (raw_insertInto raw);
       insertAt := default "bottom" (raw_insertAt raw) |} in
  styles ← lift (new_styles items);
  addStylesToDom styles options';;
  mret {| cl_styles := styles; cl_options := options' |}.

Definition stage_removal (item : Style) : MS nat :=
  domStyle ← lookup_style (s_id item);
  match domStyle with
  | None => λ s, Raised TypeError s
  | Some e =>
      lift (modify (upd_entry e (λ d, set_refs (refs d - 1) d)));; mret e
  end.

Definition remove_if_unreferenced (e : nat) : MS unit :=
  r ← lift (gets (λ σ, refs <$> entries σ !! e));
  if decide (r = Some 0%Z) then
    lift (n ← gets (λ σ, length (entry_parts σ e));
          forM (λ j, invoke_part env e j None) (seq 0 n));;
    id ← lift (gets (λ σ, dom_id <$> entries σ !! e));
    match id with
    | Some i => delete_style i
    | None => mret tt
    end
  else mret tt.

(** The closure [update] of this version. *)
Definition update (c : Closure) (newList : option (list Item)) : MS unit :=
  mayRemove ← mapS stage_removal (cl_styles c);
  match newList with
  | Some items =>
      newStyles ← lift (new_styles items);
      addStylesToDom newStyles (cl_options c)
  | None => mret tt
  end;;
  forS remove_if_unreferenced mayRemove.

End Model.

(** A session of this version that starts in the state [σ]. *)
Definition start (σ : state) : session :=
  {| stylesInDom := ∅; vars := σ |}.

Definition session_of {A} (r : result A) : session :=
  match r with
  | Done _ s => s
  | Raised _ s => s
  end.

Definition returned {A} (r : result A) : option A :=
  match r with
  | Done a _ => Some a
  | Raised _ _ => None
  end.

(** The registry has the entry [e] under the id of [g], and the handles
    of the entry hold the parts of [g], one each and in order. *)
Definition held_at (s : session) (g : Z * list Part) (e : nat) : Prop :=
  stylesInDom s !! g.1 = Some e
  ∧ ∃ x, entries (vars s) !! e = Some x ∧ h_obj <$> parts x = g.2.

(** The module [g], an id with its parts, is applied: the registry has
    an entry under the id, the entry is referenced, and its handles hold
    the parts of [g], one each and in order. *)
Definition applied (s : session) (g : Z * list Part) : Prop :=
  ∃ e x, stylesInDom s !! g.1 = Some e
         ∧ entries (vars s) !! e = Some x
         ∧ dom_id x = g.1 ∧ (0 < refs x)%Z
         ∧ h_obj <$> parts x = g.2.

(** [applied] as a test. *)
Definition is_applied (s : session) (g : Z * list Part) : bool :=
  match stylesInDom s !! g.1 with
  | Some e =>
      match entries (vars s) !! e with
      | Some x =>
          bool_decide (dom_id x = g.1) && bool_decide (0 < refs x)%Z
          && bool_decide (h_obj <$> parts x = g.2)
      | None => false
      end
  | None => false
  end.

(** The entry [e] keeps at index [j] a handle that owns its element,
    and the element is out of the document: the handle has been called
    for a removal and has stayed in the list of the entry. *)
Definition stale (σ : state) (e j : nat) : Prop :=
  ∃ x h, entries σ !! e = Some x ∧ parts x !! j = Some h
         ∧ is_singleton_slot h = false ∧ parent σ !! h_el h = None.

(** The same, where the handle has the part [p] as the part it shows. *)
Definition lost (σ : state) (e j : nat) (p : Part) : Prop :=
  ∃ x h, entries σ !! e = Some x ∧ parts x !! j = Some h
         ∧ is_singleton_slot h = false ∧ parent σ !! h_el h = None
         ∧ h_obj h = p.

End ById.

(** ** Sample sessions of the id-keyed version *)

(** Modules 1 and 2 installed in the sample document. *)
Definition byid_installed : ById.result Closure :=
  ById.install modern_env three_items None (ById.start sample_state).

Definition byid_closure : Closure :=
  default (mkClosure [] (options_at "bottom" false))
    (ById.returned byid_installed).

(** Module 1 installed with two parts, and then updated to one part. *)
Definition byid_two_parts : ById.result Closure :=
  ById.install modern_env [red_item; blue_item] None
    (ById.start sample_state).

Definition byid_two_closure : Closure :=
  default (mkClosure [] (options_at "bottom" false))
    (ById.returned byid_two_parts).

Definition byid_one_part : ById.result unit :=
  ById.update modern_env byid_two_closure (Some [red_item])
    (ById.session_of byid_two_parts).

Definition byid_restored : ById.result unit :=
  ById.update modern_env byid_two_closure (Some [red_item; blue_item])
    (ById.session_of byid_one_part).

(** * Properties *)

(** ** Stepping through a computation *)

Lemma bind_eq {A B} (m : M A) (f : A → M B) σ :
  (m ≫= f) σ = match m σ with
               | Return a σ' => f a σ'
               | Throw e σ' => Throw e σ'
               end.
Proof. reflexivity. Qed.

Lemma ret_eq {A} (a : A) σ : (mret a : M A) σ = Return a σ.
Proof. reflexivity. Qed.

Lemma bind_Return {A B} (m : M A) (k : A → M B) σ b σ'' :
  (m ≫= k) σ = Return b σ'' →
  ∃ a σ', m σ = Return a σ' ∧ k a σ' = Return b σ''.
Proof.
  rewrite bind_eq. destruct (m σ) as [a σ'|e σ']; [|done]. eauto.
Qed.

Lemma bind_Throw {A B} (m : M A) (k : A → M B) σ e σ'' :
  (m ≫= k) σ = Throw e σ'' →
  m σ = Throw e σ'' ∨ ∃ a σ', m σ = Return a σ' ∧ k a σ' = Throw e σ''.
Proof.
  rewrite bind_eq. destruct (m σ) as [a σ'|e' σ']; [eauto|].
  intros [= -> ->]. by left.
Qed.

Lemma preserves_Return {A B} (m : M A) (f : state → B) σ a σ' :
  preserves m f → m σ = Return a σ' → f σ' = f σ.
Proof. intros Hm Hr. specialize (Hm σ). by rewrite Hr in Hm. Qed.

Lemma modify_eq g σ : modify g σ = Return tt (g σ).
Proof. reflexivity. Qed.

Lemma gets_eq {A} (g : state → A) σ : gets g σ = Return (g σ) σ.
Proof. reflexivity. Qed.

Lemma throw_eq {A} e σ : (throw e : M A) σ = Throw e σ.
Proof. reflexivity. Qed.

Lemma mapM'_cons {A B} (f : A → M B) x l σ :
  mapM' f (x :: l) σ = (y ← f x; ys ← mapM' f l; mret (y :: ys)) σ.
Proof. reflexivity. Qed.

(** Run the computation in the goal up to the first call that is not a
    primitive of the monad. *)
Ltac mstep :=
  repeat (first [ rewrite bind_eq | rewrite ret_eq | rewrite modify_eq
                | rewrite gets_eq | rewrite throw_eq ];
          cbn beta iota zeta).


(** ** Grouping the input list *)

Lemma first_seen_elem (l : list Z) x : x ∈ first_seen l ↔ x ∈ l.
Proof.
  induction l as [|y l IH]; simpl; [done|].
  rewrite !elem_of_cons, list_elem_of_filter, IH.
  destruct (decide (x = y)); tauto.
Qed.

Lemma first_seen_NoDup (l : list Z) : NoDup (first_seen l).
Proof.
  induction l as [|y l IH]; simpl; [constructor|].
  constructor.
  - rewrite list_elem_of_filter. intros [Hne _]. by apply Hne.
  - by apply NoDup_filter.
Qed.

Lemma first_seen_snoc (l : list Z) x :
  first_seen (l ++ [x]) =
  if decide (x ∈ l) then first_seen l else first_seen l ++ [x].
Proof.
  induction l as [|y l IH]; simpl; [done|].
  rewrite IH. destruct (decide (x ∈ l)) as [Hin|Hin].
  - rewrite decide_True; [done|]. by right.
  - destruct (decide (x = y)) as [->|Hne].
    + rewrite decide_True by left.
      rewrite filter_app, filter_cons, filter_nil.
      rewrite decide_False by (intros H; by apply H).
      by rewrite app_nil_r.
    + rewrite decide_False by (rewrite elem_of_cons; tauto).
      rewrite filter_app, filter_cons, filter_nil.
      by rewrite decide_True by done.
Qed.

Lemma parts_for_snoc i (l : list Item) it :
  parts_for i (l ++ [it]) =
  parts_for i l ++ (if decide (item_id it = i) then [part_of_item it] else []).
Proof.
  unfold parts_for. rewrite filter_app, fmap_app. f_equal.
  simpl. rewrite filter_cons, filter_nil. by destruct (decide _).
Qed.

Lemma parts_for_absent i (l : list Item) :
  i ∉ item_id <$> l → parts_for i l = [].
Proof.
  intros Hi. unfold parts_for.
  induction l as [|it l IH]; simpl; [done|].
  rewrite fmap_cons, not_elem_of_cons in Hi. destruct Hi as [Hne Hi].
  rewrite filter_cons, decide_False by done. by apply IH.
Qed.

Lemma grouped_ids items : (fst <$> grouped items) = first_seen (item_id <$> items).
Proof.
  unfold grouped. rewrite <- list_fmap_compose.
  rewrite (list_fmap_ext _ id (first_seen (item_id <$> items)));
    [by rewrite list_fmap_id|done].
Qed.

Lemma loop_inv_ids items acc :
  loop_inv items acc → s_id <$> acc.1 = first_seen (item_id <$> items).
Proof.
  intros (Hv & _ & _). rewrite <- grouped_ids, <- Hv, <- list_fmap_compose. done.
Qed.

Lemma loop_inv_step base items acc it :
  loop_inv items acc → loop_inv (items ++ [it]) (listToStyles_step base acc it).
Proof.
  intros Hinv. pose proof (loop_inv_ids _ _ Hinv) as Hids.
  destruct Hinv as (Hv & Hsome & Hnone).
  destruct acc as [res ns]. simpl in *.
  unfold listToStyles_step. simpl.
  destruct (ns !! item_id it) as [k|] eqn:Hk; simpl.
  - (* the id is known: its descriptor gets one more part *)
    pose proof (Hsome _ _ Hk) as Hidk.
    assert (Hin : item_id it ∈ item_id <$> items).
    { apply first_seen_elem. rewrite <- Hids. by eapply list_elem_of_lookup_2. }
    split; [|split].
    + unfold grouped. rewrite fmap_app. simpl. rewrite first_seen_snoc.
      rewrite decide_True by done.
      apply list_eq. intros j.
      rewrite !list_lookup_fmap.
      destruct (decide (j = k)) as [->|Hjk].
      * rewrite list_lookup_alter.
        rewrite list_lookup_fmap in Hidk.
        rewrite <- Hids, list_lookup_fmap.
        destruct (res !! k) as [s|] eqn:Hs; simpl in *; [|done].
        injection Hidk as Hidk.
        assert (Hvs : (view <$> res) !! k = Some (view s))
          by (by rewrite list_lookup_fmap, Hs).
        rewrite Hv in Hvs. unfold grouped in Hvs.
        rewrite list_lookup_fmap in Hvs.
        destruct (first_seen (item_id <$> items) !! k) as [i|] eqn:Hi;
          simpl in Hvs; [|done].
        injection Hvs as Hi1 Hp. unfold view. simpl.
        rewrite Hidk in Hi1. subst i.
        rewrite decide_True by done. rewrite Hidk, parts_for_snoc, Hp.
        rewrite decide_True by done. simpl. by rewrite Hidk.
      * rewrite list_lookup_alter_ne by done.
        assert (Hvs : (view <$> res) !! j = grouped items !! j).
        { by rewrite Hv. }
        rewrite list_lookup_fmap in Hvs. rewrite Hvs.
        unfold grouped. rewrite list_lookup_fmap.
        destruct (first_seen (item_id <$> items) !! j) as [i|] eqn:Hi;
          simpl; [|done].
        rewrite parts_for_snoc, decide_False, app_nil_r; [done|].
        intros <-. apply Hjk.
        eapply NoDup_lookup; [apply first_seen_NoDup|exact Hi|].
        by rewrite <- Hids.
    + intros i k' Hik. simpl in *.
      specialize (Hsome _ _ Hik).
      rewrite list_lookup_fmap in Hsome |- *.
      destruct (decide (k' = k)) as [->|Hne].
      * rewrite list_lookup_alter, decide_True by done.
        destruct (res !! k); simpl in *; done.
      * by rewrite list_lookup_alter_ne.
    + intros i Hi. simpl in *.
      rewrite fmap_app, not_elem_of_app. split; [by apply Hnone|].
      simpl. rewrite list_elem_of_singleton. intros ->. congruence.
  - (* a new id: a descriptor is appended *)
    pose proof (Hnone _ Hk) as Hnew.
    split; [|split].
    + unfold grouped. rewrite !fmap_app. simpl. rewrite first_seen_snoc.
      rewrite decide_False by done. rewrite fmap_app. simpl.
      rewrite (fmap_app _ (first_seen _)). simpl.
      rewrite parts_for_snoc, decide_True, parts_for_absent by done.
      rewrite Hv. unfold grouped. f_equal.
      apply list_fmap_ext. intros j i Hi. simpl.
      rewrite parts_for_snoc, decide_False, app_nil_r; [done|].
      intros <-. apply Hnew, first_seen_elem. by eapply list_elem_of_lookup_2.
    + intros i k. simpl. rewrite fmap_app. simpl.
      destruct (decide (i = item_id it)) as [->|Hne].
      * rewrite lookup_insert_eq. intros [= <-].
        rewrite lookup_app_r; rewrite length_fmap; [|lia].
        by rewrite Nat.sub_diag.
      * rewrite lookup_insert_ne by done. intros Hik.
        apply lookup_app_l_Some. by apply Hsome.
    + intros i. simpl. rewrite fmap_app, not_elem_of_app. simpl.
      destruct (decide (i = item_id it)) as [->|Hne].
      * by rewrite lookup_insert_eq.
      * rewrite lookup_insert_ne by done. intros Hi. split; [by apply Hnone|].
        rewrite list_elem_of_singleton. done.
Qed.

Lemma listToStyles_loop_inv base items :
  loop_inv items (listToStyles_loop base items).
Proof.
  unfold listToStyles_loop.
  induction items as [|it items IH] using rev_ind.
  - split; [done|]. split; simpl.
    + intros i k. by rewrite lookup_empty.
    + intros i _. apply not_elem_of_nil.
  - rewrite foldl_app. simpl. by apply loop_inv_step.
Qed.

(** C5: for every input list, [listToStyles] yields one descriptor per
    distinct id, in the order in which the ids are first seen, and the
    parts of each descriptor are the parts of the tuples with that id, in
    input order; so tuples sharing an id are merged into a single
    descriptor whose parts are their concatenation. *)
Theorem listToStyles_groups base items :
  (λ s, (s_id s, s_parts s)) <$> listToStyles base items
  = (λ i, (i, parts_for i items)) <$> first_seen (item_id <$> items)
  ∧ NoDup (s_id <$> listToStyles base items).
Proof.
  pose proof (listToStyles_loop_inv base items) as Hinv.
  split.
  - apply Hinv.
  - unfold listToStyles. rewrite (loop_inv_ids _ _ Hinv). apply first_seen_NoDup.
Qed.


(** ** The registry *)

Section Registry.
Implicit Types (cache : gmap Z (list (nat * nat))) (d : Style) (e r : nat).

Lemma replace_first_hit r e (l l' : list (nat * nat)) :
  replace_first r e l = Some l' →
  head (snd <$> filter (λ s, s.1 = r) l') = Some e.
Proof.
  revert l'. induction l as [|s l IH]; intros l'; simpl; [done|].
  destruct (decide (s.1 = r)) as [Hs|Hs].
  - intros [= <-]. by rewrite filter_cons, decide_True.
  - destruct (replace_first r e l) as [l0|]; simpl; [|done].
    intros [= <-]. rewrite filter_cons, decide_False by done. by apply IH.
Qed.

Lemma replace_first_miss r e (l : list (nat * nat)) :
  replace_first r e l = None → filter (λ s, s.1 = r) l = [].
Proof.
  induction l as [|s l IH]; simpl; [done|].
  destruct (decide (s.1 = r)) as [Hs|Hs]; [done|].
  destruct (replace_first r e l); simpl; [done|].
  intros _. rewrite filter_cons, decide_False by done. by apply IH.
Qed.

Lemma replace_first_other r r' e (l l' : list (nat * nat)) :
  r' ≠ r → replace_first r e l = Some l' →
  filter (λ s, s.1 = r') l' = filter (λ s, s.1 = r') l.
Proof.
  intros Hne. revert l'. induction l as [|s l IH]; intros l'; simpl; [done|].
  destruct (decide (s.1 = r)) as [Hs|Hs].
  - intros [= <-]. rewrite !filter_cons. simpl.
    rewrite !decide_False by congruence. done.
  - destruct (replace_first r e l) as [l0|]; simpl; [|done].
    intros [= <-]. rewrite !filter_cons. rewrite (IH l0) by done. done.
Qed.

(** A lookup right after [set] gives the entry that was set. *)
Lemma get_set_eq cache d e :
  stylesInDom_get (stylesInDom_set cache d e) d = Some e.
Proof.
  unfold stylesInDom_get, stylesInDom_set.
  destruct (cache !! s_id d) as [existing|] eqn:Hc.
  - destruct (replace_first (s_ref d) e existing) as [l'|] eqn:Hr;
      rewrite lookup_insert_eq.
    + by eapply replace_first_hit.
    + rewrite filter_app, (replace_first_miss _ _ _ Hr).
      rewrite filter_cons, decide_True by done. done.
  - rewrite lookup_insert_eq. rewrite filter_cons, decide_True by done. done.
Qed.

(** [set] for one descriptor object leaves the lookup of every other
    descriptor object as it was, whatever their ids. *)
Lemma get_set_ne cache d d' e :
  s_ref d' ≠ s_ref d →
  stylesInDom_get (stylesInDom_set cache d e) d' = stylesInDom_get cache d'.
Proof.
  intros Hne. unfold stylesInDom_get, stylesInDom_set.
  destruct (decide (s_id d' = s_id d)) as [Hid|Hid].
  - rewrite Hid.
    destruct (cache !! s_id d) as [existing|] eqn:Hc.
    + destruct (replace_first (s_ref d) e existing) as [l'|] eqn:Hr;
        rewrite lookup_insert_eq.
      * by rewrite (replace_first_other _ _ _ _ _ Hne Hr).
      * rewrite filter_app, filter_cons, decide_False by (simpl; congruence).
        by rewrite filter_nil, app_nil_r.
    + rewrite lookup_insert_eq, filter_cons, decide_False by (simpl; congruence).
      done.
  - destruct (cache !! s_id d) as [existing|] eqn:Hc.
    + destruct (replace_first (s_ref d) e existing);
        by rewrite lookup_insert_ne.
    + by rewrite lookup_insert_ne.
Qed.

(** [delete] of one entry leaves the lookups that give another entry. *)
Lemma get_delete_other cache d e e' i :
  stylesInDom_get cache d = Some e' → e' ≠ e →
  stylesInDom_get (stylesInDom_delete cache i e) d = Some e'.
Proof.
  intros Hget Hne. unfold stylesInDom_delete.
  destruct (decide (i = s_id d)) as [->|Hi].
  - unfold stylesInDom_get in Hget |- *.
    destruct (cache !! s_id d) as [existing|] eqn:Hc; [|done].
    destruct (filter (λ s, s.2 ≠ e) existing) as [|s l] eqn:Hf.
    + exfalso.
      destruct (filter (λ s, s.1 = s_ref d) existing) as [|[r1 e1] l1] eqn:Hg;
        [done|]. simpl in Hget. injection Hget as ->.
      assert (Hin : (r1, e') ∈ filter (λ s, s.1 = s_ref d) existing)
        by (rewrite Hg; left).
      apply list_elem_of_filter in Hin as [_ Hin].
      assert (Hin' : (r1, e') ∈ filter (λ s, s.2 ≠ e) existing)
        by (apply list_elem_of_filter; done).
      rewrite Hf in Hin'. by apply elem_of_nil in Hin'.
    + by rewrite Hc.
  - assert (Hd : stylesInDom_get (delete i cache) d = Some e').
    { unfold stylesInDom_get in *. by rewrite lookup_delete_ne. }
    destruct (cache !! i) as [existing|]; [|done].
    by destruct (filter (λ s, s.2 ≠ e) existing).
Qed.

End Registry.

Lemma evict_entries e σ : entries (state_of (evict e σ)) = entries σ.
Proof. unfold evict, modify. simpl. by destruct (entries σ !! e). Qed.

Lemma evict_get_other e σ d e' :
  stylesInDom_get (cache σ) d = Some e' → e' ≠ e →
  stylesInDom_get (cache (state_of (evict e σ))) d = Some e'.
Proof.
  intros Hget Hne. unfold evict, modify. simpl.
  destruct (entries σ !! e); [|done]. simpl. by apply get_delete_other.
Qed.

(** C3: two distinct descriptor objects with the same module id, each
    registered with its own entry, are looked up to their own entries;
    deleting either entry from the registry, directly or as the last
    step of a removal, leaves the lookup of the other descriptor and the
    stored entries as they were. *)
Theorem id_colliding_entries_stay_apart (σ : state) (d1 d2 : Style)
    (e1 e2 : nat) :
  s_ref d1 ≠ s_ref d2 → s_id d1 = s_id d2 → e1 ≠ e2 →
  let registered :=
    with_cache (stylesInDom_set (stylesInDom_set (cache σ) d1 e1) d2 e2) σ in
  stylesInDom_get (cache registered) d1 = Some e1
  ∧ stylesInDom_get (cache registered) d2 = Some e2
  ∧ stylesInDom_get
      (stylesInDom_delete (cache registered) (s_id d1) e1) d2 = Some e2
  ∧ stylesInDom_get
      (stylesInDom_delete (cache registered) (s_id d2) e2) d1 = Some e1
  ∧ (let σ' := state_of (evict e1 registered) in
     stylesInDom_get (cache σ') d2 = Some e2 ∧ entries σ' = entries σ)
  ∧ (let σ' := state_of (evict e2 registered) in
     stylesInDom_get (cache σ') d1 = Some e1 ∧ entries σ' = entries σ).
Proof.
  intros Href Hid He registered.
  assert (H1 : stylesInDom_get (cache registered) d1 = Some e1).
  { subst registered. simpl. rewrite get_set_ne by done. apply get_set_eq. }
  assert (H2 : stylesInDom_get (cache registered) d2 = Some e2).
  { subst registered. simpl. apply get_set_eq. }
  repeat split; try done.
  - by apply get_delete_other.
  - by apply get_delete_other.
  - by apply evict_get_other.
  - by rewrite evict_entries.
  - by apply evict_get_other.
  - by rewrite evict_entries.
Qed.


(** ** Inserting elements *)

Lemma getElement_eq env sel σ :
  getElement env sel σ = Return (target_of env σ sel) (memoized env sel σ).
Proof.
  unfold memoized, getElement, target_of. by destruct (memo σ !! sel).
Qed.

Lemma target_of_memoized env sel σ :
  target_of env (memoized env sel σ) sel = target_of env σ sel.
Proof.
  unfold memoized, getElement, target_of.
  destruct (memo σ !! sel) eqn:Hm; simpl; [by rewrite Hm|].
  by rewrite lookup_insert_eq.
Qed.

Ltac memo_frame :=
  intros; unfold memoized, getElement;
  match goal with |- context [memo ?σ !! ?sel] => by destruct (memo σ !! sel) end.

Lemma children_memoized env sel σ : children (memoized env sel σ) = children σ.
Proof. memo_frame. Qed.
Lemma parent_memoized env sel σ : parent (memoized env sel σ) = parent σ.
Proof. memo_frame. Qed.
Lemma top_memoized env sel σ :
  styleElementsInsertedAtTop (memoized env sel σ) = styleElementsInsertedAtTop σ.
Proof. memo_frame. Qed.

Lemma children_of_memoized env sel σ t :
  children_of (memoized env sel σ) t = children_of σ t.
Proof. unfold children_of. by rewrite children_memoized. Qed.

Lemma detach_absent el σ : parent σ !! el = None → detach el σ = σ.
Proof. intros H. unfold detach. by rewrite H. Qed.

(** The first top insertion of a session puts the element in front of
    the target's children. *)
Lemma insert_top_first env options σ el t :
  insertAt options = "top" →
  styleElementsInsertedAtTop σ = [] →
  target_of env σ (insertInto options) = Some t →
  parent σ !! el = None →
  let σm := memoized env (insertInto options) σ in
  insertStyleElement env options el σ
  = Return tt
      (with_styleElementsInsertedAtTop [el]
         (with_parent (<[el := t]> (parent σ))
            (with_children (<[t := el :: children_of σ t]> (children σ)) σm))).
Proof.
  intros Htop Hnil Htgt Hel σm.
  assert (Hel' : parent σm !! el = None) by (subst σm; by rewrite parent_memoized).
  unfold insertStyleElement.
  rewrite bind_eq, getElement_eq, Htgt. fold σm.
  unfold gets, modify. rewrite bind_eq.
  subst σm. rewrite top_memoized, Hnil. simpl.
  rewrite decide_True by done.
  rewrite !bind_eq. unfold firstChild. rewrite children_of_memoized.
  unfold insertBefore, appendChild, modify.
  destruct (children_of σ t) as [|k kids] eqn:Hk; simpl.
  - rewrite detach_absent by done. rewrite children_of_memoized, Hk.
    rewrite top_memoized, Hnil, children_memoized, parent_memoized. done.
  - rewrite children_of_memoized, Hk. rewrite decide_True by left.
    rewrite detach_absent by done. rewrite children_of_memoized, Hk.
    simpl. rewrite decide_True by done.
    rewrite top_memoized, Hnil, children_memoized, parent_memoized. done.
Qed.

Lemma next_after_elem el l s : next_after el l = Some s → s ∈ l.
Proof.
  induction l as [|c l IH]; simpl; [done|].
  destruct (decide (c = el)).
  - destruct l; simpl; [done|]. intros [= ->]. right. left.
  - intros H. right. by apply IH.
Qed.

(** A later top insertion puts the element right behind the element
    that was inserted at the top last, when that one is still a child
    of the target. *)
Lemma insert_top_after env options σ el lastEl t :
  insertAt options = "top" →
  last (styleElementsInsertedAtTop σ) = Some lastEl →
  target_of env σ (insertInto options) = Some t →
  parent σ !! lastEl = Some t →
  parent σ !! el = None →
  let σm := memoized env (insertInto options) σ in
  insertStyleElement env options el σ
  = Return tt
      (with_styleElementsInsertedAtTop (styleElementsInsertedAtTop σ ++ [el])
         (with_parent (<[el := t]> (parent σ))
            (with_children
               (<[t := placed_after lastEl el (children_of σ t)]> (children σ))
               σm))).
Proof.
  intros Htop Hlast Htgt Hpl Hel σm.
  unfold insertStyleElement.
  rewrite bind_eq, getElement_eq, Htgt. fold σm.
  unfold gets, modify. rewrite bind_eq.
  subst σm. rewrite top_memoized, Hlast. simpl.
  rewrite decide_True by done.
  rewrite !bind_eq. unfold nextSibling. rewrite parent_memoized, Hpl.
  rewrite children_of_memoized. unfold placed_after.
  destruct (next_after lastEl (children_of σ t)) as [s|] eqn:Hs.
  - unfold insertBefore. rewrite children_of_memoized.
    rewrite decide_True by (by eapply next_after_elem).
    rewrite detach_absent by (by rewrite parent_memoized).
    rewrite children_of_memoized. simpl.
    by rewrite top_memoized, children_memoized, parent_memoized.
  - unfold appendChild, modify.
    rewrite detach_absent by (by rewrite parent_memoized).
    rewrite children_of_memoized. simpl.
    by rewrite top_memoized, children_memoized, parent_memoized.
Qed.

(** C1 (as the code has it): in a session with no top insertion yet,
    inserting A and then B at the top of the same resolved target gives the
    document order A, B, then the original children of the target: the
    later element follows the earlier one. *)
Theorem top_insertion_keeps_arrival_order env options σ A B target :
  insertAt options = "top" →
  styleElementsInsertedAtTop σ = [] →
  target_of env σ (insertInto options) = Some target →
  parent σ !! A = None → parent σ !! B = None → A ≠ B →
  A ∉ children_of σ target →
  ∃ σ',
    (insertStyleElement env options A ;; insertStyleElement env options B) σ
    = Return tt σ'
    ∧ children_of σ' target = A :: B :: children_of σ target
    ∧ styleElementsInsertedAtTop σ' = [A; B].
Proof.
  intros Htop Hnil Htgt HA HB Hne HAt.
  rewrite bind_eq, (insert_top_first _ _ _ _ target) by done.
  set (σ1 := with_styleElementsInsertedAtTop _ _).
  assert (Hk1 : children_of σ1 target = A :: children_of σ target).
  { unfold children_of at 1. simpl. by rewrite lookup_insert_eq. }
  assert (Ht1 : target_of env σ1 (insertInto options) = Some target).
  { unfold target_of in *. simpl.
    change (memo (memoized env (insertInto options) σ))
      with (memo (state_of (getElement env (insertInto options) σ))).
    unfold getElement. destruct (memo σ !! insertInto options) eqn:Hm; simpl.
    - by rewrite Hm.
    - by rewrite lookup_insert_eq. }
  rewrite (insert_top_after _ _ _ _ A target); try done.
  - eexists. split; [done|]. split; [|done].
    unfold children_of at 1. simpl. rewrite lookup_insert_eq.
    rewrite Hk1. unfold placed_after. simpl. rewrite decide_True by done.
    destruct (children_of σ target) as [|c rest] eqn:Hk; simpl; [done|].
    rewrite decide_False; [by rewrite decide_True|].
    intros ->. apply HAt. left.
  - simpl. by rewrite lookup_insert_eq.
  - simpl. by rewrite lookup_insert_ne.
Qed.


(** ** What each function leaves untouched *)

Section Frame.
Context {B : Type} (f : state → B).

Lemma preserves_ret {A} (a : A) : preserves (mret a : M A) f.
Proof. by intros σ. Qed.

Lemma preserves_throw {A} e : preserves (throw e : M A) f.
Proof. by intros σ. Qed.

Lemma preserves_gets {A} (g : state → A) : preserves (gets g) f.
Proof. by intros σ. Qed.

Lemma preserves_modify g : (∀ σ, f (g σ) = f σ) → preserves (modify g) f.
Proof. intros H σ. apply H. Qed.

Lemma preserves_bind {A C} (m : M A) (k : A → M C) :
  preserves m f → (∀ a, preserves (k a) f) → preserves (m ≫= k) f.
Proof.
  intros Hm Hk σ. rewrite bind_eq. specialize (Hm σ).
  destruct (m σ) as [a σ'|e σ']; simpl in *; [|done].
  by rewrite (Hk a σ').
Qed.

Lemma preserves_forM {A} (g : A → M unit) l :
  (∀ x, preserves (g x) f) → preserves (forM g l) f.
Proof.
  intros Hg. induction l as [|x l IH]; simpl.
  - apply preserves_ret.
  - apply preserves_bind; [apply Hg|]. by intros _.
Qed.

Lemma preserves_mapM' {A C} (g : A → M C) l :
  (∀ x, preserves (g x) f) → preserves (mapM' g l) f.
Proof.
  intros Hg. induction l as [|x l IH]; simpl.
  - apply preserves_ret.
  - apply preserves_bind; [apply Hg|]. intros y.
    apply preserves_bind; [apply IH|]. intros ys. apply preserves_ret.
Qed.

End Frame.

Ltac use_ignores :=
  repeat match goal with
         | H : ignores _ ?f |- context [?f (_ _ _)] => rewrite !H
         end.

(** Structural steps of a frame proof; the leaves are closed by the
    lemmas in the hint database. *)
Ltac frame :=
  repeat first
    [ apply preserves_ret
    | apply preserves_throw
    | apply preserves_gets
    | apply preserves_bind; [|intros ?]
    | apply preserves_forM; intros ?
    | apply preserves_mapM'; intros ?
    | solve [eauto with frame]
    | apply preserves_modify; intros ?;
      unfold upd_node, upd_entry; use_ignores; reflexivity
    | match goal with
      | |- preserves (match ?x with _ => _ end) _ => destruct x
      end ].

Create HintDb frame.

Section Primitives.
Context (env : Env) {B : Type} (f : state → B).

Lemma detach_ignored el σ :
  ignores with_children f → ignores with_parent f → f (detach el σ) = f σ.
Proof.
  intros Hc Hp. unfold detach. destruct (parent σ !! el); [|done].
  by rewrite Hp, Hc.
Qed.

Lemma getElement_preserves sel :
  ignores with_memo f → preserves (getElement env sel) f.
Proof.
  intros H σ. unfold getElement. destruct (memo σ !! sel); simpl; [done|].
  apply H.
Qed.

Lemma isOldIE_preserves :
  ignores with_isOldIE_memo f → preserves (isOldIE env) f.
Proof.
  intros H σ. unfold isOldIE. destruct (isOldIE_memo σ); simpl; [done|].
  apply H.
Qed.

Lemma appendChild_preserves t el :
  ignores with_children f → ignores with_parent f →
  preserves (appendChild t el) f.
Proof.
  intros Hc Hp σ. unfold appendChild, modify. simpl.
  rewrite Hp, Hc. by apply detach_ignored.
Qed.

Lemma insertBefore_preserves t el r :
  ignores with_children f → ignores with_parent f →
  preserves (insertBefore t el r) f.
Proof.
  intros Hc Hp. destruct r as [r|]; [|by apply appendChild_preserves].
  intros σ. unfold insertBefore.
  destruct (decide (r ∈ children_of σ t)); simpl; [|done].
  rewrite Hp, Hc. by apply detach_ignored.
Qed.

Lemma createElement_preserves t :
  ignores with_nodes f → ignores with_next_node f →
  preserves (createElement t) f.
Proof. intros Hn Hx σ. unfold createElement. simpl. by rewrite Hx, Hn. Qed.

Lemma setAttribute_preserves el k v :
  ignores with_nodes f → preserves (setAttribute el k v) f.
Proof. intros Hn σ. unfold setAttribute, modify, upd_node. simpl. apply Hn. Qed.

Lemma set_attrs_prop_preserves a k v :
  ignores with_attrsObjs f → preserves (set_attrs_prop a k v) f.
Proof. intros Ha σ. unfold set_attrs_prop, modify. simpl. apply Ha. Qed.

Lemma attachTagAttrs_preserves el a :
  ignores with_nodes f → preserves (attachTagAttrs el a) f.
Proof.
  intros Hn σ. unfold attachTagAttrs.
  apply (preserves_forM f). intros kv. by apply setAttribute_preserves.
Qed.

Lemma replaceText_preserves index s :
  ignores with_textStore f → preserves (replaceText index s) f.
Proof. intros Ht σ. unfold replaceText. simpl. apply Ht. Qed.

Lemma updateLink_preserves el options obj :
  ignores with_blobs f → ignores with_nodes f → ignores with_revoked f →
  preserves (updateLink env el options obj) f.
Proof.
  intros Hb Hn Hr σ. unfold updateLink, updateLink_states, upd_node. simpl.
  destruct (href_of σ el); simpl; by rewrite ?Hr, Hn, Hb.
Qed.

Lemma removeStyleElement_preserves el :
  ignores with_children f → ignores with_parent f →
  ignores with_styleElementsInsertedAtTop f →
  preserves (removeStyleElement el) f.
Proof.
  intros Hc Hp Ht σ. unfold removeStyleElement.
  destruct (parent σ !! el); simpl; [|done].
  rewrite Ht. by apply detach_ignored.
Qed.

Lemma revokeObjectURL_preserves u :
  ignores with_revoked f → preserves (revokeObjectURL u) f.
Proof. intros Hr σ. unfold revokeObjectURL, modify. simpl. apply Hr. Qed.

Lemma alloc_ref_preserves :
  ignores with_next_ref f → preserves alloc_ref f.
Proof. intros Hr σ. unfold alloc_ref. simpl. apply Hr. Qed.

Lemma new_styles_preserves items :
  ignores with_next_ref f → preserves (new_styles items) f.
Proof. intros Hr σ. unfold new_styles. simpl. apply Hr. Qed.

Lemma evict_preserves e : ignores with_cache f → preserves (evict e) f.
Proof.
  intros Hc σ. unfold evict, modify. simpl.
  destruct (entries σ !! e); [apply Hc|done].
Qed.

End Primitives.

#[global] Hint Resolve getElement_preserves isOldIE_preserves
  appendChild_preserves insertBefore_preserves createElement_preserves
  setAttribute_preserves set_attrs_prop_preserves attachTagAttrs_preserves
  replaceText_preserves updateLink_preserves removeStyleElement_preserves
  revokeObjectURL_preserves alloc_ref_preserves new_styles_preserves
  evict_preserves : frame.

Section Composites.
Context (env : Env) {B : Type} (f : state → B).
Context (Hmemo : ignores with_memo f) (Hchildren : ignores with_children f)
  (Hparent : ignores with_parent f)
  (Htop : ignores with_styleElementsInsertedAtTop f).

Lemma insertStyleElement_preserves options el :
  preserves (insertStyleElement env options el) f.
Proof using Hmemo Hchildren Hparent Htop.
  unfold insertStyleElement. frame.
Qed.

Hint Resolve insertStyleElement_preserves : frame.

Context (Hnodes : ignores with_nodes f) (Hnext : ignores with_next_node f)
  (Hattrs : ignores with_attrsObjs f).

Lemma createStyleElement_preserves options :
  preserves (createStyleElement env options) f.
Proof using Hmemo Hchildren Hparent Htop Hnodes Hnext Hattrs.
  unfold createStyleElement. frame.
Qed.

Lemma createLinkElement_preserves options :
  preserves (createLinkElement env options) f.
Proof using Hmemo Hchildren Hparent Htop Hnodes Hnext Hattrs.
  unfold createLinkElement. frame.
Qed.

End Composites.

#[global] Hint Resolve insertStyleElement_preserves
  createStyleElement_preserves createLinkElement_preserves : frame.

Section Handles.
Context (env : Env) {B : Type} (f : state → B).
Context (Hnodes : ignores with_nodes f).

Lemma applyToTag_preserves el obj : preserves (applyToTag env el obj) f.
Proof using Hnodes.
  unfold applyToTag. frame.
Qed.

Context (Htext : ignores with_textStore f).

Lemma applyToSingletonTag_preserves el index remove obj :
  preserves (applyToSingletonTag env el index remove obj) f.
Proof using Hnodes Htext.
  unfold applyToSingletonTag. frame.
Qed.

Hint Resolve applyToTag_preserves applyToSingletonTag_preserves : frame.

Context (Hblobs : ignores with_blobs f) (Hrevoked : ignores with_revoked f).

Lemma handle_update_preserves h obj : preserves (handle_update env h obj) f.
Proof using Hnodes Htext Hblobs Hrevoked.
  unfold handle_update. frame.
Qed.

Context (Hchildren : ignores with_children f)
  (Hparent : ignores with_parent f)
  (Htop : ignores with_styleElementsInsertedAtTop f).

Lemma handle_remove_preserves h : preserves (handle_remove env h) f.
Proof using Hnodes Htext Hrevoked Hchildren Hparent Htop.
  unfold handle_remove. frame.
Qed.

Hint Resolve handle_update_preserves handle_remove_preserves : frame.

Lemma updateStyle_preserves h arg : preserves (updateStyle env h arg) f.
Proof using Hnodes Htext Hblobs Hrevoked Hchildren Hparent Htop.
  unfold updateStyle. frame.
Qed.

Context (Hmemo : ignores with_memo f) (Hnext : ignores with_next_node f)
  (Hattrs : ignores with_attrsObjs f)
  (Hsingle : ignores with_singletonElement f)
  (Hcounter : ignores with_singletonCounter f).

Lemma addStyle_preserves obj options :
  preserves (addStyle env obj options) f.
Proof using All.
  unfold addStyle. frame. intros σ. apply Hcounter.
Qed.

End Handles.

#[global] Hint Resolve applyToTag_preserves applyToSingletonTag_preserves
  handle_update_preserves handle_remove_preserves updateStyle_preserves
  addStyle_preserves : frame.

(** ** Blob links *)

Section BlobLink.
Context (env : Env).

Lemma href_of_upd_node_eq σ el v e :
  nodes σ !! el = Some e → href_of (upd_node el (set_href v) σ) el = v.
Proof.
  intros He. unfold href_of, upd_node. simpl.
  rewrite lookup_alter_eq, He. done.
Qed.

(** The three steps of one update, in order. *)
Lemma updateLink_steps el options obj σ e :
  nodes σ !! el = Some e →
  let new := length (blobs σ) in
  let σ1 := with_blobs (blobs σ ++ [link_css env options obj]) σ in
  let σ2 := upd_node el (set_href (Some new)) σ1 in
  updateLink_states env el options obj σ
  = σ1 :: σ2 ::
    match href e with
    | Some old => [with_revoked ({[old]} ∪ revoked σ2) σ2]
    | None => []
    end
  ∧ href_of σ1 el = href e ∧ revoked σ1 = revoked σ
  ∧ href_of σ2 el = Some new ∧ revoked σ2 = revoked σ.
Proof.
  intros He new σ1 σ2.
  assert (Hh : href_of σ el = href e) by (unfold href_of; by rewrite He).
  split; [|split; [|split; [|split]]].
  - unfold updateLink_states. rewrite Hh. by destruct (href e).
  - done.
  - done.
  - subst σ2. by apply (href_of_upd_node_eq σ1 el _ e).
  - done.
Qed.






(** C9: [updateLink] passes the css through the URL fixer exactly when
    [convertToAbsoluteUrls] is true, or is unset while the part has a source
    map; with an explicit false the fixer is never applied. The blob holds
    the css so obtained, followed by the source-map comment. *)
Theorem fixUrls_applied_iff el options obj σ :
  (fixes_urls options obj = true ↔
     convertToAbsoluteUrls options = Some true
     ∨ (convertToAbsoluteUrls options = None
        ∧ truthy_opt (sourceMap obj) = true))
  ∧ fixes_urls
      {| convertToAbsoluteUrls := Some false; singleton := singleton options;
         attrs := attrs options; insertInto := insertInto options;
         insertAt := insertAt options |} obj = false
  ∧ blobs (state_of (updateLink env el options obj σ))
    = blobs σ
      ++ [append_sourceMap env obj
            (if fixes_urls options obj then fixUrls env (css obj)
             else css obj)].
Proof.
  split; [|split].
  - unfold fixes_urls, autoFixUrls.
    destruct (convertToAbsoluteUrls options) as [[]|]; simpl;
      destruct (truthy_opt (sourceMap obj)); simpl; naive_solver.
  - done.
  - unfold updateLink, updateLink_states. simpl.
    by destruct (href_of σ el).
Qed.

End BlobLink.

(** ** Creating elements *)

Section Create.
Context (env : Env).

Lemma setAttribute_content el x k v :
  preserves (setAttribute el k v) (node_content x).
Proof.
  intros σ. unfold setAttribute, modify, upd_node, node_content. simpl.
  destruct (decide (x = el)) as [->|Hne].
  - rewrite lookup_alter_eq. by destruct (nodes σ !! el).
  - by rewrite lookup_alter_ne.
Qed.

Lemma attachTagAttrs_content el x a :
  preserves (attachTagAttrs el a) (node_content x).
Proof.
  intros σ. unfold attachTagAttrs.
  apply (preserves_forM (node_content x)). intros kv.
  apply setAttribute_content.
Qed.

Lemma attachTagAttrs_Return el a σ : ∃ σ', attachTagAttrs el a σ = Return tt σ'.
Proof.
  unfold attachTagAttrs. generalize (attrs_of σ a). intros l. revert σ.
  induction l as [|kv l IH]; intros σ; simpl; [by eexists|].
  rewrite bind_eq. unfold setAttribute at 1, modify. apply IH.
Qed.

Lemma attachTagAttrs_other el x a σ :
  x ≠ el → nodes (state_of (attachTagAttrs el a σ)) !! x = nodes σ !! x.
Proof.
  intros Hne. unfold attachTagAttrs.
  apply (preserves_forM (λ σ, nodes σ !! x)). intros kv σ'.
  unfold setAttribute, modify, upd_node. simpl. by rewrite lookup_alter_ne.
Qed.

(** What creating an element gives: a new node with empty content; the
    content of every other node is as it was. *)
Lemma create_element_spec (create : Options → M node) (t : tag) options σ el σ' :
  (create = createStyleElement env ∧ t = StyleTag
   ∨ create = createLinkElement env ∧ t = LinkTag) →
  create options σ = Return el σ' →
  el = next_node σ
  ∧ next_node σ' = S (next_node σ)
  ∧ node_content el σ' = Some (t, EmptyString, [], None)
  ∧ (∀ x, x ≠ el → nodes σ' !! x = nodes σ !! x)
  ∧ ∃ σ0, insertStyleElement env options el σ0 = Return tt σ'
          ∧ parent σ0 = parent σ ∧ children σ0 = children σ
          ∧ styleElementsInsertedAtTop σ0 = styleElementsInsertedAtTop σ
          ∧ memo σ0 = memo σ.
Proof.
  intros Hc Hr.
  assert (Hgen : ∃ σa σ0,
    (σa = with_attrsObjs (attrsObjs σa) σ)
    ∧ attachTagAttrs el (attrs options)
        (with_next_node (S (next_node σ))
           (with_nodes (<[next_node σ :=
              {| tagName := t; attributes := []; cssText := EmptyString;
                 childNodes := []; href := None |}]> (nodes σ)) σa))
      = Return tt σ0
    ∧ el = next_node σ
    ∧ insertStyleElement env options el σ0 = Return tt σ').
  { destruct Hc as [[-> ->]|[-> ->]].
    - unfold createStyleElement in Hr.
      apply bind_Return in Hr as (x & σ1 & H1 & Hr).
      unfold createElement in H1. injection H1 as <- <-.
      apply bind_Return in Hr as ([] & σ2 & H2 & Hr).
      unfold set_attrs_prop, modify in H2. injection H2 as <-.
      apply bind_Return in Hr as ([] & σ3 & H3 & Hr).
      apply bind_Return in Hr as ([] & σ4 & H4 & Hr).
      injection Hr as <- <-.
      eexists (with_attrsObjs _ σ), σ3. split; [done|]. split; [exact H3|].
      split; [done|]. exact H4.
    - unfold createLinkElement in Hr.
      apply bind_Return in Hr as (x & σ1 & H1 & Hr).
      unfold createElement in H1. injection H1 as <- <-.
      apply bind_Return in Hr as ([] & σ2 & H2 & Hr).
      unfold set_attrs_prop, modify in H2. injection H2 as <-.
      apply bind_Return in Hr as ([] & σ2' & H2' & Hr).
      unfold set_attrs_prop, modify in H2'. injection H2' as <-.
      apply bind_Return in Hr as ([] & σ3 & H3 & Hr).
      apply bind_Return in Hr as ([] & σ4 & H4 & Hr).
      injection Hr as <- <-.
      eexists (with_attrsObjs _ σ), σ3. split; [done|]. split; [exact H3|].
      split; [done|]. exact H4. }
  destruct Hgen as (σa & σ0 & Hσa & Hattach & -> & Hins).
  set (σb := with_next_node _ _) in Hattach.
  assert (Hnodes_b : nodes σb = <[next_node σ :=
              {| tagName := t; attributes := []; cssText := EmptyString;
                 childNodes := []; href := None |}]> (nodes σ)).
  { by subst σb. }
  pose proof (attachTagAttrs_content (next_node σ) (next_node σ)
                (attrs options) σb) as Hcont.
  rewrite Hattach in Hcont. cbn [state_of] in Hcont.
  assert (Hother : ∀ x, x ≠ next_node σ → nodes σ0 !! x = nodes σ !! x).
  { intros x Hx.
    pose proof (attachTagAttrs_other (next_node σ) x (attrs options) σb Hx)
      as Ho. rewrite Hattach in Ho. cbn [state_of] in Ho.
    rewrite Ho, Hnodes_b. by rewrite lookup_insert_ne. }
  assert (Hf0 : ∀ {B} (f : state → B), ignores with_nodes f →
            ignores with_next_node f → ignores with_attrsObjs f →
            f σ0 = f σ).
  { intros B f Hn Hx Ha.
    pose proof (attachTagAttrs_preserves f (next_node σ) (attrs options) Hn σb)
      as Hp. rewrite Hattach in Hp. cbn [state_of] in Hp. rewrite Hp.
    subst σb. rewrite Hx, Hn, Hσa. apply Ha. }
  assert (Hins_nodes : nodes σ' = nodes σ0).
  { apply (preserves_Return _ nodes _ _ _
             (insertStyleElement_preserves env nodes
                ltac:(done) ltac:(done) ltac:(done) ltac:(done) options _)
             Hins). }
  assert (Hins_next : next_node σ' = next_node σ0).
  { apply (preserves_Return _ next_node _ _ _
             (insertStyleElement_preserves env next_node
                ltac:(done) ltac:(done) ltac:(done) ltac:(done) options _)
             Hins). }
  split; [done|]. split.
  { rewrite Hins_next.
    pose proof (attachTagAttrs_preserves next_node (next_node σ) (attrs options)
                  ltac:(done) σb) as Hp.
    rewrite Hattach in Hp. cbn [state_of] in Hp. rewrite Hp. by subst σb. }
  split.
  { unfold node_content in *. rewrite Hins_nodes, Hcont, Hnodes_b.
    by rewrite lookup_insert_eq. }
  split.
  { intros x Hx. rewrite Hins_nodes. by apply Hother. }
  exists σ0. split; [done|].
  split; [by apply (Hf0 _ parent)|].
  split; [by apply (Hf0 _ children)|].
  split; [by apply (Hf0 _ styleElementsInsertedAtTop)|].
  by apply (Hf0 _ memo).
Qed.

End Create.

(** ** The singleton element *)

Section Singleton.
Context (env : Env).

Lemma applyToSingletonTag_update el index obj σ :
  applyToSingletonTag env el index false (Some obj) σ
  = Return tt (singleton_applied env el index (css obj) σ).
Proof.
  unfold applyToSingletonTag, singleton_applied. rewrite bind_eq. simpl.
  destruct (has_styleSheet env); reflexivity.
Qed.

Lemma applyToSingletonTag_remove el index obj σ :
  applyToSingletonTag env el index true obj σ
  = Return tt (singleton_applied env el index EmptyString σ).
Proof.
  unfold applyToSingletonTag, singleton_applied. rewrite bind_eq. simpl.
  destruct (has_styleSheet env); reflexivity.
Qed.

(** With the shared element in place, [addStyle] takes the next slot
    and writes the part's css into it. *)
Lemma addStyle_singleton_next obj options σ el :
  singleton options = true → singletonElement σ = Some el →
  addStyle env obj options σ
  = Return {| h_el := el; h_strategy := SingletonSlot (singletonCounter σ);
              h_obj := obj |}
      (singleton_applied env el (singletonCounter σ) (css obj)
         (with_singletonCounter (S (singletonCounter σ)) σ)).
Proof.
  intros Hs Hel. unfold addStyle. rewrite Hs.
  rewrite bind_eq. cbn beta iota. rewrite bind_eq.
  unfold gets at 1. cbn beta iota.
  change (singletonElement (with_singletonCounter _ σ))
    with (singletonElement σ).
  rewrite Hel. rewrite bind_eq, ret_eq. cbn beta iota zeta.
  rewrite bind_eq. unfold handle_update. cbn [h_strategy h_el].
  by rewrite applyToSingletonTag_update.
Qed.

(** The first [addStyle] of a session in singleton mode creates the
    shared element and takes slot 0. *)
Lemma addStyle_singleton_first obj options σ h σ1 :
  singleton options = true → singletonElement σ = None →
  addStyle env obj options σ = Return h σ1 →
  ∃ el σc,
    h = {| h_el := el; h_strategy := SingletonSlot (singletonCounter σ);
           h_obj := obj |}
    ∧ σ1 = singleton_applied env el (singletonCounter σ) (css obj)
             (with_singletonElement (Some el) σc)
    ∧ node_content el σc = Some (StyleTag, EmptyString, [], None)
    ∧ textStore σc = textStore σ
    ∧ singletonCounter σc = S (singletonCounter σ).
Proof.
  intros Hs Hnone Hr. unfold addStyle in Hr. rewrite Hs in Hr.
  apply bind_Return in Hr as (i & σa & Ha & Hr). injection Ha as <- <-.
  apply bind_Return in Hr as (cur & σb & Hb & Hr).
  unfold gets in Hb. injection Hb as <- <-.
  change (singletonElement (with_singletonCounter _ σ))
    with (singletonElement σ) in Hr.
  rewrite Hnone in Hr.
  apply bind_Return in Hr as (el & σd & Hd & Hr).
  apply bind_Return in Hd as (el' & σc & Hc & Hd).
  apply bind_Return in Hd as ([] & σe & He & Hd).
  unfold modify in He. injection He as <-. injection Hd as -> <-.
  cbn zeta in Hr. apply bind_Return in Hr as ([] & σf & Hf & Hr).
  injection Hr as <- <-.
  unfold handle_update in Hf. cbn [h_strategy h_el] in Hf.
  rewrite applyToSingletonTag_update in Hf. injection Hf as <-.
  exists el, σc. split; [done|]. split; [done|].
  destruct (create_element_spec env (createStyleElement env) StyleTag
              options _ el σc ltac:(by left) Hc)
    as (_ & _ & Hcont & _ & _).
  split; [done|].
  pose proof (createStyleElement_preserves env textStore
                ltac:(done) ltac:(done) ltac:(done) ltac:(done)
                ltac:(done) ltac:(done) ltac:(done) options) as Ht.
  pose proof (createStyleElement_preserves env singletonCounter
                ltac:(done) ltac:(done) ltac:(done) ltac:(done)
                ltac:(done) ltac:(done) ltac:(done) options) as Hn.
  split.
  - by rewrite (preserves_Return _ _ _ _ _ Ht Hc).
  - by rewrite (preserves_Return _ _ _ _ _ Hn Hc).
Qed.

Lemma concat_nl_dropped (s : string) :
  String.concat nl (filter_Boolean [Some EmptyString; Some s]) = s.
Proof.
  unfold filter_Boolean. simpl. unfold truthy.
  destruct (decide (s = EmptyString)) as [->|Hne]; done.
Qed.

(** C7: in singleton mode, with two parts in slots 0 and 1, removing the
    part in slot 0 leaves the shared element with exactly the css of slot
    1 as its text. The slot is kept, holding the empty string, and is left
    out of the newline join; the counter is not wound back, so the next
    part takes slot 2. *)
Theorem singleton_removed_slot_is_dropped options σ p0 p1 h0 σ1 :
  singleton options = true →
  singletonElement σ = None → singletonCounter σ = 0 → textStore σ = [] →
  addStyle env p0 options σ = Return h0 σ1 →
  ∃ h1 σ2 σ3,
    addStyle env p1 options σ1 = Return h1 σ2
    ∧ h_strategy h0 = SingletonSlot 0 ∧ h_strategy h1 = SingletonSlot 1
    ∧ h_el h1 = h_el h0
    ∧ updateStyle env h0 None σ2 = Return h0 σ3
    ∧ element_text (has_styleSheet env) σ3 (h_el h0) = css p1
    ∧ (if has_styleSheet env
       then textStore σ3 = [Some EmptyString; Some (css p1)]
       else childNodes <$> nodes σ3 !! h_el h0
            = Some [EmptyString; css p1])
    ∧ singletonCounter σ3 = 2
    ∧ ∀ p2, ∃ σ4,
        addStyle env p2 options σ3
        = Return {| h_el := h_el h0; h_strategy := SingletonSlot 2;
                    h_obj := p2 |} σ4.
Proof.
  intros Hs Hnone Hzero Hstore Hadd.
  destruct (addStyle_singleton_first p0 options σ h0 σ1 Hs Hnone Hadd)
    as (el & σc & -> & -> & Hcont & Htext & Hcount).
  rewrite Hzero in *. rewrite Hstore in Htext.
  unfold node_content in Hcont.
  destruct (nodes σc !! el) as [e|] eqn:He; [|done].
  injection Hcont as Htag Hcss Hkids Hhref.
  set (σ1 := singleton_applied env el 0 (css p0) _).
  assert (Hel1 : singletonElement σ1 = Some el).
  { subst σ1. unfold singleton_applied. by destruct (has_styleSheet env). }
  assert (Hc1 : singletonCounter σ1 = 1).
  { subst σ1. unfold singleton_applied. by destruct (has_styleSheet env). }
  rewrite (addStyle_singleton_next p1 options σ1 el Hs Hel1), Hc1.
  eexists _, _, _. split; [reflexivity|].
  split; [done|]. split; [done|]. split; [done|].
  unfold updateStyle, handle_remove. cbn [h_strategy h_el].
  rewrite bind_eq, applyToSingletonTag_remove, ret_eq.
  split; [reflexivity|].
  set (σ3 := singleton_applied env el 0 EmptyString _).
  assert (Hel3 : singletonElement σ3 = Some el ∧ singletonCounter σ3 = 2).
  { subst σ3 σ1. unfold singleton_applied. by destruct (has_styleSheet env). }
  assert (Hmain :
    element_text (has_styleSheet env) σ3 el = css p1
    ∧ (if has_styleSheet env
       then textStore σ3 = [Some EmptyString; Some (css p1)]
       else childNodes <$> nodes σ3 !! el = Some [EmptyString; css p1])).
  { subst σ3 σ1. unfold singleton_applied, element_text, upd_node.
    destruct (has_styleSheet env); simpl.
    - rewrite Htext. simpl.
      rewrite !lookup_alter_eq, He. simpl. split; [|done].
      apply concat_nl_dropped.
    - rewrite !lookup_alter_eq, He. simpl. rewrite Hkids. simpl. done. }
  destruct Hmain as [Hm1 Hm2], Hel3 as [Hel3 Hc3].
  split; [done|]. split; [done|]. split; [done|].
  intros p2. eexists.
  rewrite (addStyle_singleton_next p2 options σ3 el Hs Hel3), Hc3. done.
Qed.

End Singleton.

(** ** The document under insertion and removal *)

Section Dom.
Context (env : Env).

Lemma insert_before_elem el r (l : list nat) x :
  x ∈ insert_before el r l ↔ x = el ∨ x ∈ l.
Proof.
  induction l as [|c l IH]; simpl.
  - rewrite list_elem_of_singleton, elem_of_nil. tauto.
  - destruct (decide (c = r)).
    + rewrite !elem_of_cons. tauto.
    + rewrite !elem_of_cons, IH. tauto.
Qed.

Lemma children_of_insert σ σ0 t kids t' :
  children σ = <[t := kids]> (children σ0) →
  children_of σ t' = if decide (t = t') then kids else children_of σ0 t'.
Proof.
  intros H. unfold children_of. rewrite H.
  destruct (decide (t = t')) as [->|Hne].
  - by rewrite lookup_insert_eq.
  - by rewrite lookup_insert_ne.
Qed.

Lemma target_of_memo_grow sel sel' σ :
  target_of env (memoized env sel σ) sel' = target_of env σ sel'.
Proof.
  unfold memoized, getElement, target_of.
  destruct (memo σ !! sel) eqn:Hm; simpl; [done|].
  destruct (decide (sel = sel')) as [->|Hne].
  - by rewrite lookup_insert_eq, Hm.
  - by rewrite lookup_insert_ne.
Qed.

(** What a returning [insertStyleElement] has done. *)
Lemma insertStyleElement_Return_facts options el σ σ' :
  insertStyleElement env options el σ = Return tt σ' →
  ∃ t,
    target_of env σ (insertInto options) = Some t
    ∧ (insertAt options = "top" ∨ insertAt options = "bottom")
    ∧ memo σ' = memo (memoized env (insertInto options) σ)
    ∧ styleElementsInsertedAtTop σ'
      = (if decide (insertAt options = "top")
         then styleElementsInsertedAtTop σ ++ [el]
         else styleElementsInsertedAtTop σ)
    ∧ (parent σ !! el = None →
       parent σ' = <[el := t]> (parent σ)
       ∧ ∀ t' x, x ∈ children_of σ' t'
                 ↔ (x = el ∧ t' = t) ∨ x ∈ children_of σ t').
Proof.
  unfold insertStyleElement.
  rewrite bind_eq, getElement_eq.
  destruct (target_of env σ (insertInto options)) as [t|] eqn:Ht; [|done].
  set (σm := memoized env (insertInto options) σ).
  assert (Hkids : ∀ x, children_of σm x = children_of σ x)
    by (intros; apply children_of_memoized).
  assert (Hpar : parent σm = parent σ) by apply parent_memoized.
  assert (Hch : children σm = children σ) by apply children_memoized.
  assert (Htop : styleElementsInsertedAtTop σm = styleElementsInsertedAtTop σ)
    by apply top_memoized.
  assert (Hins : ∀ kids,
    (∀ x, x ∈ kids ↔ x = el ∨ x ∈ children_of σ t) →
    ∀ σ1, children σ1 = <[t := kids]> (children σ) →
    ∀ t' x, x ∈ children_of σ1 t' ↔ (x = el ∧ t' = t) ∨ x ∈ children_of σ t').
  { intros kids Hk σ1 H1 t' x.
    rewrite (children_of_insert σ1 σ t kids t' H1).
    destruct (decide (t = t')) as [<-|Hne].
    - rewrite Hk. tauto.
    - split; [tauto|]. intros [[_ ->]|?]; [done|tauto]. }
  rewrite bind_eq. unfold gets at 1. cbn beta iota.
  destruct (decide (insertAt options = "top")) as [Hat|Hat].
  - (* top *)
    intros Hr. exists t. split; [done|]. split; [by left|].
    apply bind_Return in Hr as ([] & σ1 & H1 & Hr).
    unfold modify in Hr. injection Hr as <-. simpl.
    assert (Hgoal : memo σ1 = memo σm
      ∧ styleElementsInsertedAtTop σ1 = styleElementsInsertedAtTop σ
      ∧ (parent σ !! el = None →
         parent σ1 = <[el := t]> (parent σ)
         ∧ ∀ t' x, x ∈ children_of σ1 t'
                   ↔ (x = el ∧ t' = t) ∨ x ∈ children_of σ t')).
    { assert (Happ : ∀ σ1, appendChild t el σm = Return tt σ1 →
        memo σ1 = memo σm
        ∧ styleElementsInsertedAtTop σ1 = styleElementsInsertedAtTop σ
        ∧ (parent σ !! el = None →
           parent σ1 = <[el := t]> (parent σ)
           ∧ ∀ t' x, x ∈ children_of σ1 t'
                     ↔ (x = el ∧ t' = t) ∨ x ∈ children_of σ t')).
      { intros σ2 H2. unfold appendChild, modify in H2. injection H2 as <-.
        split; [by unfold detach; destruct (parent σm !! el)|].
        split; [by unfold detach; destruct (parent σm !! el)|].
        intros Hel. rewrite detach_absent by (by rewrite Hpar).
        simpl. rewrite Hpar. split; [done|].
        apply (Hins (children_of σ t ++ [el])).
        - intros x. rewrite elem_of_app, list_elem_of_singleton. tauto.
        - simpl. by rewrite Hkids, Hch. }
      assert (Hbef : ∀ s σ1, insertBefore t el (Some s) σm = Return tt σ1 →
        memo σ1 = memo σm
        ∧ styleElementsInsertedAtTop σ1 = styleElementsInsertedAtTop σ
        ∧ (parent σ !! el = None →
           parent σ1 = <[el := t]> (parent σ)
           ∧ ∀ t' x, x ∈ children_of σ1 t'
                     ↔ (x = el ∧ t' = t) ∨ x ∈ children_of σ t')).
      { intros s σ2 H2. unfold insertBefore in H2.
        destruct (decide (s ∈ children_of σm t)); [|done].
        injection H2 as <-.
        split; [by unfold detach; destruct (parent σm !! el)|].
        split; [by unfold detach; destruct (parent σm !! el)|].
        intros Hel. rewrite detach_absent by (by rewrite Hpar).
        simpl. rewrite Hpar. split; [done|].
        apply (Hins (insert_before el s (children_of σ t))).
        - intros x. apply insert_before_elem.
        - simpl. by rewrite Hkids, Hch. }
      destruct (last (styleElementsInsertedAtTop σm)) as [lastEl|].
      - apply bind_Return in H1 as (sib & σ2 & H2 & H1).
        unfold gets in H2. injection H2 as <- <-.
        destruct (nextSibling lastEl σm) as [s|]; [by eapply Hbef|by apply Happ].
      - apply bind_Return in H1 as (fc & σ2 & H2 & H1).
        unfold gets in H2. injection H2 as <- <-.
        destruct (firstChild t σm) as [s|]; [by eapply Hbef|by apply Happ]. }
    destruct Hgoal as (Hm1 & Ht1 & Hrest).
    split; [done|]. split; [by rewrite Ht1|].
    intros Hel. destruct (Hrest Hel) as [Hp Hc]. split; [done|].
    intros t' x. rewrite <- Hc. done.
  - destruct (decide (insertAt options = "bottom")) as [Hab|Hab]; [|done].
    intros Hr. exists t. split; [done|]. split; [by right|].
    unfold appendChild, modify in Hr. injection Hr as <-.
    split; [by unfold detach; destruct (parent σm !! el)|].
    split; [by unfold detach; destruct (parent σm !! el); simpl; rewrite ?Htop|].
    intros Hel. rewrite detach_absent by (by rewrite Hpar).
    simpl. rewrite Hpar. split; [done|].
    apply (Hins (children_of σ t ++ [el])).
    + intros x. rewrite elem_of_app, list_elem_of_singleton. tauto.
    + simpl. by rewrite Hkids, Hch.
Qed.

(** What a throwing [insertStyleElement] has met. *)
Lemma insertStyleElement_Throw_facts options el σ e σ' :
  insertStyleElement env options el σ = Throw e σ' →
  (config_error env options σ = Some e
   ∧ σ' = memoized env (insertInto options) σ)
  ∨ (e = NotFoundError ∧ insertAt options = "top"
     ∧ ∃ t lastEl p,
         target_of env σ (insertInto options) = Some t
         ∧ last (styleElementsInsertedAtTop σ) = Some lastEl
         ∧ parent σ !! lastEl = Some p ∧ p ≠ t).
Proof.
  unfold insertStyleElement, config_error.
  rewrite bind_eq, getElement_eq.
  destruct (target_of env σ (insertInto options)) as [t|] eqn:Ht;
    [|intros [= <- <-]; by left].
  set (σm := memoized env (insertInto options) σ).
  rewrite bind_eq. unfold gets at 1. cbn beta iota.
  destruct (decide (insertAt options = "top")) as [Hat|Hat].
  - intros Hr. right. split; [|split; [done|]].
    + apply bind_Throw in Hr as [Hr|([] & σ1 & _ & Hr)]; [|done].
      destruct (last (styleElementsInsertedAtTop σm)) as [lastEl|].
      * apply bind_Throw in Hr as [Hr|(sib & σ2 & H2 & Hr)]; [done|].
        destruct sib as [s|]; [|done].
        unfold insertBefore in Hr.
        destruct (decide (s ∈ children_of σ2 t)); [done|]. by injection Hr.
      * apply bind_Throw in Hr as [Hr|(fc & σ2 & H2 & Hr)]; [done|].
        destruct fc as [s|]; [|done].
        unfold insertBefore in Hr.
        destruct (decide (s ∈ children_of σ2 t)); [done|]. by injection Hr.
    + apply bind_Throw in Hr as [Hr|([] & σ1 & _ & Hr)]; [|done].
      subst σm. rewrite top_memoized in Hr.
      destruct (last (styleElementsInsertedAtTop σ)) as [lastEl|] eqn:Hl.
      * apply bind_Throw in Hr as [Hr|(sib & σ2 & H2 & Hr)]; [done|].
        unfold gets in H2. injection H2 as <- <-.
        unfold nextSibling in Hr. rewrite parent_memoized in Hr.
        destruct (parent σ !! lastEl) as [p|] eqn:Hp; [|done].
        exists t, lastEl, p. split; [done|]. split; [done|]. split; [done|].
        intros ->.
        destruct (next_after lastEl
                    (children_of (memoized env (insertInto options) σ) t))
          as [s|] eqn:Hs; [|done].
        unfold insertBefore in Hr.
        rewrite decide_True in Hr by (by eapply next_after_elem). done.
      * apply bind_Throw in Hr as [Hr|(fc & σ2 & H2 & Hr)]; [done|].
        unfold gets in H2. injection H2 as <- <-.
        unfold firstChild in Hr.
        destruct (children_of (memoized env (insertInto options) σ) t)
          as [|c kids] eqn:Hk; simpl in Hr; [done|].
        unfold insertBefore in Hr. rewrite Hk in Hr.
        rewrite decide_True in Hr by left. done.
  - destruct (decide (insertAt options = "bottom")) as [Hab|Hab]; [done|].
    intros [= <- <-]. by left.
Qed.

(** With a working configuration and a compatible top list the
    insertion returns, and both still hold afterwards. *)
Lemma insertStyleElement_ok options el σ :
  config_error env options σ = None → top_compatible env options σ →
  ∃ σ', insertStyleElement env options el σ = Return tt σ'
        ∧ config_error env options σ' = None
        ∧ top_compatible env options σ'.
Proof.
  intros Hcfg Htc.
  destruct (insertStyleElement env options el σ) as [[] σ'|e σ'] eqn:Hr.
  - exists σ'. split; [done|].
    destruct (insertStyleElement_Return_facts _ _ _ _ Hr)
      as (t & Ht & Hat & Hmemo & Htop & Hdet).
    assert (Htgt : ∀ sel, target_of env σ' sel = target_of env σ sel).
    { intros sel. rewrite <- (target_of_memo_grow (insertInto options) sel σ).
      unfold target_of. by rewrite Hmemo. }
    split.
    + unfold config_error. by rewrite Htgt.
    + intros Hat' lastEl t' p Hl Ht' Hp.
      rewrite Htgt, Ht in Ht'. injection Ht' as <-.
      rewrite Htop, decide_True in Hl by done.
      rewrite last_snoc in Hl. injection Hl as <-.
      (* the new element is the last one; its parent is the target *)
      clear Hdet. revert Hr Hp. unfold insertStyleElement.
      rewrite bind_eq, getElement_eq, Ht.
      rewrite bind_eq. unfold gets at 1. cbn beta iota.
      rewrite decide_True by done. intros Hr.
      apply bind_Return in Hr as ([] & σ1 & H1 & Hr).
      unfold modify in Hr. injection Hr as <-. simpl.
      assert (Hp1 : parent σ1 !! el = Some t).
      { assert (Happ : ∀ σa σ2, appendChild t el σa = Return tt σ2 →
                  parent σ2 !! el = Some t).
        { intros σa σ2 H2. unfold appendChild, modify in H2.
          injection H2 as <-. simpl. by rewrite lookup_insert_eq. }
        assert (Hbef : ∀ s σa σ2, insertBefore t el (Some s) σa = Return tt σ2 →
                  parent σ2 !! el = Some t).
        { intros s σa σ2 H2. unfold insertBefore in H2.
          destruct (decide (s ∈ children_of σa t)); [|done].
          injection H2 as <-. simpl. by rewrite lookup_insert_eq. }
        destruct (last (styleElementsInsertedAtTop _)).
        - apply bind_Return in H1 as (sib & σ2 & H2 & H1).
          destruct sib; eauto.
        - apply bind_Return in H1 as (fc & σ2 & H2 & H1).
          destruct fc; eauto. }
      rewrite Hp1. by intros [= <-].
  - exfalso.
    destruct (insertStyleElement_Throw_facts _ _ _ _ _ Hr)
      as [[Hc _]|(_ & Hat & t & lastEl & p & Ht & Hl & Hp & Hne)].
    + congruence.
    + apply Hne. by eapply Htc.
Qed.


End Dom.

(** ** The entry point *)


(** A non-empty list gives at least one descriptor, and the first one
    has at least one part. *)
Lemma listToStyles_cons base it items :
  ∃ d ds p ps, listToStyles base (it :: items) = d :: ds ∧ s_parts d = p :: ps.
Proof.
  destruct (listToStyles_loop_inv base (it :: items)) as [Hg _].
  fold (listToStyles base (it :: items)) in Hg.
  unfold grouped, view in Hg. simpl in Hg.
  destruct (listToStyles base (it :: items)) as [|d ds]; [done|].
  injection Hg as _ Hd _.
  exists d, ds. unfold parts_for in Hd.
  rewrite filter_cons, decide_True in Hd by done. simpl in Hd.
  eexists _, _. split; [done|]. exact Hd.
Qed.

Lemma listToStyles_loop_refs base items :
  s_ref <$> (listToStyles_loop base items).1
  = seq base (length (listToStyles_loop base items).1).
Proof.
  unfold listToStyles_loop.
  induction items as [|it items IH] using rev_ind; [done|].
  rewrite foldl_app. simpl.
  destruct (foldl (listToStyles_step base) ([], ∅) items) as [res ns].
  simpl in IH. unfold listToStyles_step. simpl.
  destruct (ns !! item_id it) as [k|]; simpl.
  - rewrite length_alter, <- IH.
    apply list_eq. intros j. rewrite !list_lookup_fmap.
    destruct (decide (j = k)) as [->|Hne].
    + rewrite list_lookup_alter, decide_True by done.
      by destruct (res !! k).
    + by rewrite list_lookup_alter_ne.
  - rewrite fmap_app, length_app, seq_app, IH. simpl. done.
Qed.

(** The descriptors of one call are allocated consecutively. *)
Lemma listToStyles_refs base items :
  s_ref <$> listToStyles base items
  = seq base (length (listToStyles base items)).
Proof. apply listToStyles_loop_refs. Qed.

Lemma listToStyles_refs_NoDup base items :
  NoDup (s_ref <$> listToStyles base items).
Proof. rewrite listToStyles_refs. apply NoDup_seq. Qed.

Lemma listToStyles_refs_ge base items d :
  d ∈ listToStyles base items → base ≤ s_ref d.
Proof.
  intros Hd.
  assert (Hin : s_ref d ∈ s_ref <$> listToStyles base items)
    by (by apply list_elem_of_fmap_2).
  rewrite listToStyles_refs in Hin. apply elem_of_seq in Hin. lia.
Qed.

(** A descriptor allocated after everything the registry mentions is
    not found in it. *)
Lemma get_fresh σ d :
  registry_fresh σ → next_ref σ ≤ s_ref d →
  stylesInDom_get (cache σ) d = None.
Proof.
  intros [Hc _] Hge. unfold stylesInDom_get.
  destruct (cache σ !! s_id d) as [bucket|] eqn:Hb; [|done].
  destruct (filter (λ s, s.1 = s_ref d) bucket) as [|[r e] l] eqn:Hf; [done|].
  assert (Hin : (r, e) ∈ filter (λ s, s.1 = s_ref d) bucket)
    by (rewrite Hf; left).
  apply list_elem_of_filter in Hin as [Hr Hin]. simpl in Hr.
  destruct (Hc _ _ _ _ Hb Hin) as [Hlt _]. lia.
Qed.

Section Install.
Context (env : Env).

Lemma config_error_ext options σ σ' :
  memo σ' = memo σ →
  config_error env options σ' = config_error env options σ.
Proof. intros Hm. unfold config_error, target_of. by rewrite Hm. Qed.

Lemma top_compatible_ext options σ σ' :
  memo σ' = memo σ → parent σ' = parent σ →
  styleElementsInsertedAtTop σ' = styleElementsInsertedAtTop σ →
  top_compatible env options σ → top_compatible env options σ'.
Proof.
  intros Hm Hp Ht H Hat lastEl t p. unfold target_of.
  rewrite Hm, Hp, Ht. by apply H.
Qed.

Lemma can_add_ext options σ σ' :
  singletonElement σ' = singletonElement σ →
  memo σ' = memo σ → parent σ' = parent σ →
  styleElementsInsertedAtTop σ' = styleElementsInsertedAtTop σ →
  can_add env options σ → can_add env options σ'.
Proof.
  intros Hs Hm Hp Ht [Hn|[Hc Htc]].
  - left. unfold needs_element in *. by rewrite Hs.
  - right. split; [by rewrite (config_error_ext _ σ)|].
    by apply (top_compatible_ext _ σ).
Qed.

(** Creating an element comes down to inserting a new node. *)
Lemma create_unfold (create : Options → M node) options σ :
  create = createStyleElement env ∨ create = createLinkElement env →
  ∃ σ0,
    create options σ
    = (insertStyleElement env options (next_node σ) ;;
       mret (next_node σ)) σ0
    ∧ memo σ0 = memo σ ∧ parent σ0 = parent σ ∧ children σ0 = children σ
    ∧ styleElementsInsertedAtTop σ0 = styleElementsInsertedAtTop σ
    ∧ singletonElement σ0 = singletonElement σ.
Proof.
  intros [->| ->].
  - unfold createStyleElement. rewrite bind_eq. unfold createElement at 1.
    cbn beta iota zeta. rewrite bind_eq.
    unfold set_attrs_prop at 1, modify at 1. cbn beta iota.
    rewrite bind_eq.
    match goal with
    | |- context [attachTagAttrs ?el ?a ?s] =>
        destruct (attachTagAttrs_Return el a s) as [σ0 H0];
        pose proof (λ B (f : state → B) Hn,
          preserves_Return _ f _ _ _ (attachTagAttrs_preserves f el a Hn) H0)
          as Hf
    end.
    exists σ0. rewrite H0. split; [done|].
    rewrite (Hf _ memo), (Hf _ parent), (Hf _ children),
      (Hf _ styleElementsInsertedAtTop), (Hf _ singletonElement) by done.
    done.
  - unfold createLinkElement. rewrite bind_eq. unfold createElement at 1.
    cbn beta iota zeta. rewrite bind_eq.
    unfold set_attrs_prop at 1, modify at 1. cbn beta iota.
    rewrite bind_eq.
    unfold set_attrs_prop at 1, modify at 1. cbn beta iota.
    rewrite bind_eq.
    match goal with
    | |- context [attachTagAttrs ?el ?a ?s] =>
        destruct (attachTagAttrs_Return el a s) as [σ0 H0];
        pose proof (λ B (f : state → B) Hn,
          preserves_Return _ f _ _ _ (attachTagAttrs_preserves f el a Hn) H0)
          as Hf
    end.
    exists σ0. rewrite H0. split; [done|].
    rewrite (Hf _ memo), (Hf _ parent), (Hf _ children),
      (Hf _ styleElementsInsertedAtTop), (Hf _ singletonElement) by done.
    done.
Qed.

Lemma create_ok (create : Options → M node) options σ :
  create = createStyleElement env ∨ create = createLinkElement env →
  config_error env options σ = None → top_compatible env options σ →
  ∃ el σ', create options σ = Return el σ'
           ∧ config_error env options σ' = None
           ∧ top_compatible env options σ'
           ∧ singletonElement σ' = singletonElement σ.
Proof.
  intros Hc Hcfg Htc.
  destruct (create_unfold create options σ Hc)
    as (σ0 & -> & Hm & Hp & Hk & Ht & Hs).
  destruct (insertStyleElement_ok env options (next_node σ) σ0)
    as (σ' & Hr & Hcfg' & Htc').
  { by rewrite (config_error_ext _ σ). }
  { by apply (top_compatible_ext _ σ). }
  exists (next_node σ), σ'. rewrite bind_eq, Hr. split; [done|].
  split; [done|]. split; [done|].
  rewrite <- Hs.
  apply (preserves_Return _ singletonElement _ _ _
           (insertStyleElement_preserves env singletonElement
              ltac:(done) ltac:(done) ltac:(done) ltac:(done) options _) Hr).
Qed.


(** The [update] of a handle never throws, and it leaves the document
    tree and the module's bookkeeping of elements alone. *)
Lemma handle_update_keeps h obj σ :
  ∃ σ', handle_update env h obj σ = Return tt σ'
        ∧ memo σ' = memo σ ∧ parent σ' = parent σ
        ∧ children σ' = children σ
        ∧ styleElementsInsertedAtTop σ' = styleElementsInsertedAtTop σ
        ∧ singletonElement σ' = singletonElement σ.
Proof.
  assert (Hret : ∃ σ', handle_update env h obj σ = Return tt σ').
  { unfold handle_update. destruct (h_strategy h).
    - rewrite applyToSingletonTag_update. by eexists.
    - unfold updateLink. by eexists.
    - unfold applyToTag. rewrite bind_eq.
      destruct (truthy (media obj)); cbn;
        destruct (has_styleSheet env); by eexists. }
  destruct Hret as [σ' Hr]. exists σ'. split; [done|].
  pose proof (λ B (f : state → B) H1 H2 H3 H4,
    preserves_Return _ f _ _ _
      (handle_update_preserves env f H1 H2 H3 H4 h obj) Hr) as Hf.
  rewrite (Hf _ memo), (Hf _ parent), (Hf _ children),
    (Hf _ styleElementsInsertedAtTop), (Hf _ singletonElement) by done.
  done.
Qed.

Lemma singleton_applied_keeps el index text σ :
  let σ' := singleton_applied env el index text σ in
  memo σ' = memo σ ∧ parent σ' = parent σ ∧ children σ' = children σ
  ∧ styleElementsInsertedAtTop σ' = styleElementsInsertedAtTop σ
  ∧ singletonElement σ' = singletonElement σ
  ∧ singletonCounter σ' = singletonCounter σ.
Proof. unfold singleton_applied. by destruct (has_styleSheet env). Qed.

(** Where parts can be added, [addStyle] returns, and parts can still
    be added afterwards. *)
Lemma addStyle_can_add p options σ :
  can_add env options σ →
  ∃ h σ', addStyle env p options σ = Return h σ' ∧ can_add env options σ'.
Proof.
  intros Hcan. destruct (singleton options) eqn:Hs.
  - destruct (singletonElement σ) as [el|] eqn:Hel.
    + rewrite (addStyle_singleton_next env p options σ el Hs Hel).
      eexists _, _. split; [done|]. left.
      unfold needs_element. rewrite Hs. simpl.
      destruct (singleton_applied_keeps el (singletonCounter σ) (css p)
                  (with_singletonCounter (S (singletonCounter σ)) σ))
        as (_ & _ & _ & _ & -> & _).
      simpl. rewrite Hel. by apply bool_decide_eq_false.
    + destruct Hcan as [Hn|[Hcfg Htc]].
      { unfold needs_element in Hn. rewrite Hs, Hel in Hn. simpl in Hn.
        first [discriminate Hn | by apply bool_decide_eq_false in Hn]. }
      unfold addStyle. rewrite Hs.
      rewrite bind_eq. cbn beta iota. rewrite bind_eq.
      unfold gets at 1. cbn beta iota.
      change (singletonElement (with_singletonCounter _ σ))
        with (singletonElement σ).
      rewrite Hel.
      destruct (create_ok (createStyleElement env) options
                  (with_singletonCounter (S (singletonCounter σ)) σ)
                  ltac:(by left) Hcfg Htc)
        as (el & σc & Hc & Hcfg' & Htc' & Hsel).
      mstep. rewrite Hc. mstep.
      match goal with
      | |- context [handle_update env ?h ?o ?s] =>
          destruct (handle_update_keeps h o s)
            as (σ' & Hu & Hm & Hp & Hk & Ht & Hse)
      end.
      rewrite Hu. mstep. eexists _, σ'. split; [done|]. left.
      unfold needs_element. by rewrite Hs, Hse.
  - destruct Hcan as [Hn|[Hcfg Htc]].
    { unfold needs_element in Hn. by rewrite Hs in Hn. }
    unfold addStyle. rewrite Hs.
    destruct (truthy_opt (sourceMap p) && has_blob_api env).
    + destruct (create_ok (createLinkElement env) options σ
                  ltac:(by right) Hcfg Htc)
        as (el & σc & Hc & Hcfg' & Htc' & Hsel).
      mstep. rewrite Hc. mstep.
      match goal with
      | |- context [handle_update env ?h ?o ?s] =>
          destruct (handle_update_keeps h o s)
            as (σ' & Hu & Hm & Hp & Hk & Ht & Hse)
      end.
      rewrite Hu. mstep. eexists _, σ'. split; [done|]. right.
      split; [by rewrite (config_error_ext _ σc)|].
      by apply (top_compatible_ext _ σc).
    + destruct (create_ok (createStyleElement env) options σ
                  ltac:(by left) Hcfg Htc)
        as (el & σc & Hc & Hcfg' & Htc' & Hsel).
      mstep. rewrite Hc. mstep.
      match goal with
      | |- context [handle_update env ?h ?o ?s] =>
          destruct (handle_update_keeps h o s)
            as (σ' & Hu & Hm & Hp & Hk & Ht & Hse)
      end.
      rewrite Hu. mstep. eexists _, σ'. split; [done|]. right.
      split; [by rewrite (config_error_ext _ σc)|].
      by apply (top_compatible_ext _ σc).
Qed.


Lemma addStyle_registry p options σ h σ' :
  addStyle env p options σ = Return h σ' →
  cache σ' = cache σ ∧ entries σ' = entries σ ∧ next_ref σ' = next_ref σ.
Proof.
  intros Hr.
  pose proof (λ B (f : state → B) H1 H2 H3 H4 H5 H6 H7 H8 H9 H10 H11 H12,
    preserves_Return _ f _ _ _
      (addStyle_preserves env f H1 H2 H3 H4 H5 H6 H7 H8 H9 H10 H11 H12
         p options) Hr) as Hf.
  rewrite (Hf _ cache), (Hf _ entries), (Hf _ next_ref) by done. done.
Qed.

Lemma parts_can_add ps options σ :
  can_add env options σ →
  ∃ hs σ', mapM' (λ p, addStyle env p options) ps σ = Return hs σ'
           ∧ can_add env options σ'
           ∧ cache σ' = cache σ ∧ entries σ' = entries σ
           ∧ next_ref σ' = next_ref σ.
Proof.
  revert σ. induction ps as [|p ps IH]; intros σ Hcan; simpl.
  - by eexists _, _.
  - destruct (addStyle_can_add p options σ Hcan) as (h & σ1 & H1 & Hcan1).
    destruct (addStyle_registry _ _ _ _ _ H1) as (Hc1 & He1 & Hn1).
    destruct (IH σ1 Hcan1) as (hs & σ2 & H2 & Hcan2 & Hc2 & He2 & Hn2).
    exists (h :: hs), σ2. rewrite bind_eq, H1, bind_eq, H2.
    split; [done|]. split; [done|]. by rewrite Hc2, He2, Hn2.
Qed.

(** A descriptor that the registry does not know gets a new entry. *)
Lemma addStylesToDom_one_miss d options σ :
  stylesInDom_get (cache σ) d = None →
  addStylesToDom_one env options d σ
  = (mapM' (λ p, addStyle env p options) (s_parts d)
     ≫= λ hs, modify (registered d hs)) σ.
Proof.
  intros Hmiss. unfold addStylesToDom_one.
  rewrite bind_eq. unfold gets at 1. cbn beta iota. rewrite Hmiss.
  rewrite !bind_eq.
  by destruct (mapM' (λ p, addStyle env p options) (s_parts d) σ).
Qed.

Lemma styles_can_add ds options σ :
  can_add env options σ →
  Forall (λ d, stylesInDom_get (cache σ) d = None) ds →
  NoDup (s_ref <$> ds) →
  ∃ σ', addStylesToDom env ds options σ = Return tt σ'.
Proof.
  unfold addStylesToDom. revert σ.
  induction ds as [|d ds IH]; intros σ Hcan Hmiss Hnd; simpl.
  - by eexists.
  - apply Forall_cons in Hmiss as [Hd Hmiss].
    rewrite fmap_cons in Hnd. apply NoDup_cons in Hnd as [Hnotin Hnd].
    rewrite bind_eq, (addStylesToDom_one_miss d options σ Hd), bind_eq.
    destruct (parts_can_add (s_parts d) options σ Hcan)
      as (hs & σ1 & H1 & Hcan1 & Hc1 & He1 & Hn1).
    rewrite H1. apply IH; [|  |done].
    + by apply (can_add_ext _ σ1).
    + apply Forall_forall. intros d' Hd'. simpl.
      rewrite Forall_forall in Hmiss.
      rewrite get_set_ne, Hc1; [by apply Hmiss|].
      intros Heq. apply Hnotin. rewrite <- Heq.
      by apply list_elem_of_fmap_2.
Qed.


(** The prologue of the entry point. *)
Lemma install_unfold items options σ :
  ∃ a r m base,
    let opts := effective_options env options σ in
    let styles := listToStyles base items in
    install env items options σ
    = (addStylesToDom env styles opts ;;
       mret {| cl_styles := styles; cl_options := opts |})
        (after_prologue a r m σ)
    ∧ next_ref σ ≤ base ∧ r = base + length styles
    ∧ (m = isOldIE_memo σ ∨ m = Some (oldIE env)).
Proof.
  unfold install, effective_options, effective_singleton.
  destruct (default default_options options)
    as [cta [s|] [a|] into at_]; cbn [raw_attrs raw_singleton
      raw_convertToAbsoluteUrls raw_insertInto raw_insertAt default].
  - eexists (attrsObjs σ), _, (isOldIE_memo σ), (next_ref σ).
    split; [|split; [lia|split; [reflexivity|auto]]].
    mstep. unfold new_styles. mstep. reflexivity.
  - eexists _, _, (isOldIE_memo σ), (S (next_ref σ)).
    split; [|split; [lia|split; [reflexivity|auto]]].
    mstep. unfold alloc_ref. mstep. unfold new_styles. mstep. reflexivity.
  - unfold isOldIE. destruct (isOldIE_memo σ) as [b|] eqn:Hm.
    + eexists (attrsObjs σ), _, (isOldIE_memo σ), (next_ref σ).
      split; [|split; [lia|split; [reflexivity|auto]]].
      set (σ0 := after_prologue _ _ _ _).
      mstep. rewrite Hm. mstep. unfold new_styles. mstep. subst σ0.
      reflexivity.
    + eexists (attrsObjs σ), _, (Some (oldIE env)), (next_ref σ).
      split; [|split; [lia|split; [reflexivity|auto]]].
      mstep. rewrite Hm. mstep. unfold new_styles. mstep. reflexivity.
  - unfold isOldIE. destruct (isOldIE_memo σ) as [b|] eqn:Hm.
    + eexists _, _, (isOldIE_memo σ), (S (next_ref σ)).
      split; [|split; [lia|split; [reflexivity|auto]]].
      set (σ0 := after_prologue _ _ _ _).
      mstep. unfold alloc_ref. mstep.
      change (isOldIE_memo (with_attrsObjs _ _)) with (isOldIE_memo σ).
      rewrite Hm. mstep. unfold new_styles. mstep. subst σ0. reflexivity.
    + eexists _, _, (Some (oldIE env)), (S (next_ref σ)).
      split; [|split; [lia|split; [reflexivity|auto]]].
      mstep. unfold alloc_ref. mstep.
      change (isOldIE_memo (with_attrsObjs _ _)) with (isOldIE_memo σ).
      rewrite Hm. mstep. unfold new_styles. mstep. reflexivity.
Qed.

End Install.

(** ** When the entry point throws *)


(** ** Removing elements *)

Section Remove.
Context (env : Env).

Lemma removeStyleElement_spec el p σ :
  parent σ !! el = Some p →
  ∃ σ', removeStyleElement el σ = Return tt σ'
        ∧ taken_out el p σ σ' ∧ revoked σ' = revoked σ.
Proof.
  intros Hp. unfold removeStyleElement. rewrite Hp.
  eexists. split; [done|]. unfold detach. rewrite Hp. simpl.
  split; [|done]. split; [done|]. split; [|done].
  intros t x. unfold children_of at 1. simpl.
  destruct (decide (t = p)) as [->|Hne].
  - rewrite lookup_insert_eq. simpl. rewrite list_elem_of_filter.
    split.
    + intros [Hx Hin]. split; [done|]. intros [-> _]. done.
    + intros [Hin Hx]. split; [|done]. intros ->. by apply Hx.
  - rewrite lookup_insert_ne by done. fold (children_of σ t).
    split; [|tauto]. intros Hin. split; [done|]. intros [_ ->]. done.
Qed.

(** Removal through a handle that owns its element: the element is
    taken out, and a link's current object URL is revoked. *)
Lemma handle_remove_spec h p σ :
  is_singleton_slot h = false → parent σ !! h_el h = Some p →
  ∃ σ', handle_remove env h σ = Return tt σ'
        ∧ taken_out (h_el h) p σ σ'
        ∧ revoked σ'
          = (if is_link h
             then match href_of σ (h_el h) with
                  | Some u => {[u]} ∪ revoked σ
                  | None => revoked σ
                  end
             else revoked σ).
Proof.
  intros Hs Hp. unfold handle_remove, is_singleton_slot, is_link in *.
  destruct (removeStyleElement_spec (h_el h) p σ Hp) as (σ1 & H1 & Hout & Hr).
  destruct (h_strategy h) as [i|o|]; [done| |].
  - mstep. rewrite H1. mstep.
    assert (Hh : href_of σ1 (h_el h) = href_of σ (h_el h)).
    { unfold href_of. destruct Hout as (_ & _ & -> & _). done. }
    rewrite Hh. destruct (href_of σ (h_el h)) as [u|].
    + unfold revokeObjectURL. mstep. eexists. split; [done|].
      split; [exact Hout|]. simpl. by rewrite Hr.
    + mstep. eexists. split; [done|]. by split.
  - exists σ1. by split.
Qed.

Lemma taken_out_detached el p σ σ' :
  dom_wf σ → parent σ !! el = Some p → taken_out el p σ σ' →
  detached σ' el ∧ dom_wf σ'
  ∧ (∀ x, detached σ x → detached σ' x)
  ∧ (∀ x, x ≠ el → parent σ' !! x = parent σ !! x).
Proof.
  intros [Hsync Hbound] Hp (Hpar & Hkids & _ & _ & Hnext & _).
  assert (Hel : detached σ' el).
  { split; [by rewrite Hpar, lookup_delete_eq|].
    intros t Hin. apply Hkids in Hin as [Hin Hne].
    apply Hne. split; [done|]. apply Hsync in Hin. congruence. }
  split; [done|]. split; [|split].
  - split.
    + intros x t Hin. apply Hkids in Hin as [Hin Hne].
      pose proof (Hsync _ _ Hin) as Hx.
      rewrite Hpar, lookup_delete_ne; [done|].
      intros ->. apply Hne. split; [done|]. congruence.
    + intros x [t Hx]. rewrite Hnext. apply Hbound.
      rewrite Hpar in Hx. apply lookup_delete_Some in Hx as [_ Hx].
      by eexists.
  - intros x [Hx1 Hx2]. split.
    + rewrite Hpar. destruct (decide (el = x)) as [->|Hne].
      * by rewrite lookup_delete_eq.
      * by rewrite lookup_delete_ne.
    + intros t Hin. apply Hkids in Hin as [Hin _]. by apply (Hx2 t).
  - intros x Hne. rewrite Hpar. by rewrite lookup_delete_ne.
Qed.

(** A handle called with a part that is field-wise the part it holds
    does nothing at all. *)
Lemma updateStyle_same_part h p σ :
  css p = css (h_obj h) → media p = media (h_obj h) →
  sourceMap p = sourceMap (h_obj h) →
  updateStyle env h (Some p) σ = Return h σ.
Proof.
  intros H1 H2 H3. unfold updateStyle.
  by rewrite !bool_decide_eq_true_2 by done.
Qed.

(** A handle called with a part never throws, and leaves the tree, the
    registry and the allocation counters alone. *)
Lemma updateStyle_part_keeps h p σ :
  ∃ h' σ', updateStyle env h (Some p) σ = Return h' σ'
           ∧ h_el h' = h_el h ∧ h_strategy h' = h_strategy h
           ∧ parent σ' = parent σ ∧ children σ' = children σ
           ∧ entries σ' = entries σ ∧ cache σ' = cache σ
           ∧ next_node σ' = next_node σ.
Proof.
  unfold updateStyle.
  destruct (bool_decide (css p = css (h_obj h))
            && bool_decide (media p = media (h_obj h))
            && bool_decide (sourceMap p = sourceMap (h_obj h))).
  - by eexists _, _.
  - destruct (handle_update_keeps env h p σ)
      as (σ' & Hu & Hm & Hp & Hk & Ht & Hse).
    mstep. rewrite Hu. mstep. eexists _, σ'. split; [done|].
    pose proof (λ B (f : state → B) H1 H2 H3 H4,
      preserves_Return _ f _ _ _
        (handle_update_preserves env f H1 H2 H3 H4 h p) Hu) as Hf.
    rewrite (Hf _ entries), (Hf _ cache), (Hf _ next_node) by done.
    done.
Qed.

End Remove.

(** ** Calling the handles of an entry *)



Lemma state_eta σ :
  with_entries (entries σ) σ = σ.
Proof. by destruct σ. Qed.

Lemma set_parts_id d : set_parts (parts d) d = d.
Proof. by destruct d. Qed.

Section Invoke.
Context (env : Env).

(** Calling the handle at index [i] for a removal is the removal
    itself: what is written back is the handle as it was. *)
Lemma invoke_part_remove e i d h σ σ' :
  entries σ !! e = Some d → parts d !! i = Some h →
  handle_remove env h σ = Return tt σ' →
  invoke_part env e i None σ = Return tt σ'.
Proof.
  intros He Hi Hr. unfold invoke_part. mstep.
  unfold entry_parts. rewrite He, Hi. unfold updateStyle. mstep.
  rewrite Hr. mstep. f_equal.
  assert (Hent : entries σ' = entries σ).
  { apply (preserves_Return _ entries _ _ _
             (handle_remove_preserves env entries
                ltac:(done) ltac:(done) ltac:(done) ltac:(done)
                ltac:(done) ltac:(done) h) Hr). }
  unfold upd_entry. rewrite alter_id; [apply state_eta|].
  intros x Hx. rewrite Hent, He in Hx. injection Hx as <-.
  rewrite list_insert_id by done. apply set_parts_id.
Qed.

Lemma invoke_part_update e i d h p h' σ σ' :
  entries σ !! e = Some d → parts d !! i = Some h →
  updateStyle env h (Some p) σ = Return h' σ' →
  invoke_part env e i (Some p) σ
  = Return tt (upd_entry e (λ d, set_parts (<[i := h']> (parts d)) d) σ').
Proof.
  intros He Hi Hr. unfold invoke_part. mstep.
  unfold entry_parts. rewrite He, Hi. mstep. rewrite Hr. by mstep.
Qed.

(** The removal loop over the handles from index [j] on does what
    removing these handles one after the other does. *)
Lemma removal_loop e d hs j σ σ' :
  entries σ !! e = Some d → drop j (parts d) = hs →
  forM (handle_remove env) hs σ = Return tt σ' →
  forM (λ i, invoke_part env e i None) (seq j (length hs)) σ = Return tt σ'.
Proof.
  revert j σ. induction hs as [|h hs IH]; intros j σ He Hd Hr; simpl in *.
  - done.
  - apply bind_Return in Hr as ([] & σ1 & H1 & Hr).
    assert (Hj : parts d !! j = Some h).
    { rewrite <- (Nat.add_0_r j), <- lookup_drop, Hd. done. }
    rewrite bind_eq, (invoke_part_remove e j d h σ σ1 He Hj H1).
    apply IH; [|  |done].
    + rewrite <- He.
      f_equal.
      apply (preserves_Return _ entries _ _ _
               (handle_remove_preserves env entries
                  ltac:(done) ltac:(done) ltac:(done) ltac:(done)
                  ltac:(done) ltac:(done) h) H1).
    + rewrite (drop_S _ _ _ Hj) in Hd. by injection Hd.
Qed.

(** Removing in turn handles that own distinct attached elements
    returns and takes all their elements out of the document. *)
Lemma remove_all_spec hs σ :
  dom_wf σ → NoDup (h_el <$> hs) → Forall (owns_attached σ) hs →
  ∃ σ', forM (handle_remove env) hs σ = Return tt σ'
        ∧ dom_wf σ'
        ∧ Forall (λ h, detached σ' (h_el h)) hs
        ∧ (∀ x, detached σ x → detached σ' x)
        ∧ (∀ x, x ∉ h_el <$> hs → parent σ' !! x = parent σ !! x)
        ∧ nodes σ' = nodes σ ∧ blobs σ' = blobs σ
        ∧ next_node σ' = next_node σ ∧ cache σ' = cache σ
        ∧ entries σ' = entries σ ∧ next_ref σ' = next_ref σ
        ∧ (∀ u, u ∈ revoked σ' ↔
             u ∈ revoked σ
             ∨ ∃ h, h ∈ hs ∧ is_link h = true
                    ∧ href_of σ (h_el h) = Some u).
Proof.
  revert σ. induction hs as [|h hs IH]; intros σ Hwf Hnd Hall; simpl.
  - exists σ. split; [done|]. split; [done|]. split; [done|].
    repeat (split; [done|]). intros u. split; [by left|].
    intros [?|(h & Hh & _)]; [done|]. by apply elem_of_nil in Hh.
  - apply Forall_cons in Hall as [[Hs [p Hp]] Hall].
    rewrite fmap_cons in Hnd. apply NoDup_cons in Hnd as [Hnotin Hnd].
    destruct (handle_remove_spec env h p σ Hs Hp) as (σ1 & H1 & Hout & Hrev).
    destruct (taken_out_detached _ _ _ _ Hwf Hp Hout)
      as (Hdet1 & Hwf1 & Hkeep1 & Hpar1).
    assert (Hall1 : Forall (owns_attached σ1) hs).
    { apply Forall_forall. intros h' Hh'.
      rewrite Forall_forall in Hall. destruct (Hall h' Hh') as [Hs' Hp'].
      split; [done|]. rewrite Hpar1; [done|].
      intros Heq. apply Hnotin. rewrite <- Heq. by apply list_elem_of_fmap_2. }
    destruct (IH σ1 Hwf1 Hnd Hall1)
      as (σ' & Hr & Hwf' & Hdet & Hkeep & Hpar & Hn & Hb & Hnn & Hc & He
          & Hnr & Hrevs).
    destruct Hout as (_ & _ & Hn1 & Hb1 & Hnn1 & Hc1 & He1 & Hnr1).
    exists σ'. rewrite bind_eq, H1. split; [done|]. split; [done|].
    split; [constructor; [by apply Hkeep|done]|].
    split; [intros x Hx; by apply Hkeep, Hkeep1|].
    split.
    { intros x Hx. rewrite not_elem_of_cons in Hx. destruct Hx as [Hx1 Hx2].
      rewrite Hpar by done. by apply Hpar1. }
    rewrite Hn, Hb, Hnn, Hc, He, Hnr.
    repeat (split; [done|]).
    intros u. rewrite Hrevs, Hrev.
    assert (Hhref : ∀ h', href_of σ1 (h_el h') = href_of σ (h_el h')).
    { intros h'. unfold href_of. by rewrite Hn1. }
    split.
    + intros [Hu|(h' & Hh' & Hl & Hu)].
      * destruct (is_link h) eqn:Hl; [|by left].
        destruct (href_of σ (h_el h)) as [u'|] eqn:Hu'; [|by left].
        apply elem_of_union in Hu as [Hu|Hu]; [|by left].
        apply elem_of_singleton in Hu as ->. right. exists h.
        split; [left|]. done.
      * right. exists h'. split; [by right|]. by rewrite <- Hhref.
    + intros [Hu|(h' & Hh' & Hl & Hu)].
      * left. destruct (is_link h); [|done].
        destruct (href_of σ (h_el h)); [|done].
        apply elem_of_union. by right.
      * apply elem_of_cons in Hh' as [->|Hh'].
        -- left. rewrite Hl, Hu. apply elem_of_union. left.
           by apply elem_of_singleton.
        -- right. exists h'. by rewrite Hhref.
Qed.

End Invoke.

(** ** Refreshing a tracked module *)

Section Refresh.
Context (env : Env).

(** The handles below index [k] are called with the parts at their
    indices: the tree stays as it is and the handles from [k] on are not
    touched. *)
Lemma refresh_updates e (ps : list Part) k js :
  ∀ σ d,
    entries σ !! e = Some d →
    Forall (λ j, j < k ∧ j < length (parts d) ∧ is_Some (ps !! j)) js →
    ∃ σ' d',
      forM (λ j, invoke_part env e j (ps !! j)) js σ = Return tt σ'
      ∧ entries σ' !! e = Some d' ∧ refs d' = refs d
      ∧ length (parts d') = length (parts d)
      ∧ drop k (parts d') = drop k (parts d)
      ∧ parent σ' = parent σ ∧ children σ' = children σ
      ∧ next_node σ' = next_node σ ∧ cache σ' = cache σ.
Proof.
  induction js as [|j js IH]; intros σ d He Hjs; simpl.
  - by exists σ, d.
  - apply Forall_cons in Hjs as [(Hjk & Hjl & [p Hp]) Hjs].
    destruct (lookup_lt_is_Some_2 _ _ Hjl) as [h Hh].
    destruct (updateStyle_part_keeps env h p σ)
      as (h' & σ1 & Hu & _ & _ & Hpar & Hkids & Hent & Hc & Hn).
    rewrite bind_eq, Hp, (invoke_part_update env e j d h p h' σ σ1 He Hh Hu).
    set (d1 := set_parts (<[j := h']> (parts d)) d).
    set (σ2 := upd_entry e _ σ1).
    assert (He2 : entries σ2 !! e = Some d1).
    { subst σ2. unfold upd_entry. simpl.
      by rewrite lookup_alter_eq, Hent, He. }
    assert (Hlen : length (parts d1) = length (parts d)).
    { subst d1. simpl. apply length_insert. }
    destruct (IH σ2 d1 He2) as (σ' & d' & Hr & He' & Hrefs & Hl & Hd & H1 & H2
                                 & H3 & H4).
    { eapply Forall_impl; [exact Hjs|]. intros i (? & ? & ?).
      rewrite Hlen. done. }
    exists σ', d'. split; [done|]. split; [done|].
    split; [by rewrite Hrefs|]. split; [by rewrite Hl|].
    split.
    { rewrite Hd. subst d1. simpl. by apply drop_insert_lt. }
    rewrite H1, H2, H3, H4. subst σ2. simpl. done.
Qed.


End Refresh.

(** ** Parts with elements of their own *)

Section Own.
Context (env : Env).

(** What [addStyle] does outside singleton mode: it creates the next
    node, puts it into the target, and for a link creates one object
    URL, which becomes the href. *)
Lemma addStyle_own_spec p options σ h σ' :
  singleton options = false → dom_wf σ →
  addStyle env p options σ = Return h σ' →
  let el := next_node σ in
  ∃ t,
    h_el h = el ∧ is_singleton_slot h = false
    ∧ next_node σ' = S el
    ∧ parent σ' = <[el := t]> (parent σ)
    ∧ (∀ t' x, x ∈ children_of σ' t'
               ↔ (x = el ∧ t' = t) ∨ x ∈ children_of σ t')
    ∧ (∀ x, x ≠ el → nodes σ' !! x = nodes σ !! x)
    ∧ revoked σ' = revoked σ
    ∧ (if is_link h
       then length (blobs σ') = S (length (blobs σ))
            ∧ href_of σ' el = Some (length (blobs σ))
       else blobs σ' = blobs σ).
Proof.
  intros Hs [Hsync Hbound] Hr el.
  assert (Hfresh : parent σ !! el = None).
  { destruct (parent σ !! el) as [t|] eqn:Hp; [|done].
    assert (el < next_node σ) by (apply Hbound; by eexists). subst el. lia. }
  unfold addStyle in Hr. rewrite Hs in Hr.
  assert (Hgen : ∃ create tg σc strat,
    (create = createStyleElement env ∧ tg = StyleTag ∧ strat = InlineTag
     ∨ create = createLinkElement env ∧ tg = LinkTag
       ∧ strat = BlobLink options)
    ∧ create options σ = Return el σc
    ∧ h = {| h_el := el; h_strategy := strat; h_obj := p |}
    ∧ handle_update env h p σc = Return tt σ').
  { destruct (truthy_opt (sourceMap p) && has_blob_api env).
    - apply bind_Return in Hr as (el' & σc & Hc & Hr).
      cbn zeta in Hr. apply bind_Return in Hr as ([] & σd & Hu & Hr).
      injection Hr as <- <-.
      destruct (create_element_spec env (createLinkElement env) LinkTag
                  options σ el' σc ltac:(by right) Hc) as (-> & _).
      exists (createLinkElement env), LinkTag, σc, (BlobLink options).
      split; [right; done|]. done.
    - apply bind_Return in Hr as (el' & σc & Hc & Hr).
      cbn zeta in Hr. apply bind_Return in Hr as ([] & σd & Hu & Hr).
      injection Hr as <- <-.
      destruct (create_element_spec env (createStyleElement env) StyleTag
                  options σ el' σc ltac:(by left) Hc) as (-> & _).
      exists (createStyleElement env), StyleTag, σc, InlineTag.
      split; [left; done|]. done. }
  destruct Hgen as (create & tg & σc & strat & Hcase & Hc & -> & Hu).
  assert (Hcs : create = createStyleElement env ∧ tg = StyleTag
                ∨ create = createLinkElement env ∧ tg = LinkTag)
    by (destruct Hcase as [(? & ? & _)|(? & ? & _)]; auto).
  destruct (create_element_spec env create tg options σ el σc Hcs Hc)
    as (_ & Hnext & Hcont & Hother & σ0 & Hins & Hp0 & Hk0 & Ht0 & Hm0).
  destruct (insertStyleElement_Return_facts env options el σ0 σc Hins)
    as (t & _ & _ & _ & _ & Hdet).
  destruct (Hdet ltac:(by rewrite Hp0)) as [Hpar Hkids].
  set (h := {| h_el := el; h_strategy := strat; h_obj := p |}) in *.
  destruct (handle_update_keeps env h p σc)
    as (σ'' & Hu' & _ & Hpar' & Hkids' & _ & _).
  rewrite Hu in Hu'. injection Hu' as <-.
  pose proof (λ B (f : state → B) H1 H2 H3 H4,
    preserves_Return _ f _ _ _
      (handle_update_preserves env f H1 H2 H3 H4 h p) Hu) as Hf.
  pose proof (λ B (f : state → B) H1 H2 H3 H4 H5 H6 H7,
    preserves_Return _ f _ _ _
      (match Hcs with
       | or_introl (conj Hc' _) =>
           eq_ind_r (λ c, preserves (c options) f)
             (createStyleElement_preserves env f H1 H2 H3 H4 H5 H6 H7 options)
             Hc'
       | or_intror (conj Hc' _) =>
           eq_ind_r (λ c, preserves (c options) f)
             (createLinkElement_preserves env f H1 H2 H3 H4 H5 H6 H7 options)
             Hc'
       end) Hc) as Hfc.
  subst h. exists t. split; [done|]. split; [by destruct Hcase as [(_ & _ & ->)|(_ & _ & ->)]|].
  split; [by rewrite (Hf _ next_node)|].
  split; [by rewrite Hpar', Hpar, Hp0|].
  split.
  { intros t' x. unfold children_of at 1. rewrite Hkids'.
    fold (children_of σc t'). rewrite Hkids. unfold children_of.
    by rewrite Hk0. }
  assert (Hnodes : ∀ x, x ≠ el → nodes σ' !! x = nodes σc !! x).
  { intros x Hx. clear Hf Hfc.
    destruct Hcase as [(_ & _ & ->)|(_ & _ & ->)];
      unfold handle_update in Hu; cbn [h_strategy h_el] in Hu.
    - unfold applyToTag in Hu.
      apply bind_Return in Hu as ([] & σ1 & H1 & Hu).
      assert (H1' : nodes σ1 !! x = nodes σc !! x).
      { destruct (truthy (media p)).
        - unfold setAttribute, modify in H1. injection H1 as <-.
          unfold upd_node. simpl. by rewrite lookup_alter_ne.
        - by injection H1 as <-. }
      rewrite <- H1'.
      destruct (has_styleSheet env); unfold modify in Hu;
        injection Hu as <-; unfold upd_node; simpl;
        by rewrite lookup_alter_ne.
    - unfold updateLink, updateLink_states in Hu. injection Hu as <-.
      destruct (href_of σc el); simpl; unfold upd_node; simpl;
        by rewrite lookup_alter_ne. }
  split; [intros x Hx; by rewrite Hnodes, Hother|].
  destruct Hcase as [(_ & _ & ->)|(_ & _ & ->)];
    unfold is_link; cbn [h_strategy].
  - (* a style element *)
    split.
    + rewrite <- (Hfc _ revoked) by done.
      unfold handle_update in Hu. cbn [h_strategy h_el] in Hu.
      apply (preserves_Return _ revoked _ _ _
               (applyToTag_preserves env revoked ltac:(done) el p) Hu).
    + rewrite <- (Hfc _ blobs) by done.
      unfold handle_update in Hu. cbn [h_strategy h_el] in Hu.
      apply (preserves_Return _ blobs _ _ _
               (applyToTag_preserves env blobs ltac:(done) el p) Hu).
  - (* a link *)
    unfold handle_update in Hu. cbn [h_strategy h_el] in Hu.
    unfold node_content in Hcont.
    destruct (nodes σc !! el) as [e|] eqn:He; [|done].
    injection Hcont as _ _ _ Hhref.
    destruct (updateLink_steps env el options p σc e He)
      as (Hsteps & _ & _ & Hh2 & Hr2).
    unfold updateLink in Hu. rewrite Hsteps, Hhref in Hu. simpl in Hu.
    injection Hu as <-.
    assert (Hbl : blobs σc = blobs σ) by (by apply (Hfc _ blobs)).
    split; [rewrite Hr2; by apply (Hfc _ revoked)|].
    split.
    + simpl. rewrite length_app, Hbl. simpl. lia.
    + by rewrite Hh2, Hbl.
Qed.

(** Adding a part keeps the account of elements and URLs, with the new
    handle at the end of the list. *)
Lemma live_add n0 b0 hs p options σ h σ' :
  singleton options = false →
  live_inv n0 b0 hs σ →
  addStyle env p options σ = Return h σ' →
  live_inv n0 b0 (hs ++ [h]) σ'.
Proof.
  intros Hs (Hwf & Hnd & Hown & Hel & Hurl) Hr.
  destruct (addStyle_own_spec p options σ h σ' Hs Hwf Hr)
    as (t & Hhel & Hhs & Hnext & Hpar & Hkids & Hnodes & Hrev & Hlink).
  destruct Hwf as [Hsync Hbound].
  set (el := next_node σ) in *.
  assert (Hfresh : ∀ x, is_Some (parent σ !! x) → x ≠ el).
  { intros x Hx ->. apply Hbound in Hx. subst el. lia. }
  assert (Hold : ∀ h', h' ∈ hs → h_el h' ≠ el).
  { intros h' Hh'. apply Hfresh. rewrite Forall_forall in Hown.
    by destruct (Hown h' Hh'). }
  assert (Hhref : ∀ h', h' ∈ hs →
            href_of σ' (h_el h') = href_of σ (h_el h')).
  { intros h' Hh'. unfold href_of. by rewrite Hnodes by by apply Hold. }
  split; [|split; [|split; [|split]]].
  - split.
    + intros x t' Hx. apply Hkids in Hx as [[-> ->]|Hx].
      * by rewrite Hpar, lookup_insert_eq.
      * pose proof (Hsync _ _ Hx) as Hp.
        rewrite Hpar, lookup_insert_ne; [done|].
        intros <-. by apply (Hfresh el).
    + intros x Hx. rewrite Hnext. rewrite Hpar in Hx.
      destruct (decide (el = x)) as [<-|Hne]; [lia|].
      rewrite lookup_insert_ne in Hx by done. apply Hbound in Hx. lia.
  - rewrite fmap_app. apply NoDup_app. split; [done|]. split.
    + intros x Hx. simpl. rewrite list_elem_of_singleton, Hhel.
      apply list_elem_of_fmap in Hx as (h' & -> & Hh'). by apply Hold.
    + apply NoDup_singleton.
  - apply Forall_app. split.
    + apply Forall_forall. intros h' Hh'. rewrite Forall_forall in Hown.
      destruct (Hown h' Hh') as [? Hp]. split; [done|].
      rewrite Hpar, lookup_insert_ne; [done|].
      intros Heq. by apply (Hold h' Hh').
    + constructor; [|done]. split; [done|].
      rewrite Hhel, Hpar, lookup_insert_eq. by eexists.
  - intros x Hx. rewrite Hnext in Hx. rewrite fmap_app, elem_of_app. simpl.
    destruct (decide (x = el)) as [->|Hne].
    { right. right. rewrite Hhel. left. }
    destruct (Hel x ltac:(subst el; lia)) as [[Hp Hk]|Hin].
    + left. split.
      * by rewrite Hpar, lookup_insert_ne.
      * intros t' Hin. apply Hkids in Hin as [[? _]|Hin]; [done|].
        by apply (Hk t').
    + right. by left.
  - intros u Hu.
    assert (Hcase : u < length (blobs σ)
                    ∨ (is_link h = true ∧ u = length (blobs σ)
                       ∧ href_of σ' el = Some u)).
    { destruct (is_link h).
      - destruct Hlink as [Hlen Hh]. rewrite Hlen in Hu.
        destruct (decide (u = length (blobs σ))) as [->|Hne]; [by right|].
        left. lia.
      - rewrite Hlink in Hu. left. lia. }
    destruct Hcase as [Hlt|(Hl & -> & Hh)].
    + destruct (Hurl u ltac:(lia)) as [Hin|(h' & Hh' & Hl' & Hu')].
      * left. by rewrite Hrev.
      * right. exists h'. split; [apply elem_of_app; by left|].
        split; [done|]. by rewrite Hhref.
    + right. exists h. split; [apply elem_of_app; right; left|].
      split; [done|]. by rewrite Hhel.
Qed.

Lemma live_add_parts n0 b0 options ps :
  singleton options = false →
  ∀ hs0 σ hs σ',
    live_inv n0 b0 hs0 σ →
    mapM' (λ p, addStyle env p options) ps σ = Return hs σ' →
    live_inv n0 b0 (hs0 ++ hs) σ'
    ∧ cache σ' = cache σ ∧ entries σ' = entries σ
    ∧ next_ref σ' = next_ref σ ∧ isOldIE_memo σ' = isOldIE_memo σ.
Proof.
  intros Hs. induction ps as [|p ps IH]; intros hs0 σ hs σ' Hinv Hr;
    simpl in Hr.
  - injection Hr as <- <-. by rewrite app_nil_r.
  - apply bind_Return in Hr as (h & σ1 & H1 & Hr).
    apply bind_Return in Hr as (hs' & σ2 & H2 & Hr).
    injection Hr as <- <-.
    pose proof (live_add n0 b0 hs0 p options σ h σ1 Hs Hinv H1) as Hinv1.
    destruct (IH _ _ _ _ Hinv1 H2) as (Hinv2 & Hc & He & Hn & Hm).
    destruct (addStyle_registry env _ _ _ _ _ H1) as (Hc1 & He1 & Hn1).
    split.
    { replace (hs0 ++ h :: hs') with ((hs0 ++ [h]) ++ hs'); [done|].
      by rewrite <- app_assoc. }
    rewrite Hc, He, Hn, Hm, Hc1, He1, Hn1.
    repeat (split; [done|]).
    pose proof (λ H1' H2' H3 H4 H5 H6 H7 H8 H9 H10 H11 H12,
      preserves_Return _ isOldIE_memo _ _ _
        (addStyle_preserves env isOldIE_memo H1' H2' H3 H4 H5 H6 H7 H8 H9
           H10 H11 H12 p options) H1) as Hf.
    by apply Hf.
Qed.

End Own.

(** ** Sessions: installing and tearing down *)

Section RegistryFresh.
Implicit Types (cache : gmap Z (list (nat * nat))) (d : Style) (e r : nat).

Lemma get_ext cache d d' :
  s_id d = s_id d' → s_ref d = s_ref d' →
  stylesInDom_get cache d = stylesInDom_get cache d'.
Proof. intros Hi Hr. unfold stylesInDom_get. by rewrite Hi, Hr. Qed.

(** Registering a descriptor that is not in the registry leaves every
    lookup that succeeds as it is. *)
Lemma get_set_miss cache d d' e e' :
  stylesInDom_get cache d = None →
  stylesInDom_get cache d' = Some e' →
  stylesInDom_get (stylesInDom_set cache d e) d' = Some e'.
Proof.
  intros Hmiss Hget.
  destruct (decide (s_ref d' = s_ref d)) as [Hr|Hr].
  - destruct (decide (s_id d' = s_id d)) as [Hi|Hi].
    + rewrite (get_ext cache d' d) in Hget by done. congruence.
    + unfold stylesInDom_get, stylesInDom_set in *.
      destruct (cache !! s_id d) as [b|].
      * destruct (replace_first (s_ref d) e b);
          by rewrite lookup_insert_ne.
      * by rewrite lookup_insert_ne.
  - by rewrite get_set_ne.
Qed.

Lemma replace_first_elem r e (l l' : list (nat * nat)) x :
  replace_first r e l = Some l' → x ∈ l' → x = (r, e) ∨ x ∈ l.
Proof.
  revert l'. induction l as [|s l IH]; intros l'; simpl; [done|].
  destruct (decide (s.1 = r)) as [Hs|Hs].
  - intros [= <-] Hx. apply elem_of_cons in Hx as [->|Hx].
    + left. by rewrite Hs.
    + right. by right.
  - destruct (replace_first r e l) as [l0|]; simpl; [|done].
    intros [= <-] Hx. apply elem_of_cons in Hx as [->|Hx].
    + right. left.
    + destruct (IH l0 eq_refl Hx); [by left|]. right. by right.
Qed.

Lemma set_bucket_elem cache d e i bucket x :
  stylesInDom_set cache d e !! i = Some bucket → x ∈ bucket →
  x = (s_ref d, e) ∨ ∃ b, cache !! i = Some b ∧ x ∈ b.
Proof.
  unfold stylesInDom_set.
  destruct (cache !! s_id d) as [b|] eqn:Hb.
  - destruct (replace_first (s_ref d) e b) as [b'|] eqn:Hr.
    + destruct (decide (s_id d = i)) as [<-|Hne].
      * rewrite lookup_insert_eq. intros [= <-] Hx.
        destruct (replace_first_elem _ _ _ _ _ Hr Hx); [by left|].
        right. by exists b.
      * rewrite lookup_insert_ne by done. intros Hi Hx. right. by exists bucket.
    + destruct (decide (s_id d = i)) as [<-|Hne].
      * rewrite lookup_insert_eq. intros [= <-] Hx.
        apply elem_of_app in Hx as [Hx|Hx].
        -- right. by exists b.
        -- apply list_elem_of_singleton in Hx. by left.
      * rewrite lookup_insert_ne by done. intros Hi Hx. right. by exists bucket.
  - destruct (decide (s_id d = i)) as [<-|Hne].
    + rewrite lookup_insert_eq. intros [= <-] Hx.
      apply list_elem_of_singleton in Hx. by left.
    + rewrite lookup_insert_ne by done. intros Hi Hx. right. by exists bucket.
Qed.

Lemma delete_bucket cache i e j bucket :
  stylesInDom_delete cache i e !! j = Some bucket → cache !! j = Some bucket.
Proof.
  unfold stylesInDom_delete.
  destruct (cache !! i) as [b|] eqn:Hb.
  - destruct (filter (λ s, s.2 ≠ e) b); [|done].
    intros H. by apply lookup_delete_Some in H as [_ H].
  - intros H. by apply lookup_delete_Some in H as [_ H].
Qed.

End RegistryFresh.

Section Session.
Context (env : Env) (n0 b0 : nat).

Lemma handles_of_app L1 L2 :
  handles_of (L1 ++ L2) = handles_of L1 ++ handles_of L2.
Proof. unfold handles_of. by rewrite fmap_app, concat_app. Qed.

Lemma handles_of_snoc L d e hs :
  handles_of (L ++ [(d, e, hs)]) = handles_of L ++ hs.
Proof. rewrite handles_of_app. unfold handles_of. simpl. by rewrite app_nil_r. Qed.

(** Registering the handles of a new descriptor. *)
Lemma reg_inv_registered L d hs σ :
  reg_inv L σ →
  stylesInDom_get (cache σ) d = None → s_ref d < next_ref σ →
  reg_inv (L ++ [(d, next_ref σ, hs)]) (registered d hs σ).
Proof.
  intros ([Hc He] & Htr & Hnd) Hmiss Href.
  assert (Hlt : ∀ t, t ∈ L → t.1.2 < next_ref σ).
  { intros t Ht. rewrite Forall_forall in Htr.
    destruct (Htr t Ht) as (_ & x & Hx & _). apply He. by eexists. }
  split; [|split].
  - split; simpl.
    + intros i bucket r e Hb Hin.
      destruct (set_bucket_elem _ _ _ _ _ _ Hb Hin) as [[= -> ->]|(b & Hb' & Hin')].
      * lia.
      * destruct (Hc _ _ _ _ Hb' Hin'). lia.
    + intros e [x Hx].
      destruct (decide (e = next_ref σ)) as [->|Hne]; [lia|].
      rewrite lookup_insert_ne in Hx by done.
      assert (e < next_ref σ) by (apply He; by eexists). lia.
  - apply Forall_app. split.
    + apply Forall_forall. intros t Ht. rewrite Forall_forall in Htr.
      destruct (Htr t Ht) as (Hget & x & Hx & Hrefs & Hparts).
      split; simpl.
      * by apply get_set_miss.
      * exists x. rewrite lookup_insert_ne; [done|].
        specialize (Hlt t Ht). lia.
    + constructor; [|done]. split; simpl.
      * apply get_set_eq.
      * eexists. rewrite lookup_insert_eq. done.
  - rewrite !fmap_app. simpl. apply NoDup_app. split; [done|]. split.
    + intros e Hin. rewrite list_elem_of_singleton. intros Heq.
      apply list_elem_of_fmap in Hin as ([d' e'] & He' & Hin).
      apply list_elem_of_fmap in Hin as (t & Ht & Hin).
      specialize (Hlt t Hin). rewrite <- Ht in Hlt. simpl in *. lia.
    + apply NoDup_singleton.
Qed.

(** Adding descriptors that the registry does not know. *)
Lemma add_styles_inv options ds :
  singleton options = false →
  ∀ L σ σ',
    reg_inv L σ → live_inv n0 b0 (handles_of L) σ →
    Forall (λ d, stylesInDom_get (cache σ) d = None ∧ s_ref d < next_ref σ)
      ds →
    NoDup (s_ref <$> ds) →
    addStylesToDom env ds options σ = Return tt σ' →
    ∃ Ld, Ld.*1.*1 = ds ∧ reg_inv (L ++ Ld) σ'
          ∧ live_inv n0 b0 (handles_of (L ++ Ld)) σ'
          ∧ isOldIE_memo σ' = isOldIE_memo σ.
Proof.
  intros Hs. unfold addStylesToDom.
  induction ds as [|d ds IH]; intros L σ σ' Hreg Hlive Hfresh Hnd Hr;
    simpl in Hr.
  - injection Hr as <-. exists []. by rewrite app_nil_r.
  - apply Forall_cons in Hfresh as [[Hmiss Href] Hfresh].
    rewrite fmap_cons in Hnd. apply NoDup_cons in Hnd as [Hnotin Hnd].
    apply bind_Return in Hr as ([] & σ2 & H2 & Hr).
    rewrite (addStylesToDom_one_miss env d options σ Hmiss) in H2.
    apply bind_Return in H2 as (hs & σ1 & H1 & H2).
    rewrite modify_eq in H2. injection H2 as <-.
    destruct (live_add_parts env n0 b0 options (s_parts d) Hs _ _ _ _ Hlive H1)
      as (Hlive1 & Hc1 & He1 & Hn1 & Hm1).
    assert (Hreg1 : reg_inv L σ1).
    { destruct Hreg as ([Hc He] & Htr & Hnd').
      split; [|split; [|done]].
      - split.
        + rewrite Hc1, Hn1. apply Hc.
        + rewrite He1, Hn1. apply He.
      - eapply Forall_impl; [exact Htr|]. intros t (Hg & x & Hx & ?).
        split; [by rewrite Hc1|]. exists x. by rewrite He1. }
    assert (Hmiss1 : stylesInDom_get (cache σ1) d = None) by by rewrite Hc1.
    pose proof (reg_inv_registered L d hs σ1 Hreg1 Hmiss1
                  ltac:(by rewrite Hn1)) as Hreg2.
    destruct (IH (L ++ [(d, next_ref σ1, hs)]) (registered d hs σ1) σ')
      as (Ld & Hds & Hreg' & Hlive' & Hm'); [done| | |done|done|].
    + rewrite handles_of_snoc. exact Hlive1.
    + apply Forall_forall. intros d' Hd'. rewrite Forall_forall in Hfresh.
      destruct (Hfresh d' Hd') as [Hmiss' Href']. simpl. split; [|lia].
      rewrite get_set_ne, Hc1; [done|].
      intros Heq. apply Hnotin. rewrite <- Heq. by apply list_elem_of_fmap_2.
    + exists ((d, next_ref σ1, hs) :: Ld).
      split; [by rewrite !fmap_cons, Hds|].
      replace (L ++ (d, next_ref σ1, hs) :: Ld)
        with ((L ++ [(d, next_ref σ1, hs)]) ++ Ld)
        by (by rewrite <- app_assoc).
      split; [done|]. split; [done|]. by rewrite Hm'.
Qed.

Lemma effective_singleton_own options σ :
  own_elements env options → isOldIE_memo_wf env σ →
  singleton (effective_options env options σ) = false.
Proof.
  unfold own_elements, effective_options, effective_singleton. simpl.
  destruct (raw_singleton (default default_options options)) as [b|];
    [done|].
  intros Hold [-> | ->]; done.
Qed.

(** One call of the entry point. *)
Lemma install_inv LL items options σ c σ' :
  session_inv env n0 b0 LL σ → own_elements env options →
  install env items options σ = Return c σ' →
  ∃ Lc, Lc.*1.*1 = cl_styles c ∧ session_inv env n0 b0 (LL ++ [Lc]) σ'.
Proof.
  intros (Hmemo & Hreg & Hlive) Hown Hr.
  destruct (install_unfold env items options σ)
    as (a & r & m & base & Heq & Hbase & Hrr & Hm).
  cbn zeta in Heq. rewrite Heq in Hr. clear Heq.
  apply bind_Return in Hr as ([] & σ1 & H1 & Hr). injection Hr as <- <-.
  set (σ0 := after_prologue a r m σ) in *.
  assert (Hreg0 : reg_inv (concat LL) σ0).
  { destruct Hreg as ([Hc He] & Htr & Hnd). split; [|split; [|done]].
    - split; simpl.
      + intros i bucket r' e Hb Hin. destruct (Hc _ _ _ _ Hb Hin). lia.
      + intros e Hx. specialize (He e Hx). lia.
    - exact Htr. }
  destruct (add_styles_inv (effective_options env options σ)
              (listToStyles base items)
              (effective_singleton_own options σ Hown Hmemo)
              (concat LL) σ0 σ1 Hreg0 Hlive)
    as (Lc & Hds & Hreg1 & Hlive1 & Hm1); [| |done|].
  - apply Forall_forall. intros d Hd. split.
    + change (cache σ0) with (cache σ). apply get_fresh; [apply Hreg|].
      apply listToStyles_refs_ge in Hd. lia.
    + assert (Hin : s_ref d ∈ s_ref <$> listToStyles base items)
        by (by apply list_elem_of_fmap_2).
      rewrite listToStyles_refs in Hin. apply elem_of_seq in Hin.
      simpl. lia.
  - apply listToStyles_refs_NoDup.
  - exists Lc. split; [done|]. unfold session_inv.
    rewrite concat_app. simpl. rewrite app_nil_r.
    split; [|done]. unfold isOldIE_memo_wf. rewrite Hm1. simpl.
    destruct Hm as [-> | ->]; [exact Hmemo|by right].
Qed.

(** Removing the handles at the front of the account. *)
Lemma live_remove_all hs rest σ :
  live_inv n0 b0 (hs ++ rest) σ →
  ∃ σ', forM (handle_remove env) hs σ = Return tt σ'
        ∧ live_inv n0 b0 rest σ'
        ∧ entries σ' = entries σ ∧ cache σ' = cache σ
        ∧ next_ref σ' = next_ref σ.
Proof.
  intros (Hwf & Hnd & Hown & Hel & Hurl).
  rewrite fmap_app in Hnd. apply NoDup_app in Hnd as (Hnd1 & Hdisj & Hnd2).
  apply Forall_app in Hown as [Hown1 Hown2].
  destruct (remove_all_spec env hs σ Hwf Hnd1 Hown1)
    as (σ' & Hr & Hwf' & Hdet & Hkeep & Hpar & Hn & Hb & Hnn & Hc & He
        & Hnr & Hrevs).
  exists σ'. split; [done|]. split; [|done].
  split; [done|]. split; [done|]. split; [|split].
  - apply Forall_forall. intros h Hh. rewrite Forall_forall in Hown2.
    destruct (Hown2 h Hh) as [? Hp]. split; [done|].
    rewrite Hpar; [done|]. intros Hin. apply (Hdisj _ Hin).
    by apply list_elem_of_fmap_2.
  - intros x Hx. rewrite Hnn in Hx.
    destruct (Hel x Hx) as [Hd|Hin]; [left; by apply Hkeep|].
    rewrite fmap_app in Hin. apply elem_of_app in Hin as [Hin|Hin]; [|by right].
    left. apply list_elem_of_fmap in Hin as (h & -> & Hh).
    rewrite Forall_forall in Hdet. by apply Hdet.
  - intros u Hu. rewrite Hb in Hu.
    destruct (Hurl u Hu) as [Hin|(h & Hh & Hl & Hhref)].
    + left. apply Hrevs. by left.
    + apply elem_of_app in Hh as [Hh|Hh].
      * left. apply Hrevs. right. by exists h.
      * right. exists h. split; [done|]. split; [done|].
        unfold href_of in *. by rewrite Hn.
Qed.

(** The first loop of [update] takes one reference from every entry
    the closure tracks. *)
Lemma stage_removal_hit d e σ :
  stylesInDom_get (cache σ) d = Some e →
  stage_removal d σ
  = Return e (upd_entry e (λ d, set_refs (refs d - 1) d) σ).
Proof. intros H. unfold stage_removal. mstep. rewrite H. by mstep. Qed.

Lemma stage_all Lc :
  ∀ σ, Forall (tracked σ) Lc → NoDup (Lc.*1.*2) →
  ∃ σ1, mapM' stage_removal (Lc.*1.*1) σ = Return (Lc.*1.*2) σ1
        ∧ Forall (staged σ1) Lc
        ∧ (∀ e, e ∉ Lc.*1.*2 → entries σ1 !! e = entries σ !! e)
        ∧ σ1 = with_entries (entries σ1) σ.
Proof.
  induction Lc as [|[[d e] hs] Lc IH]; intros σ Htr Hnd.
  - exists σ. split; [done|]. split; [done|]. split; [done|].
    by destruct σ.
  - apply Forall_cons in Htr as [(Hget & x & Hx & Hrefs & Hparts) Htr].
    rewrite !fmap_cons in *. cbn [fst snd] in *.
    apply NoDup_cons in Hnd as [Hnotin Hnd].
    set (σa := upd_entry e (λ d, set_refs (refs d - 1) d) σ).
    assert (Hother : ∀ e', e' ≠ e → entries σa !! e' = entries σ !! e').
    { intros e' Hne. subst σa. unfold upd_entry. simpl.
      by rewrite lookup_alter_ne. }
    destruct (IH σa) as (σ1 & H1 & Hst & Hent & Hσ1); [|done|].
    { apply Forall_forall. intros t Ht. rewrite Forall_forall in Htr.
      destruct (Htr t Ht) as (Hg & y & Hy & ?).
      split; [done|]. exists y. rewrite Hother; [done|].
      intros Heq. apply Hnotin. rewrite <- Heq.
      apply list_elem_of_fmap_2. by apply list_elem_of_fmap_2. }
    exists σ1. rewrite mapM'_cons, bind_eq, (stage_removal_hit d e σ Hget).
    fold σa. rewrite bind_eq, H1. mstep. split; [done|]. split; [|split].
    + constructor; [|done]. unfold staged. cbn [fst snd].
      exists (set_refs (refs x - 1) x). rewrite Hent by done.
      subst σa. unfold upd_entry. simpl. rewrite lookup_alter_eq, Hx.
      simpl. rewrite Hrefs. done.
    + intros e' He'. rewrite not_elem_of_cons in He'. destruct He' as [? ?].
      rewrite Hent by done. by apply Hother.
    + rewrite Hσ1 at 1. by destruct σ.
Qed.

Lemma registry_fresh_delete σ v :
  registry_fresh σ →
  (∀ j bucket, v !! j = Some bucket → cache σ !! j = Some bucket) →
  registry_fresh (with_cache v σ).
Proof.
  intros [Hc He] Hv. split; simpl; [|done].
  intros i bucket r e Hb Hin. apply (Hc i bucket); [by apply Hv|done].
Qed.

(** The last loop of [update] on entries without a reference. *)
Lemma remove_staged Lc :
  ∀ Lrest σ,
    Forall (staged σ) Lc → reg_inv Lrest σ →
    NoDup ((Lc ++ Lrest).*1.*2) →
    live_inv n0 b0 (handles_of Lc ++ handles_of Lrest) σ →
    ∃ σ', forM (remove_if_unreferenced env) (Lc.*1.*2) σ = Return tt σ'
          ∧ reg_inv Lrest σ' ∧ live_inv n0 b0 (handles_of Lrest) σ'
          ∧ isOldIE_memo σ' = isOldIE_memo σ.
Proof.
  induction Lc as [|[[d e] hs] Lc IH]; intros Lrest σ Hst Hreg Hnd Hlive;
    simpl.
  - by exists σ.
  - apply Forall_cons in Hst as [(x & Hx & Hrefs & Hparts) Hst].
    simpl in *. apply NoDup_cons in Hnd as [Hnotin Hnd].
    unfold handles_of in Hlive. simpl in Hlive.
    fold (handles_of Lc) in Hlive. rewrite <- app_assoc in Hlive.
    destruct (live_remove_all hs _ σ Hlive)
      as (σ2 & H2 & Hlive2 & He2 & Hc2 & Hn2).
    assert (Hloop :
      forM (λ j, invoke_part env e j None) (seq 0 (length hs)) σ
      = Return tt σ2).
    { apply (removal_loop env e x); [done| |done]. by rewrite drop_0. }
    assert (Hm2 : isOldIE_memo σ2 = isOldIE_memo σ).
    { apply (preserves_Return _ isOldIE_memo _ _ _
               (preserves_forM isOldIE_memo (handle_remove env) hs
                  (λ h, handle_remove_preserves env isOldIE_memo
                          ltac:(done) ltac:(done) ltac:(done) ltac:(done)
                          ltac:(done) ltac:(done) h)) H2). }
    set (σ3 := with_cache (stylesInDom_delete (cache σ2) (dom_id x) e) σ2).
    assert (Hstep : remove_if_unreferenced env e σ = Return tt σ3).
    { unfold remove_if_unreferenced. mstep. rewrite Hx. simpl.
      rewrite Hrefs. rewrite decide_True by done. mstep.
      unfold entry_parts. rewrite Hx, Hparts, Hloop. mstep.
      unfold evict. mstep. by rewrite He2, Hx. }
    destruct (IH Lrest σ3) as (σ' & Hr & Hreg' & Hlive' & Hm').
    + eapply Forall_impl; [exact Hst|]. intros t (y & Hy & ?).
      exists y. simpl. by rewrite He2.
    + destruct Hreg as (Hfresh & Htr & Hnd').
      split; [|split; [|done]].
      * apply registry_fresh_delete.
        -- destruct Hfresh as [Hc He]. split.
           ++ rewrite Hc2, Hn2. apply Hc.
           ++ rewrite He2, Hn2. apply He.
        -- intros j bucket. apply delete_bucket.
      * apply Forall_forall. intros t Ht. rewrite Forall_forall in Htr.
        destruct (Htr t Ht) as (Hg & y & Hy & ?).
        split; simpl.
        -- apply get_delete_other; [by rewrite Hc2|].
           intros Heq. apply Hnotin. rewrite <- Heq.
           rewrite !fmap_app, elem_of_app. right.
           apply list_elem_of_fmap_2. by apply list_elem_of_fmap_2.
        -- exists y. by rewrite He2.
    + done.
    + exact Hlive2.
    + exists σ'. rewrite bind_eq, Hstep. split; [done|].
      split; [done|]. split; [done|]. rewrite Hm'. done.
Qed.

(** One teardown call. *)
Lemma teardown_inv Lc LL c σ :
  session_inv env n0 b0 (Lc :: LL) σ → Lc.*1.*1 = cl_styles c →
  ∃ σ', update env c None σ = Return tt σ'
        ∧ session_inv env n0 b0 LL σ'.
Proof.
  intros (Hmemo & (Hfresh & Htr & Hnd) & Hlive) Hc. simpl in *.
  apply Forall_app in Htr as [Htrc Htrr].
  assert (Hndc : NoDup (Lc.*1.*2)).
  { rewrite !fmap_app in Hnd. by apply NoDup_app in Hnd as (? & _ & _). }
  assert (Hndr : NoDup ((concat LL).*1.*2)).
  { rewrite !fmap_app in Hnd. by apply NoDup_app in Hnd as (_ & _ & ?). }
  destruct (stage_all Lc σ Htrc Hndc) as (σ1 & H1 & Hst & Hent & Hσ1).
  assert (Hreg1 : reg_inv (concat LL) σ1).
  { rewrite Hσ1. split; [|split; [|done]].
    - destruct Hfresh as [Hcf Hef]. split; simpl; [done|].
      intros e [y Hy]. apply Hef.
      destruct (decide (e ∈ Lc.*1.*2)) as [Hin|Hnin].
      + apply list_elem_of_fmap in Hin as ([d' e'] & -> & Hin).
        apply list_elem_of_fmap in Hin as (t & Ht & Hin).
        rewrite Forall_forall in Htrc.
        destruct (Htrc t Hin) as (_ & z & Hz & _).
        rewrite <- Ht in Hz. simpl in Hz. by eexists.
      + rewrite <- Hent by done. by eexists.
    - apply Forall_forall. intros t Ht. rewrite Forall_forall in Htrr.
      destruct (Htrr t Ht) as (Hg & y & Hy & ?).
      split; [done|]. exists y. simpl. rewrite Hent; [done|].
      intros Hin. rewrite !fmap_app in Hnd.
      apply NoDup_app in Hnd as (_ & Hdisj & _).
      apply (Hdisj _ Hin).
      apply list_elem_of_fmap_2. by apply list_elem_of_fmap_2. }
  assert (Hlive1 : live_inv n0 b0 (handles_of Lc ++ handles_of (concat LL)) σ1).
  { rewrite Hσ1, <- handles_of_app. exact Hlive. }
  destruct (remove_staged Lc (concat LL) σ1 Hst Hreg1 Hnd Hlive1)
    as (σ' & Hr & Hreg' & Hlive' & Hm').
  exists σ'. unfold update. rewrite <- Hc. mstep. rewrite H1. mstep.
  split; [done|]. split; [|done].
  unfold isOldIE_memo_wf. rewrite Hm', Hσ1. exact Hmemo.
Qed.

Lemma installs_inv calls :
  ∀ LL σ closures σ',
    session_inv env n0 b0 LL σ →
    Forall (λ call, own_elements env call.2) calls →
    installs env calls σ = Return closures σ' →
    ∃ LLc, Forall2 (λ c Lc, Lc.*1.*1 = cl_styles c) closures LLc
           ∧ session_inv env n0 b0 (LL ++ LLc) σ'.
Proof.
  unfold installs.
  induction calls as [|[items options] calls IH];
    intros LL σ closures σ' Hinv Hown Hr; simpl in Hr.
  - injection Hr as <- <-. exists []. by rewrite app_nil_r.
  - apply Forall_cons in Hown as [Hown1 Hown].
    apply bind_Return in Hr as (c & σ1 & H1 & Hr).
    apply bind_Return in Hr as (cs & σ2 & H2 & Hr).
    injection Hr as <- <-.
    destruct (install_inv LL items options σ c σ1 Hinv Hown1 H1)
      as (Lc & Hc & Hinv1).
    destruct (IH _ _ _ _ Hinv1 Hown H2) as (LLc & Hall & Hinv2).
    exists (Lc :: LLc). split; [by constructor|].
    by rewrite <- app_assoc in Hinv2.
Qed.

Lemma teardowns_inv closures :
  ∀ LLc LL σ,
    Forall2 (λ c Lc, Lc.*1.*1 = cl_styles c) closures LLc →
    session_inv env n0 b0 (LLc ++ LL) σ →
    ∃ σ', teardowns env closures σ = Return tt σ'
          ∧ session_inv env n0 b0 LL σ'.
Proof.
  unfold teardowns.
  induction closures as [|c closures IH]; intros LLc LL σ Hall Hinv.
  - apply Forall2_nil_inv_l in Hall as ->. by exists σ.
  - apply Forall2_cons_inv_l in Hall as (Lc & LLc' & Hc & Hall & ->).
    simpl in Hinv.
    destruct (teardown_inv Lc (LLc' ++ LL) c σ Hinv Hc) as (σ1 & H1 & Hinv1).
    destruct (IH LLc' LL σ1 Hall Hinv1) as (σ' & Hr & Hinv').
    exists σ'. simpl. rewrite bind_eq, H1. done.
Qed.

End Session.

(** C2 (as the code has it): for every number of calls of the entry
    point that ask for elements of their own (not singleton mode) and
    return, whatever module ids their lists share, calling each returned
    closure once without an argument, in the same order, returns, and
    afterwards every element created since the first call is out of the
    document and every object URL created since then is revoked. *)
Theorem teardown_releases_everything env calls σ0 closures σ1 :
  registry_fresh σ0 → dom_wf σ0 → isOldIE_memo_wf env σ0 →
  Forall (λ call, own_elements env call.2) calls →
  installs env calls σ0 = Return closures σ1 →
  ∃ σ2,
    teardowns env closures σ1 = Return tt σ2
    ∧ length closures = length calls
    ∧ (∀ el, next_node σ0 ≤ el < next_node σ2 → detached σ2 el)
    ∧ (∀ u, length (blobs σ0) ≤ u < length (blobs σ2) → u ∈ revoked σ2).
Proof.
  intros Hfresh Hwf Hmemo Hown Hr.
  assert (Hinv0 : session_inv env (next_node σ0) (length (blobs σ0)) [] σ0).
  { split; [done|]. split.
    - split; [done|]. split; [constructor|constructor].
    - split; [done|]. split; [constructor|]. split; [constructor|].
      split; intros x Hx; lia. }
  destruct (installs_inv env _ _ calls [] σ0 closures σ1 Hinv0 Hown Hr)
    as (LLc & Hall & Hinv1).
  simpl in Hinv1. rewrite <- (app_nil_r LLc) in Hinv1.
  destruct (teardowns_inv env _ _ closures LLc [] σ1 Hall Hinv1)
    as (σ2 & H2 & _ & _ & (_ & _ & _ & Hel & Hurl)).
  exists σ2. split; [done|]. split.
  { clear -Hr. revert σ0 closures σ1 Hr. unfold installs.
    induction calls as [|call calls IH]; intros σ0 closures σ1 Hr;
      simpl in Hr.
    - by injection Hr as <- <-.
    - apply bind_Return in Hr as (c & σa & _ & Hr).
      apply bind_Return in Hr as (cs & σb & Hb & Hr).
      injection Hr as <- <-. simpl. f_equal. by eapply IH. }
  split.
  - intros el Hx. destruct (Hel el Hx) as [?|Hin]; [done|].
    by apply elem_of_nil in Hin.
  - intros u Hu. destruct (Hurl u Hu) as [?|(h & Hh & _)]; [done|].
    by apply elem_of_nil in Hh.
Qed.

(** ** The registry: what set and delete do to a bucket *)

Section Buckets.
Implicit Types (cache : gmap Z (list (nat * nat))) (d : Style) (e r : nat).

Lemma replace_first_fst r e (l l' : list (nat * nat)) :
  replace_first r e l = Some l' → l'.*1 = l.*1.
Proof.
  revert l'. induction l as [|s l IH]; intros l' H; simpl in H; [done|].
  destruct (decide (s.1 = r)).
  - by inversion H.
  - destruct (replace_first r e l) as [l0|]; [|done].
    inversion H. subst. rewrite !fmap_cons. f_equal. by apply IH.
Qed.

Lemma replace_first_None_fst r e (l : list (nat * nat)) :
  replace_first r e l = None → r ∉ l.*1.
Proof.
  induction l as [|s l IH]; simpl; intros H.
  - apply not_elem_of_nil.
  - destruct (decide (s.1 = r)); [done|].
    destruct (replace_first r e l); [done|].
    rewrite not_elem_of_cons. split; [congruence|]. by apply IH.
Qed.

Lemma set_other_id cache d e i :
  i ≠ s_id d → stylesInDom_set cache d e !! i = cache !! i.
Proof.
  intros Hi. unfold stylesInDom_set.
  destruct (cache !! s_id d) as [b|].
  - destruct (replace_first (s_ref d) e b); by rewrite lookup_insert_ne.
  - by rewrite lookup_insert_ne.
Qed.

Lemma set_one_pair cache d e :
  one_pair_per_descriptor cache →
  one_pair_per_descriptor (stylesInDom_set cache d e).
Proof.
  intros Hc i bucket Hb.
  destruct (decide (i = s_id d)) as [->|Hi].
  - unfold stylesInDom_set in Hb.
    destruct (cache !! s_id d) as [b|] eqn:Hcb.
    + specialize (Hc _ _ Hcb).
      destruct (replace_first (s_ref d) e b) as [b'|] eqn:Hr;
        rewrite lookup_insert_eq in Hb; inversion Hb; subst.
      * by rewrite (replace_first_fst _ _ _ _ Hr).
      * rewrite fmap_app. apply NoDup_app. split; [done|]. split.
        -- intros x Hx Hx'. apply list_elem_of_singleton in Hx'. subst.
           by apply (replace_first_None_fst _ _ _ Hr).
        -- apply NoDup_singleton.
    + rewrite lookup_insert_eq in Hb. inversion Hb. apply NoDup_singleton.
  - rewrite set_other_id in Hb by done. by apply (Hc i).
Qed.

End Buckets.

(** The registry keeps one pair per descriptor object: [set] overwrites
    the pair of a descriptor that is there already, a following [get]
    gives the entry just set, and neither the other descriptors nor the
    other ids are touched. *)
Theorem set_overwrites_in_place cache d e :
  one_pair_per_descriptor cache →
  one_pair_per_descriptor (stylesInDom_set cache d e)
  ∧ stylesInDom_get (stylesInDom_set cache d e) d = Some e
  ∧ (∀ d', s_ref d' ≠ s_ref d →
       stylesInDom_get (stylesInDom_set cache d e) d'
       = stylesInDom_get cache d')
  ∧ (∀ i, i ≠ s_id d → stylesInDom_set cache d e !! i = cache !! i).
Proof.
  intros Hc. split; [by apply set_one_pair|]. split; [apply get_set_eq|].
  split.
  - intros d' Hd'. by apply get_set_ne.
  - intros i Hi. by apply set_other_id.
Qed.

(** Registering a descriptor under an id that has no bucket and deleting
    its entry again gives back the registry as it was. *)
Theorem set_then_delete_restores cache d e :
  cache !! s_id d = None →
  stylesInDom_delete (stylesInDom_set cache d e) (s_id d) e = cache.
Proof.
  intros Hc. unfold stylesInDom_set. rewrite Hc.
  unfold stylesInDom_delete. rewrite lookup_insert_eq.
  rewrite filter_cons, filter_nil. simpl.
  destruct (decide (e ≠ e)); [done|].
  by apply delete_insert_id.
Qed.

(** [delete] only ever drops a whole bucket: when another entry shares
    the id, nothing is removed, and the entry that was to be deleted is
    still found. *)
Theorem delete_keeps_shared_bucket cache d d' e e' :
  stylesInDom_get cache d = Some e →
  stylesInDom_get cache d' = Some e' →
  s_id d = s_id d' → e ≠ e' →
  stylesInDom_delete cache (s_id d) e = cache
  ∧ stylesInDom_get (stylesInDom_delete cache (s_id d) e) d = Some e.
Proof.
  intros Hd Hd' Hid Hne.
  assert (Heq : stylesInDom_delete cache (s_id d) e = cache).
  { unfold stylesInDom_delete, stylesInDom_get in *.
    rewrite <- Hid in Hd'.
    destruct (cache !! s_id d) as [b|]; [|done].
    destruct (filter (λ s, s.2 ≠ e) b) as [|x l] eqn:Hf; [|done].
    exfalso.
    apply head_Some_elem_of, list_elem_of_fmap in Hd' as (s & Hs2 & Hs).
    apply list_elem_of_filter in Hs as [_ Hs].
    assert (Hin : s ∈ filter (λ s, s.2 ≠ e) b).
    { apply list_elem_of_filter. split; [|done]. congruence. }
    rewrite Hf in Hin. by apply not_elem_of_nil in Hin. }
  by rewrite Heq.
Qed.

(** ** The grouping: nothing is lost, and grouping again changes nothing *)

Lemma flatten_app l1 l2 : flatten (l1 ++ l2) = flatten l1 ++ flatten l2.
Proof. unfold flatten. by rewrite bind_app. Qed.

Lemma flatten_cons s l :
  flatten (s :: l) = ((λ p, (s_id s, p)) <$> s_parts s) ++ flatten l.
Proof. done. Qed.

Lemma flatten_push part k (l : list Style) s :
  l !! k = Some s →
  flatten (alter (push_part part) k l) ≡ₚ flatten l ++ [(s_id s, part)].
Proof.
  revert k. induction l as [|x l IH]; intros k Hk; [done|].
  destruct k as [|k]; simpl in Hk.
  - inversion Hk. subst. cbn [alter list_alter].
    rewrite !flatten_cons. cbn [push_part s_id s_parts].
    rewrite fmap_app. cbn [fmap list_fmap].
    rewrite <- !(assoc_L (++)). apply Permutation_app_head.
    apply Permutation_app_comm.
  - cbn [alter list_alter]. rewrite !flatten_cons.
    rewrite <- (assoc_L (++)). apply Permutation_app_head.
    by apply IH.
Qed.

Lemma flatten_step base items acc it :
  loop_inv items acc →
  flatten (listToStyles_step base acc it).1
  ≡ₚ flatten acc.1 ++ [(item_id it, part_of_item it)].
Proof.
  intros (_ & Hmap & _). unfold listToStyles_step.
  destruct (acc.2 !! item_id it) as [k|] eqn:Hk; cbn [fst].
  - specialize (Hmap _ _ Hk). rewrite list_lookup_fmap in Hmap.
    destruct (acc.1 !! k) as [s|] eqn:Hs; [|done].
    simpl in Hmap. inversion Hmap as [Hid].
    by apply flatten_push.
  - rewrite flatten_app. by rewrite flatten_cons.
Qed.

Lemma listToStyles_loop_snoc base items it :
  listToStyles_loop base (items ++ [it])
  = listToStyles_step base (listToStyles_loop base items) it.
Proof. unfold listToStyles_loop. by rewrite foldl_app. Qed.

Lemma flatten_loop base items :
  flatten (listToStyles_loop base items).1 ≡ₚ tuples items.
Proof.
  induction items as [|it items IH] using rev_ind; [done|].
  rewrite listToStyles_loop_snoc.
  rewrite (flatten_step base items) by apply listToStyles_loop_inv.
  unfold tuples. rewrite fmap_app. by apply Permutation_app.
Qed.

Lemma parts_for_present i (items : list Item) :
  i ∈ item_id <$> items → parts_for i items ≠ [].
Proof.
  intros Hi Hnil. apply list_elem_of_fmap in Hi as (it & -> & Hit).
  unfold parts_for in Hnil. apply fmap_nil_inv in Hnil.
  assert (Hin : it ∈ filter (λ it', item_id it' = item_id it) items).
  { by apply list_elem_of_filter. }
  rewrite Hnil in Hin. by apply not_elem_of_nil in Hin.
Qed.

Lemma grouped_nonempty items g : g ∈ grouped items → g.2 ≠ [].
Proof.
  unfold grouped. intros Hg.
  apply list_elem_of_fmap in Hg as (i & -> & Hi). simpl.
  apply parts_for_present. by apply first_seen_elem.
Qed.

Lemma listToStyles_nonempty base items :
  Forall (λ s, s_parts s ≠ []) (listToStyles base items).
Proof.
  apply Forall_forall. intros s Hs.
  destruct (listToStyles_loop_inv base items) as (Hview & _).
  assert (Hg : view s ∈ grouped items).
  { rewrite <- Hview. by apply list_elem_of_fmap_2. }
  by apply grouped_nonempty in Hg.
Qed.

(** [listToStyles] neither loses nor invents a part: the descriptors hold
    the parts of the input tuples, each once and under its own id, and no
    descriptor is without a part. *)
Theorem listToStyles_keeps_every_part base items :
  flatten (listToStyles base items) ≡ₚ tuples items
  ∧ Forall (λ s, s_parts s ≠ []) (listToStyles base items).
Proof. split; [apply flatten_loop|apply listToStyles_nonempty]. Qed.

(** *** Grouping a grouped list *)

Lemma flatten_views styles :
  item_of <$> flatten styles = (view <$> styles) ≫= group_items.
Proof.
  induction styles as [|s l IH]; [done|].
  rewrite flatten_cons, fmap_app, IH. cbn [fmap list_fmap mbind list_bind].
  f_equal. unfold group_items. simpl. by rewrite <- list_fmap_compose.
Qed.

Lemma part_of_item_of i p : part_of_item (item_of (i, p)) = p.
Proof. by destruct p. Qed.

Lemma filter_all {A} (P : A → Prop) `{∀ x, Decision (P x)} (l : list A) :
  Forall P l → filter P l = l.
Proof.
  induction 1 as [|x l Hx _ IH]; [done|].
  rewrite filter_cons. destruct (decide (P x)); [|done]. by rewrite IH.
Qed.

Lemma filter_first_seen_absent i (l : list Z) :
  i ∉ l → filter (λ j, j ≠ i) (first_seen l) = first_seen l.
Proof.
  intros Hi. apply filter_all. apply Forall_forall.
  intros j Hj ->. apply Hi. by apply first_seen_elem.
Qed.

Lemma first_seen_run i n (l : list Z) :
  i ∉ l → first_seen (replicate (S n) i ++ l) = i :: first_seen l.
Proof.
  intros Hi. induction n as [|n IH].
  - simpl. by rewrite filter_first_seen_absent.
  - change (replicate (S (S n)) i ++ l) with (i :: (replicate (S n) i ++ l)).
    cbn [first_seen]. rewrite IH. rewrite filter_cons.
    destruct (decide (i ≠ i)); [done|].
    by rewrite filter_first_seen_absent.
Qed.

Lemma group_items_ids g : item_id <$> group_items g = replicate (length g.2) g.1.
Proof.
  unfold group_items. destruct g as [i P]. cbn [fst snd].
  rewrite <- list_fmap_compose.
  induction P as [|p P IH]; [done|]. cbn. by f_equal.
Qed.

Lemma parts_for_app i (l1 l2 : list Item) :
  parts_for i (l1 ++ l2) = parts_for i l1 ++ parts_for i l2.
Proof. unfold parts_for. by rewrite filter_app, fmap_app. Qed.

Lemma parts_for_group i P : parts_for i (group_items (i, P)) = P.
Proof.
  unfold parts_for, group_items. simpl.
  induction P as [|p P IH]; [done|].
  rewrite fmap_cons, filter_cons. simpl.
  destruct (decide (i = i)); [|done].
  rewrite fmap_cons, IH. by rewrite part_of_item_of.
Qed.

Lemma bind_group_ids (G : list (Z * list Part)) j :
  j ∈ item_id <$> (G ≫= group_items) → j ∈ G.*1.
Proof.
  induction G as [|g G IH]; [done|].
  cbn [mbind list_bind]. rewrite fmap_app, elem_of_app, group_items_ids.
  intros [Hj|Hj].
  - apply elem_of_replicate in Hj as [-> _]. rewrite fmap_cons. left.
  - rewrite fmap_cons. right. by apply IH.
Qed.

Lemma grouped_of_groups (G : list (Z * list Part)) :
  NoDup G.*1 → Forall (λ g, g.2 ≠ []) G →
  grouped (G ≫= group_items) = G.
Proof.
  induction G as [|[i P] G IH]; intros Hnd Hne; [done|].
  rewrite fmap_cons in Hnd. apply NoDup_cons in Hnd as [Hi Hnd].
  apply Forall_cons in Hne as [HP Hne]. simpl in HP, Hi.
  specialize (IH Hnd Hne).
  cbn [mbind list_bind]. unfold grouped.
  set (B := G ≫= group_items) in *.
  assert (HiB : i ∉ item_id <$> B).
  { intros H. by apply bind_group_ids in H. }
  rewrite fmap_app, group_items_ids. simpl.
  destruct P as [|p P]; [done|].
  cbn [length]. rewrite first_seen_run by done.
  rewrite fmap_cons. f_equal.
  - f_equal. rewrite parts_for_app, parts_for_group.
    rewrite (parts_for_absent i B) by done. by rewrite app_nil_r.
  - transitivity (grouped B); [|exact IH]. unfold grouped.
    apply list_fmap_ext. intros k j Hj. f_equal.
    rewrite parts_for_app.
    assert (Hji : j ≠ i).
    { intros ->. apply HiB. apply first_seen_elem.
      by apply list_elem_of_lookup_2 in Hj. }
    rewrite (parts_for_absent j (group_items (i, p :: P))); [done|].
    rewrite group_items_ids. simpl. intros H.
    apply (elem_of_replicate (S (length P))) in H as [-> _]. done.
Qed.

(** Grouping is idempotent: the tuples of the descriptors, read in the
    order of the descriptors, are grouped into the same descriptors
    again. *)
Theorem listToStyles_regroup base base' items :
  view <$> listToStyles base' (item_of <$> flatten (listToStyles base items))
  = view <$> listToStyles base items.
Proof.
  destruct (listToStyles_loop_inv base items) as (Hview & _).
  destruct (listToStyles_loop_inv base'
              (item_of <$> flatten (listToStyles base items))) as (Hview' & _).
  unfold listToStyles at 1. rewrite Hview'.
  rewrite flatten_views. unfold listToStyles. rewrite Hview.
  apply grouped_of_groups.
  - rewrite grouped_ids. apply first_seen_NoDup.
  - apply Forall_forall. intros g. apply grouped_nonempty.
Qed.

(** ** The memos *)

Lemma memoize_calls_filled {I O} (fn : I → option O) v inputs :
  memoize_calls fn (Some v) inputs = replicate (length inputs) (Some v).
Proof. induction inputs as [|i l IH]; [done|]. simpl. by rewrite IH. Qed.

(** [memoize] keeps the first result that is not [undefined] and from
    then on ignores its input: the calls before it each ran the function
    and gave [undefined], the calls from it on all give that result. The
    browser test [isOldIE] is such a memoized function. *)
Theorem memoize_first_result_sticks {I O} (fn : I → option O)
    (pre : list I) (x : I) (post : list I) (v : O) :
  Forall (λ i, fn i = None) pre → fn x = Some v →
  memoize_calls fn None (pre ++ x :: post)
  = replicate (length pre) None ++ replicate (S (length post)) (Some v)
  ∧ ∀ env σ,
      isOldIE env σ
      = let r := memoize (λ _ : unit, Some (oldIE env)) (isOldIE_memo σ) () in
        Return (default false r.1) (with_isOldIE_memo r.2 σ).
Proof.
  intros Hpre Hx. split.
  - induction Hpre as [|i pre Hi _ IH].
    + simpl. rewrite Hx. simpl. by rewrite memoize_calls_filled.
    + simpl. rewrite Hi. simpl. by rewrite IH.
  - intros env σ. unfold isOldIE, memoize.
    destruct σ as [? ? ? ? ? m ? ? ? ? ? ? ? ? ? ?]. simpl.
    by destruct m.
Qed.

(** ** The closures of a part: updating and removing *)

Section Handle.
Context (env : Env).

(** [updateStyle] is idempotent: whatever a call with a part did, the
    same call again finds the captured part equal and does nothing. *)
Theorem updateStyle_twice h p σ :
  ∃ h' σ',
    updateStyle env h (Some p) σ = Return h' σ'
    ∧ h_el h' = h_el h ∧ h_strategy h' = h_strategy h
    ∧ css (h_obj h') = css p ∧ media (h_obj h') = media p
    ∧ sourceMap (h_obj h') = sourceMap p
    ∧ updateStyle env h' (Some p) σ' = Return h' σ'.
Proof.
  unfold updateStyle at 1.
  destruct (bool_decide (css p = css (h_obj h))
            && bool_decide (media p = media (h_obj h))
            && bool_decide (sourceMap p = sourceMap (h_obj h))) eqn:Hsame.
  - apply andb_prop in Hsame as [Hsame H3].
    apply andb_prop in Hsame as [H1 H2].
    apply bool_decide_eq_true in H1, H2, H3.
    exists h, σ. repeat split; try done.
    by apply updateStyle_same_part.
  - destruct (handle_update_keeps env h p σ) as (σ' & Hu & _).
    mstep. rewrite Hu. mstep. exists (set_obj p h), σ'.
    repeat split; try done. by apply updateStyle_same_part.
Qed.

Lemma attr_assoc_set k v (l : list (string * string)) :
  head (snd <$> filter (λ kv, kv.1 = k) (assoc_set k v l)) = Some v.
Proof.
  induction l as [|kv l IH]; simpl.
  - rewrite filter_cons, filter_nil. simpl. by destruct (decide (k = k)).
  - destruct (decide (kv.1 = k)) as [Heq|Hne].
    + rewrite filter_cons. simpl. by destruct (decide (kv.1 = k)).
    + rewrite filter_cons. by destruct (decide (kv.1 = k)).
Qed.

Lemma alter_present (f : element → element) el e (m : gmap nat element) :
  m !! el = Some e → alter f el m = <[el := f e]> m.
Proof.
  intros Hm. apply map_eq. intros x.
  destruct (decide (x = el)) as [->|Hne].
  - by rewrite lookup_alter_eq, lookup_insert_eq, Hm.
  - by rewrite lookup_alter_ne, lookup_insert_ne.
Qed.

Lemma alter_inserted (f : element → element) el e (m : gmap nat element) :
  alter f el (<[el := e]> m) = <[el := f e]> m.
Proof.
  rewrite (alter_present f el e) by apply lookup_insert_eq.
  by rewrite insert_insert_eq.
Qed.

Lemma applyToTag_eq el e p σ :
  nodes σ !! el = Some e →
  applyToTag env el p σ
  = Return tt
      (with_nodes
         (<[el := (if has_styleSheet env then set_cssText (css p)
                   else set_childNodes [css p])
                    (if truthy (media p)
                     then set_attributes
                            (assoc_set "media" (media p) (attributes e)) e
                     else e)]> (nodes σ)) σ).
Proof.
  intros He. unfold applyToTag, setAttribute.
  destruct (truthy (media p)); mstep; unfold upd_node;
    destruct (has_styleSheet env); mstep; unfold with_nodes; simpl;
    rewrite (alter_present _ _ _ _ He); by rewrite ?alter_inserted.
Qed.

(** [applyToTag] replaces the whole text of the element but only ever
    sets the media attribute: after a part with a media query, a part
    without one leaves the old query on the element. *)
Theorem applyToTag_never_clears_media el e p1 p2 σ :
  nodes σ !! el = Some e →
  truthy (media p1) = true → truthy (media p2) = false →
  ∃ σ',
    (applyToTag env el p1 ;; applyToTag env el p2) σ = Return tt σ'
    ∧ element_text (has_styleSheet env) σ' el = css p2
    ∧ getAttribute σ' el "media" = Some (media p1).
Proof.
  intros He H1 H2. mstep. rewrite (applyToTag_eq el e p1 σ He). mstep.
  erewrite applyToTag_eq; [|simpl; apply lookup_insert_eq].
  eexists. split; [done|]. rewrite H1, H2.
  unfold element_text, getAttribute. simpl. rewrite !lookup_insert_eq. simpl.
  split.
  - by destruct (has_styleSheet env).
  - destruct (has_styleSheet env); simpl; apply attr_assoc_set.
Qed.

(** A closure that owns its element can be asked to remove it once: the
    second removal reads [parentNode] of a detached element and throws a
    TypeError. *)
Theorem handle_remove_twice_throws h p σ :
  is_singleton_slot h = false → parent σ !! h_el h = Some p →
  ∃ σ1,
    updateStyle env h None σ = Return h σ1
    ∧ parent σ1 !! h_el h = None
    ∧ updateStyle env h None σ1 = Throw TypeError σ1.
Proof.
  intros Hs Hp.
  destruct (handle_remove_spec env h p σ Hs Hp) as (σ1 & H1 & Hout & _).
  exists σ1. unfold updateStyle. mstep. rewrite H1. mstep.
  destruct Hout as (Hpar & _).
  assert (Hnone : parent σ1 !! h_el h = None).
  { by rewrite Hpar, lookup_delete_eq. }
  split; [done|]. split; [done|].
  unfold handle_remove, is_singleton_slot in *.
  destruct (h_strategy h); [done| |]; mstep;
    unfold removeStyleElement; by rewrite Hnone.
Qed.

Lemma splice_in_range i s (l : list string) :
  i < length l → splice_text_node i s l = <[i := s]> l.
Proof.
  intros Hi. unfold splice_text_node.
  destruct (lookup_lt_is_Some_2 l i Hi) as [x Hx]. rewrite Hx.
  rewrite insert_take_drop by done. rewrite delete_take_drop.
  assert (Hlen : length (take i l) = i) by (rewrite length_take; lia).
  destruct (take i l ++ drop (S i) l) as [|y r] eqn:Hr.
  - apply app_eq_nil in Hr as [-> ->]. done.
  - rewrite <- Hr.
    destruct ((take i l ++ drop (S i) l) !! i) as [z|] eqn:Hz.
    + rewrite take_app_length' by done.
      by rewrite drop_app_length' by done.
    + apply lookup_ge_None in Hz. rewrite length_app, Hlen in Hz.
      assert (Hd : drop (S i) l = []).
      { apply length_zero_iff_nil. lia. }
      rewrite Hd, app_nil_r. done.
Qed.

(** Updating a part in singleton mode touches the slot of that part
    only: the other slots keep their text. *)
Theorem singleton_update_touches_one_slot el e i p σ :
  nodes σ !! el = Some e →
  (if has_styleSheet env then i < length (textStore σ)
   else i < length (childNodes e)) →
  ∃ σ',
    applyToSingletonTag env el i false (Some p) σ = Return tt σ'
    ∧ if has_styleSheet env
      then textStore σ' = <[i := Some (css p)]> (textStore σ)
           ∧ cssText <$> nodes σ' !! el
             = Some (String.concat nl (filter_Boolean (textStore σ')))
      else childNodes <$> nodes σ' !! el = Some (<[i := css p]> (childNodes e))
           ∧ textStore σ' = textStore σ.
Proof.
  intros He Hi. rewrite applyToSingletonTag_update. eexists. split; [done|].
  unfold singleton_applied. destruct (has_styleSheet env).
  - unfold upd_node. simpl. rewrite lookup_alter_eq, He. simpl.
    unfold array_set. destruct (decide (i < length (textStore σ))); [|lia].
    done.
  - unfold upd_node. simpl. rewrite lookup_alter_eq, He. simpl.
    by rewrite splice_in_range.
Qed.

End Handle.

(** ** Blob links: the object URLs of one link *)

Section LinkUrls.
Context (env : Env).

Lemma updateLink_once el options obj σ e :
  nodes σ !! el = Some e →
  ∃ σ' e',
    updateLink env el options obj σ = Return tt σ'
    ∧ nodes σ' !! el = Some e'
    ∧ href e' = Some (length (blobs σ))
    ∧ blobs σ' = blobs σ ++ [link_css env options obj]
    ∧ revoked σ' = match href e with
                   | Some old => {[old]} ∪ revoked σ
                   | None => revoked σ
                   end.
Proof.
  intros He. unfold updateLink.
  destruct (updateLink_steps env el options obj σ e He) as (-> & _).
  destruct (href e) as [old|] eqn:Hh; simpl;
    eexists _, (set_href (Some (length (blobs σ))) e);
    (split; [reflexivity|]); simpl; rewrite lookup_alter_eq, He; done.
Qed.

Lemma updateLink_many el options objs :
  objs ≠ [] →
  ∀ σ e, nodes σ !! el = Some e →
  ∃ σ',
    forM (updateLink env el options) objs σ = Return tt σ'
    ∧ blobs σ' = blobs σ ++ (link_css env options <$> objs)
    ∧ href_of σ' el = Some (length (blobs σ) + length objs - 1)
    ∧ ∀ u, u ∈ revoked σ'
           ↔ href e = Some u
             ∨ length (blobs σ) ≤ u < length (blobs σ) + length objs - 1
             ∨ u ∈ revoked σ.
Proof.
  induction objs as [|obj objs IH]; [done|]. intros _ σ e He.
  destruct (updateLink_once el options obj σ e He)
    as (σ1 & e1 & H1 & He1 & Hh1 & Hb1 & Hr1).
  cbn [forM]. mstep. rewrite H1.
  destruct objs as [|obj' objs].
  - mstep. exists σ1. split; [done|]. split; [by rewrite Hb1|]. split.
    + unfold href_of. rewrite He1. simpl. rewrite Hh1. f_equal. simpl. lia.
    + intros u. rewrite Hr1. simpl. destruct (href e) as [old|].
      * rewrite elem_of_union, elem_of_singleton.
        split; [intros [->|H]; auto|intros [[= ->]|[H|H]]; auto; lia].
      * split; [auto|intros [H|[H|H]]; [done|lia|done]].
  - destruct (IH ltac:(done) σ1 e1 He1) as (σ' & H' & Hb' & Hh' & Hr').
    exists σ'. split; [exact H'|]. split; [|split].
    + rewrite Hb', Hb1. rewrite <- (assoc_L (++)). done.
    + rewrite Hh', Hb1, length_app. f_equal. simpl. lia.
    + intros u. rewrite Hr', Hh1, Hb1, Hr1, length_app. simpl.
      destruct (href e) as [old|].
      * rewrite elem_of_union, elem_of_singleton.
        split.
        -- intros [[= <-]|[H|[->|H]]]; auto; right; left; lia.
        -- intros [[= ->]|[H|H]]; auto.
           destruct (decide (u = length (blobs σ))) as [->|Hne]; auto.
           right. left. lia.
      * split.
        -- intros [[= <-]|[H|H]]; auto; right; left; lia.
        -- intros [H|[H|H]]; [done| |auto].
           destruct (decide (u = length (blobs σ))) as [->|Hne]; auto.
           right. left. lia.
Qed.

(** A link never holds on to more than one object URL: after any number
    of updates of a link that started without an href, a URL has been
    created per update, the href is the last of them, and exactly the
    earlier ones have been revoked. *)
Theorem updateLink_revokes_all_but_last el options objs σ e :
  nodes σ !! el = Some e → href e = None → objs ≠ [] →
  ∃ σ',
    forM (updateLink env el options) objs σ = Return tt σ'
    ∧ blobs σ' = blobs σ ++ (link_css env options <$> objs)
    ∧ href_of σ' el = Some (length (blobs σ) + length objs - 1)
    ∧ ∀ u, u ∈ revoked σ'
           ↔ length (blobs σ) ≤ u < length (blobs σ) + length objs - 1
             ∨ u ∈ revoked σ.
Proof.
  intros He Hnone Hobjs.
  destruct (updateLink_many el options objs Hobjs σ e He)
    as (σ' & H' & Hb & Hh & Hr).
  exists σ'. repeat split; try done.
  - intros Hu. apply Hr in Hu as [Hu|Hu]; [congruence|done].
  - intros Hu. apply Hr. by right.
Qed.

End LinkUrls.

(** ** The attributes of created elements *)

Section Attrs.
Context (env : Env).
Implicit Types (l acc : list (string * string)) (k v : string).










End Attrs.

(** ** Singleton mode: slots and failures *)

Section Slots.
Context (env : Env).

(** Creating an element, up to the insertion: a node has been
    allocated, and the module's variables are as they were. *)
Lemma create_unfold_counters (create : Options → M node) options σ :
  create = createStyleElement env ∨ create = createLinkElement env →
  ∃ σ0,
    create options σ
    = (insertStyleElement env options (next_node σ) ;;
       mret (next_node σ)) σ0
    ∧ memo σ0 = memo σ ∧ parent σ0 = parent σ ∧ children σ0 = children σ
    ∧ styleElementsInsertedAtTop σ0 = styleElementsInsertedAtTop σ
    ∧ singletonElement σ0 = singletonElement σ
    ∧ singletonCounter σ0 = singletonCounter σ
    ∧ textStore σ0 = textStore σ
    ∧ next_node σ0 = S (next_node σ).
Proof.
  intros [->| ->].
  - unfold createStyleElement. rewrite bind_eq. unfold createElement at 1.
    cbn beta iota zeta. rewrite bind_eq.
    unfold set_attrs_prop at 1, modify at 1. cbn beta iota.
    rewrite bind_eq.
    match goal with
    | |- context [attachTagAttrs ?el ?a ?s] =>
        destruct (attachTagAttrs_Return el a s) as [σ0 H0];
        pose proof (λ B (f : state → B) Hn,
          preserves_Return _ f _ _ _ (attachTagAttrs_preserves f el a Hn) H0)
          as Hf
    end.
    exists σ0. rewrite H0. split; [done|].
    rewrite (Hf _ memo), (Hf _ parent), (Hf _ children),
      (Hf _ styleElementsInsertedAtTop), (Hf _ singletonElement),
      (Hf _ singletonCounter), (Hf _ textStore), (Hf _ next_node) by done.
    done.
  - unfold createLinkElement. rewrite bind_eq. unfold createElement at 1.
    cbn beta iota zeta. rewrite bind_eq.
    unfold set_attrs_prop at 1, modify at 1. cbn beta iota.
    rewrite bind_eq.
    unfold set_attrs_prop at 1, modify at 1. cbn beta iota.
    rewrite bind_eq.
    match goal with
    | |- context [attachTagAttrs ?el ?a ?s] =>
        destruct (attachTagAttrs_Return el a s) as [σ0 H0];
        pose proof (λ B (f : state → B) Hn,
          preserves_Return _ f _ _ _ (attachTagAttrs_preserves f el a Hn) H0)
          as Hf
    end.
    exists σ0. rewrite H0. split; [done|].
    rewrite (Hf _ memo), (Hf _ parent), (Hf _ children),
      (Hf _ styleElementsInsertedAtTop), (Hf _ singletonElement),
      (Hf _ singletonCounter), (Hf _ textStore), (Hf _ next_node) by done.
    done.
Qed.




Lemma splice_beyond i s (l : list string) :
  length l ≤ i → splice_text_node i s l = l ++ [s].
Proof.
  intros Hi. unfold splice_text_node.
  rewrite (lookup_ge_None_2 l i Hi). destruct l as [|x l]; [done|].
  by rewrite (lookup_ge_None_2 (x :: l) i Hi).
Qed.

End Slots.

Section SlotsFill.
Context (env : Env).





Lemma concat_then_empty (s : string) :
  String.concat EmptyString [s; EmptyString] = s.
Proof.
  induction s as [|c s IH]; [done|]. cbn [String.concat] in *.
  change (String c (s +:+ ("" +:+ "")) = String c s). by f_equal.
Qed.

(** After a failed attempt has taken slot indices away, the slots no
    longer match the text nodes of the shared element: the part that is
    added next gets an index beyond its node, and removing it appends an
    empty node and leaves its css in the element. *)
Theorem singleton_gap_keeps_removed_text options p σ h σ1 :
  has_styleSheet env = false →
  singleton options = true → singletonElement σ = None →
  0 < singletonCounter σ →
  addStyle env p options σ = Return h σ1 →
  ∃ σ2,
    updateStyle env h None σ1 = Return h σ2
    ∧ childNodes <$> nodes σ2 !! h_el h = Some [css p; EmptyString]
    ∧ element_text false σ2 (h_el h) = css p.
Proof.
  intros Hsheet Hs Hnone Hc Hr.
  destruct (addStyle_singleton_first env p options σ h σ1 Hs Hnone Hr)
    as (el & σc & -> & -> & Hcont & _ & _).
  unfold updateStyle, handle_remove. cbn [h_strategy h_el].
  mstep. rewrite applyToSingletonTag_remove. mstep.
  eexists. split; [done|].
  unfold node_content in Hcont.
  destruct (nodes σc !! el) as [e|] eqn:He; [|by cbn in Hcont].
  cbn in Hcont. injection Hcont as Htag Hcss Hkids Hhref.
  unfold singleton_applied, element_text. rewrite Hsheet.
  unfold upd_node. cbn. rewrite !lookup_alter_eq, He. cbn. rewrite Hkids.
  rewrite (splice_beyond _ _ []) by (cbn; lia).
  rewrite splice_beyond by (cbn; lia). cbn.
  split; [done|]. apply concat_then_empty.
Qed.

End SlotsFill.

(** ** What a failing call leaves behind *)

Section Atomic.
Context (env : Env).

Lemma untouched_refl σ : untouched σ σ.
Proof. by repeat split. Qed.

Lemma untouched_trans σ1 σ2 σ3 :
  untouched σ1 σ2 → untouched σ2 σ3 → untouched σ1 σ3.
Proof.
  unfold untouched. intros (?&?&?&?&?&?&?&?) (?&?&?&?&?&?&?&?).
  repeat split; congruence.
Qed.

Lemma untouched_memoized sel σ : untouched σ (memoized env sel σ).
Proof.
  unfold untouched, memoized, getElement.
  by destruct (memo σ !! sel).
Qed.

(** Wherever [insertStyleElement] throws, it has done no more than look
    the target up. *)
Lemma insertStyleElement_Throw_state options el σ e σ' :
  insertStyleElement env options el σ = Throw e σ' →
  σ' = memoized env (insertInto options) σ.
Proof.
  unfold insertStyleElement. rewrite bind_eq, getElement_eq.
  destruct (target_of env σ (insertInto options)) as [t|];
    [|by intros [= _ <-]].
  set (σm := memoized env (insertInto options) σ).
  rewrite bind_eq. unfold gets at 1. cbn beta iota.
  assert (Hbef : ∀ r σ1, insertBefore t el r σm = Throw e σ1 → σ1 = σm).
  { intros [s|] σ1; unfold insertBefore; [|done].
    destruct (decide (s ∈ children_of σm t)); [done|]. by intros [= _ <-]. }
  destruct (decide (insertAt options = "top")) as [Hat|Hat].
  - intros Hr.
    apply bind_Throw in Hr as [Hr|([] & σ1 & _ & Hr)]; [|done].
    destruct (last (styleElementsInsertedAtTop σm)) as [lastEl|].
    + apply bind_Throw in Hr as [Hr|(sib & σ2 & H2 & Hr)]; [done|].
      unfold gets in H2. injection H2 as <- <-.
      destruct (nextSibling lastEl σm) as [s|]; [|done].
      by apply (Hbef (Some s)).
    + apply bind_Throw in Hr as [Hr|(fc & σ2 & H2 & Hr)]; [done|].
      unfold gets in H2. injection H2 as <- <-. by apply (Hbef _ _ Hr).
  - destruct (decide (insertAt options = "bottom")) as [Hab|Hab]; [done|].
    by intros [= _ <-].
Qed.

(** An insertion that returned has found a working configuration, and
    the top list is compatible with it afterwards. *)
Lemma insertStyleElement_Return_ok options el σ σ' :
  insertStyleElement env options el σ = Return tt σ' →
  config_error env options σ' = None ∧ top_compatible env options σ'.
Proof.
  intros Hr.
  destruct (insertStyleElement_Return_facts _ _ _ _ _ Hr)
    as (t & Ht & Hat & Hmemo & Htop & Hdet).
  assert (Htgt : ∀ sel, target_of env σ' sel = target_of env σ sel).
  { intros sel. rewrite <- (target_of_memo_grow env (insertInto options) sel σ).
    unfold target_of. by rewrite Hmemo. }
  split.
  - unfold config_error. rewrite Htgt, Ht.
    destruct Hat as [->| ->]; done.
  - intros Hat' lastEl t' p Hl Ht' Hp.
    rewrite Htgt, Ht in Ht'. injection Ht' as <-.
    rewrite Htop, decide_True in Hl by done.
    rewrite last_snoc in Hl. injection Hl as <-.
    clear Hdet. revert Hr Hp. unfold insertStyleElement.
    rewrite bind_eq, getElement_eq, Ht.
    rewrite bind_eq. unfold gets at 1. cbn beta iota.
    rewrite decide_True by done. intros Hr.
    apply bind_Return in Hr as ([] & σ1 & H1 & Hr).
    unfold modify in Hr. injection Hr as <-. simpl.
    assert (Hp1 : parent σ1 !! el = Some t).
    { assert (Happ : ∀ σa σ2, appendChild t el σa = Return tt σ2 →
                parent σ2 !! el = Some t).
      { intros σa σ2 H2. unfold appendChild, modify in H2.
        injection H2 as <-. simpl. by rewrite lookup_insert_eq. }
      assert (Hbef : ∀ s σa σ2, insertBefore t el (Some s) σa = Return tt σ2 →
                parent σ2 !! el = Some t).
      { intros s σa σ2 H2. unfold insertBefore in H2.
        destruct (decide (s ∈ children_of σa t)); [|done].
        injection H2 as <-. simpl. by rewrite lookup_insert_eq. }
      destruct (last (styleElementsInsertedAtTop _)).
      - apply bind_Return in H1 as (sib & σ2 & H2 & H1).
        destruct sib; eauto.
      - apply bind_Return in H1 as (fc & σ2 & H2 & H1).
        destruct fc; eauto. }
    rewrite Hp1. by intros [= <-].
Qed.

Lemma create_outcome (create : Options → M node) options σ :
  create = createStyleElement env ∨ create = createLinkElement env →
  match create options σ with
  | Throw e σ' =>
      untouched σ σ'
      ∧ memo σ' = memo (memoized env (insertInto options) σ)
      ∧ next_ref σ' = next_ref σ
  | Return el σ' =>
      config_error env options σ' = None ∧ top_compatible env options σ'
      ∧ singletonElement σ' = singletonElement σ
  end.
Proof.
  intros Hc.
  pose proof (λ B (f : state → B) H1 H2 H3 H4 H5 H6 H7,
    match Hc with
    | or_introl H => eq_ind_r (λ c, preserves (c options) f)
        (createStyleElement_preserves env f H1 H2 H3 H4 H5 H6 H7 options) H
    | or_intror H => eq_ind_r (λ c, preserves (c options) f)
        (createLinkElement_preserves env f H1 H2 H3 H4 H5 H6 H7 options) H
    end σ) as Hfr.
  destruct (create_unfold_counters env create options σ Hc)
    as (σ0 & Heq & Hm & Hp & Hk & Ht & Hse & _).
  rewrite Heq in Hfr |- *. rewrite bind_eq in Hfr |- *.
  destruct (insertStyleElement env options (next_node σ) σ0)
    as [[] σ'|e σ'] eqn:Hins.
  - mstep. destruct (insertStyleElement_Return_ok _ _ _ _ Hins) as [H1 H2].
    split; [done|]. split; [done|].
    cbn [state_of] in Hfr. by apply (Hfr _ singletonElement).
  - apply insertStyleElement_Throw_state in Hins as ->.
    cbn [state_of] in Hfr.
    split; [|split].
    + pose proof (untouched_memoized (insertInto options) σ0) as Hu.
      unfold untouched in *.
      destruct Hu as (H1 & H2 & H3 & _).
      rewrite H1, H2, H3, Hk, Hp, Ht.
      rewrite (Hfr _ cache), (Hfr _ entries), (Hfr _ singletonElement),
        (Hfr _ blobs), (Hfr _ revoked) by done.
      done.
    + unfold memoized, getElement. rewrite Hm.
      by destruct (memo σ !! insertInto options).
    + by apply (Hfr _ next_ref).
Qed.

Lemma addStyle_outcome p options σ :
  match addStyle env p options σ with
  | Throw e σ' =>
      untouched σ σ'
      ∧ memo σ' = memo (memoized env (insertInto options) σ)
      ∧ next_ref σ' = next_ref σ
  | Return h σ' => can_add env options σ'
  end.
Proof.
  unfold addStyle. destruct (singleton options) eqn:Hs.
  - destruct (singletonElement σ) as [el|] eqn:Hel.
    + pose proof (addStyle_singleton_next env p options σ el Hs Hel) as Hn.
      unfold addStyle in Hn. rewrite Hs in Hn. rewrite Hn.
      left. unfold needs_element. rewrite Hs. cbn.
      destruct (singleton_applied_keeps env el (singletonCounter σ) (css p)
                  (with_singletonCounter (S (singletonCounter σ)) σ))
        as (_ & _ & _ & _ & -> & _).
      cbn. rewrite Hel. done.
    + rewrite bind_eq. cbn beta iota. rewrite bind_eq.
      unfold gets at 1. cbn beta iota.
      change (singletonElement (with_singletonCounter _ σ))
        with (singletonElement σ).
      rewrite Hel. rewrite !bind_eq.
      pose proof (create_outcome (createStyleElement env) options
                    (with_singletonCounter (S (singletonCounter σ)) σ)
                    ltac:(by left)) as Hc.
      destruct (createStyleElement env options _) as [el σc|e σ'].
      * mstep.
        match goal with
        | |- context [handle_update env ?h p ?s] =>
            destruct (handle_update_keeps env h p s)
              as (σ2 & -> & _ & _ & _ & _ & Hse)
        end.
        mstep. left. unfold needs_element. rewrite Hs. cbn.
        rewrite Hse. done.
      * destruct Hc as (Hu & Hm & Hn). split; [exact Hu|].
        split; [|exact Hn]. rewrite Hm. unfold memoized, getElement. cbn.
        by destruct (memo σ !! insertInto options).
  - destruct (truthy_opt (sourceMap p) && has_blob_api env).
    + rewrite bind_eq.
      pose proof (create_outcome (createLinkElement env) options σ
                    ltac:(by right)) as Hc.
      destruct (createLinkElement env options σ) as [el σc|e σ']; [|done].
      cbn zeta. mstep.
      match goal with
      | |- context [handle_update env ?h p ?s] =>
          destruct (handle_update_keeps env h p s)
            as (σ2 & -> & Hm & Hp & Hk & Ht & Hse)
      end.
      mstep. right. destruct Hc as (Hcfg & Htc & _). split.
      * by rewrite (config_error_ext env options σc σ2 Hm).
      * by apply (top_compatible_ext env options σc).
    + rewrite bind_eq.
      pose proof (create_outcome (createStyleElement env) options σ
                    ltac:(by left)) as Hc.
      destruct (createStyleElement env options σ) as [el σc|e σ']; [|done].
      cbn zeta. mstep.
      match goal with
      | |- context [handle_update env ?h p ?s] =>
          destruct (handle_update_keeps env h p s)
            as (σ2 & -> & Hm & Hp & Hk & Ht & Hse)
      end.
      mstep. right. destruct Hc as (Hcfg & Htc & _). split.
      * by rewrite (config_error_ext env options σc σ2 Hm).
      * by apply (top_compatible_ext env options σc).
Qed.

Lemma parts_outcome ps options σ :
  match mapM' (λ p, addStyle env p options) ps σ with
  | Throw e σ' =>
      untouched σ σ'
      ∧ memo σ' = memo (memoized env (insertInto options) σ)
      ∧ next_ref σ' = next_ref σ
  | Return hs σ' =>
      (ps ≠ [] → can_add env options σ')
      ∧ cache σ' = cache σ ∧ entries σ' = entries σ
      ∧ next_ref σ' = next_ref σ
  end.
Proof.
  destruct ps as [|p ps]; [done|]. rewrite mapM'_cons, bind_eq.
  pose proof (addStyle_outcome p options σ) as H1.
  destruct (addStyle env p options σ) as [h σ1|e σ'] eqn:Ha; [|done].
  destruct (addStyle_registry env _ _ _ _ _ Ha) as (Hc1 & He1 & Hn1).
  destruct (parts_can_add env ps options σ1 H1)
    as (hs & σ2 & H2 & Hcan2 & Hc2 & He2 & Hn2).
  rewrite bind_eq, H2. mstep. split; [done|]. by rewrite Hc2, He2, Hn2.
Qed.

Lemma styles_outcome ds options : ∀ σ,
  Forall (λ d, stylesInDom_get (cache σ) d = None ∧ s_parts d ≠ []) ds →
  NoDup (s_ref <$> ds) →
  match addStylesToDom env ds options σ with
  | Throw e σ' =>
      untouched σ σ'
      ∧ memo σ' = memo (memoized env (insertInto options) σ)
      ∧ next_ref σ' = next_ref σ
  | Return _ _ => True
  end.
Proof.
  destruct ds as [|d ds]; intros σ Hmiss Hnd; [done|].
  apply Forall_cons in Hmiss as [[Hd Hparts] Hmiss].
  rewrite fmap_cons in Hnd. apply NoDup_cons in Hnd as [Hnotin Hnd].
  unfold addStylesToDom. cbn [forM].
  rewrite bind_eq, (addStylesToDom_one_miss env d options σ Hd), bind_eq.
  pose proof (parts_outcome (s_parts d) options σ) as H1.
  destruct (mapM' _ (s_parts d) σ) as [hs σ1|e σ']; [|done].
  destruct H1 as (Hcan & Hc1 & He1 & Hn1). specialize (Hcan Hparts).
  rewrite modify_eq.
  destruct (styles_can_add env ds options (registered d hs σ1)) as [σ' Hr].
  - by apply (can_add_ext env options σ1).
  - apply Forall_forall. intros d' Hd'. cbn.
    rewrite Forall_forall in Hmiss.
    rewrite get_set_ne, Hc1; [by apply Hmiss|].
    intros Heq. apply Hnotin. rewrite <- Heq.
    by apply list_elem_of_fmap_2.
  - done.
  - unfold addStylesToDom in Hr. by rewrite Hr.
Qed.

(** Where the entry point throws, it has neither changed the document
    nor registered anything. *)
Lemma install_Throw_state items options σ e σ1 :
  registry_fresh σ →
  install env items options σ = Throw e σ1 →
  untouched σ σ1
  ∧ memo σ1
    = memo (memoized env (insertInto (effective_options env options σ)) σ)
  ∧ next_ref σ ≤ next_ref σ1.
Proof.
  intros Hfresh.
  destruct (install_unfold env items options σ)
    as (a & r & m & base & Heq & Hbase & Hr & _).
  cbn zeta in Heq. rewrite Heq, bind_eq. clear Heq.
  set (opts := effective_options env options σ) in *.
  set (σ0 := after_prologue a r m σ).
  pose proof (styles_outcome (listToStyles base items) opts σ0) as Ho.
  destruct (addStylesToDom env (listToStyles base items) opts σ0)
    as [[] σ'|e' σ']; [done|].
  intros [= <- <-].
  destruct Ho as (Hu & Hm & Hn).
  - apply Forall_forall. intros d Hd. split.
    + change (cache σ0) with (cache σ). apply get_fresh; [done|].
      apply listToStyles_refs_ge in Hd. lia.
    + pose proof (listToStyles_nonempty base items) as Hne.
      rewrite Forall_forall in Hne. by apply Hne.
  - apply listToStyles_refs_NoDup.
  - split; [exact Hu|]. subst σ0. split.
    + rewrite Hm. unfold memoized, getElement. cbn.
      match goal with
      | |- context [memo σ !! ?k] => by destruct (memo σ !! k)
      end.
    + rewrite Hn. cbn. lia.
Qed.


Lemma registry_fresh_untouched σ σ' :
  registry_fresh σ → cache σ' = cache σ → entries σ' = entries σ →
  next_ref σ ≤ next_ref σ' → registry_fresh σ'.
Proof.
  intros [H1 H2] Hc He Hn. split.
  - intros i bucket r e. rewrite Hc. intros Hb Hin.
    destruct (H1 i bucket r e Hb Hin). lia.
  - intros e. rewrite He. intros H. specialize (H2 e H). lia.
Qed.

End Atomic.

(** The entry point fails atomically as far as the page can see: when it
    throws, for whatever reason, the document, the registry, the shared
    element and the object URLs are as they were before the call. *)
Theorem install_failure_is_atomic env items options σ e σ1 :
  registry_fresh σ →
  install env items options σ = Throw e σ1 →
  children σ1 = children σ ∧ parent σ1 = parent σ
  ∧ styleElementsInsertedAtTop σ1 = styleElementsInsertedAtTop σ
  ∧ cache σ1 = cache σ ∧ entries σ1 = entries σ
  ∧ singletonElement σ1 = singletonElement σ
  ∧ blobs σ1 = blobs σ ∧ revoked σ1 = revoked σ.
Proof.
  intros Hfresh Hr.
  by destruct (install_Throw_state env items options σ e σ1 Hfresh Hr).
Qed.



(** ** What a successful call puts in the document *)

Section Appended.
Context (env : Env).











End Appended.


(** ** Insertion at the top and removal *)





Section TopRun.
Context (env : Env).




End TopRun.

(** ** The registry over an install and its teardown *)

Section RoundTrip.
Context (env : Env).

(** The id and the reference count of an entry, however its handles
    change. *)
Lemma upd_entry_parts_key e e' v σ :
  (λ x, (dom_id x, refs x)) <$> entries (upd_entry e (set_parts v) σ) !! e'
  = (λ x, (dom_id x, refs x)) <$> entries σ !! e'.
Proof.
  unfold upd_entry. cbn. destruct (decide (e = e')) as [->|Hne].
  - rewrite lookup_alter_eq. by destruct (entries σ !! e').
  - by rewrite lookup_alter_ne.
Qed.

Lemma invoke_part_key e j arg e' :
  preserves (invoke_part env e j arg)
    (λ σ, (λ x, (dom_id x, refs x)) <$> entries σ !! e').
Proof.
  unfold invoke_part. apply preserves_bind; [apply preserves_gets|].
  intros [h|]; [|apply preserves_throw].
  apply preserves_bind; [by apply updateStyle_preserves|].
  intros h'. intros σ. rewrite modify_eq. cbn [state_of].
  unfold upd_entry. cbn. destruct (decide (e = e')) as [->|Hne].
  - rewrite lookup_alter_eq. by destruct (entries σ !! e').
  - by rewrite lookup_alter_ne.
Qed.

Lemma remove_if_unreferenced_key e e' :
  preserves (remove_if_unreferenced env e)
    (λ σ, (λ x, (dom_id x, refs x)) <$> entries σ !! e').
Proof.
  unfold remove_if_unreferenced.
  apply preserves_bind; [apply preserves_gets|]. intros r.
  destruct (decide (r = Some 0%Z)); [|apply preserves_ret].
  apply preserves_bind; [apply preserves_gets|]. intros n.
  apply preserves_bind.
  - apply preserves_forM. intros j. apply invoke_part_key.
  - intros []. by apply evict_preserves.
Qed.

Lemma remove_if_unreferenced_cache e σ σ' x :
  entries σ !! e = Some x → refs x = 0%Z →
  remove_if_unreferenced env e σ = Return tt σ' →
  cache σ' = stylesInDom_delete (cache σ) (dom_id x) e.
Proof.
  intros Hx Hrefs Hr. unfold remove_if_unreferenced in Hr.
  apply bind_Return in Hr as (r & σa & Ha & Hr).
  unfold gets in Ha. injection Ha as <- <-.
  rewrite Hx in Hr. cbn in Hr. rewrite Hrefs in Hr.
  rewrite decide_True in Hr by done.
  apply bind_Return in Hr as (n & σb & Hb & Hr).
  unfold gets in Hb. injection Hb as <- <-.
  apply bind_Return in Hr as ([] & σc & Hc & Hr).
  pose proof (preserves_Return _ _ _ _ _
                (preserves_forM _ _ _ (λ j, invoke_part_key e j None e))
                Hc) as Hkey.
  cbn beta in Hkey. rewrite Hx in Hkey. cbn in Hkey.
  assert (Hinv : ∀ j, preserves (invoke_part env e j None) cache).
  { intros j. unfold invoke_part.
    apply preserves_bind; [apply preserves_gets|].
    intros [h|]; [|apply preserves_throw].
    apply preserves_bind; [by apply updateStyle_preserves|].
    intros h'. by apply preserves_modify. }
  assert (Hcache : cache σc = cache σ).
  { apply (preserves_Return _ cache _ _ _ (preserves_forM cache _ _ Hinv) Hc). }
  unfold evict, modify in Hr. injection Hr as <-.
  destruct (entries σc !! e) as [y|]; [|done].
  cbn in Hkey. injection Hkey as Hid _. cbn. by rewrite Hid, Hcache.
Qed.

Lemma stage_removal_id d e' :
  preserves (stage_removal d) (λ σ, dom_id <$> entries σ !! e').
Proof.
  unfold stage_removal. apply preserves_bind; [apply preserves_gets|].
  intros [e|]; [|apply preserves_throw].
  apply preserves_bind; [|intros; apply preserves_ret].
  intros σ. rewrite modify_eq. cbn [state_of]. unfold upd_entry. cbn.
  destruct (decide (e = e')) as [->|Hne].
  - rewrite lookup_alter_eq. by destruct (entries σ !! e').
  - by rewrite lookup_alter_ne.
Qed.

(** Entries that alone hold the bucket of their id are deleted with it,
    one id after the other. *)
Lemma remove_all_cache (L : list (Style * nat)) : ∀ σ σ',
  NoDup ((s_id ∘ fst) <$> L) →
  (∀ t, t ∈ L →
     cache σ !! s_id t.1 = Some [(s_ref t.1, t.2)]
     ∧ ∃ x, entries σ !! t.2 = Some x ∧ dom_id x = s_id t.1
            ∧ refs x = 0%Z) →
  forM (remove_if_unreferenced env) L.*2 σ = Return tt σ' →
  ∀ i, cache σ' !! i
       = if decide (i ∈ (s_id ∘ fst) <$> L) then None else cache σ !! i.
Proof.
  induction L as [|[d e] L IH]; intros σ σ' Hnd Hall Hr i.
  - cbn in Hr. injection Hr as <-. by rewrite decide_False by apply not_elem_of_nil.
  - rewrite fmap_cons in Hnd. apply NoDup_cons in Hnd as [Hnotin Hnd].
    rewrite fmap_cons in Hr. cbn [forM] in Hr.
    apply bind_Return in Hr as ([] & σ1 & H1 & Hr).
    destruct (Hall (d, e) ltac:(left)) as (Hb & x & Hx & Hid & Hrefs).
    cbn in Hb, Hx, Hid.
    pose proof (remove_if_unreferenced_cache e σ σ1 x Hx Hrefs H1) as Hc1.
    assert (Hdel : cache σ1 = delete (s_id d) (cache σ)).
    { rewrite Hc1, Hid. unfold stylesInDom_delete. rewrite Hb.
      rewrite filter_cons, filter_nil. cbn.
      by destruct (decide (e ≠ e)). }
    assert (Hall1 : ∀ t, t ∈ L →
              cache σ1 !! s_id t.1 = Some [(s_ref t.1, t.2)]
              ∧ ∃ x, entries σ1 !! t.2 = Some x ∧ dom_id x = s_id t.1
                     ∧ refs x = 0%Z).
    { intros t Ht. destruct (Hall t ltac:(by right)) as (Hbt & y & Hy & Hyid & Hyr).
      split.
      - rewrite Hdel, lookup_delete_ne; [done|].
        intros Heq. apply Hnotin. cbn. rewrite Heq.
        by apply (list_elem_of_fmap_2 (s_id ∘ fst)).
      - pose proof (preserves_Return _ _ _ _ _
                      (remove_if_unreferenced_key e t.2) H1) as Hkey.
        cbn beta in Hkey. rewrite Hy in Hkey. cbn in Hkey.
        destruct (entries σ1 !! t.2) as [z|]; [|done].
        cbn in Hkey. injection Hkey as Hzid Hzr.
        exists z. split; [done|]. split; congruence. }
    rewrite (IH σ1 σ' Hnd Hall1 Hr i). rewrite fmap_cons. cbn.
    destruct (decide (i = s_id d)) as [->|Hne].
    + rewrite (decide_True (P := s_id d ∈ s_id d :: _)) by left.
      destruct (decide (s_id d ∈ (s_id ∘ fst) <$> L)); [done|].
      by rewrite Hdel, lookup_delete_eq.
    + destruct (decide (i ∈ (s_id ∘ fst) <$> L)) as [Hin|Hout].
      * by rewrite decide_True by (by right).
      * rewrite decide_False by (by intros [?|?]%elem_of_cons).
        by rewrite Hdel, lookup_delete_ne.
Qed.

(** New descriptors with ids that have no bucket yet: each gets a
    bucket of its own. *)
Lemma add_styles_cache options ds : ∀ σ σ',
  registry_fresh σ → NoDup (s_id <$> ds) →
  Forall (λ d, cache σ !! s_id d = None ∧ s_ref d < next_ref σ) ds →
  addStylesToDom env ds options σ = Return tt σ' →
  registry_fresh σ'
  ∧ (∀ d, d ∈ ds →
       ∃ e x, cache σ' !! s_id d = Some [(s_ref d, e)]
              ∧ entries σ' !! e = Some x ∧ dom_id x = s_id d)
  ∧ (∀ i, i ∉ s_id <$> ds → cache σ' !! i = cache σ !! i)
  ∧ (∀ e x, entries σ !! e = Some x → entries σ' !! e = Some x)
  ∧ next_ref σ ≤ next_ref σ'.
Proof.
  unfold addStylesToDom.
  induction ds as [|d ds IH]; intros σ σ' Hfresh Hnd Hall Hr.
  - cbn in Hr. injection Hr as <-. split; [done|].
    split; [by intros d Hd%elem_of_nil|]. done.
  - rewrite fmap_cons in Hnd. apply NoDup_cons in Hnd as [Hnotin Hnd].
    apply Forall_cons in Hall as [[Hd Href] Hall].
    cbn [forM] in Hr. apply bind_Return in Hr as ([] & σ2 & H2 & Hr).
    assert (Hmiss : stylesInDom_get (cache σ) d = None).
    { unfold stylesInDom_get. by rewrite Hd. }
    rewrite (addStylesToDom_one_miss env d options σ Hmiss) in H2.
    apply bind_Return in H2 as (hs & σ1 & H1 & H2).
    rewrite modify_eq in H2. injection H2 as <-.
    pose proof (parts_outcome env (s_parts d) options σ) as Hp.
    rewrite H1 in Hp. destruct Hp as (_ & Hc1 & He1 & Hn1).
    assert (Hfresh1 : registry_fresh σ1).
    { apply (registry_fresh_untouched σ); [done..|lia]. }
    assert (Hreg2 : reg_inv ([] ++ [(d, next_ref σ1, hs)])
                      (registered d hs σ1)).
    { apply reg_inv_registered.
      - split; [done|]. split; constructor.
      - by rewrite Hc1.
      - lia. }
    destruct Hreg2 as (Hfresh2 & _).
    assert (Hc2 : cache (registered d hs σ1)
                  = <[s_id d := [(s_ref d, next_ref σ)]]> (cache σ)).
    { cbn. unfold stylesInDom_set. by rewrite Hc1, Hd, Hn1. }
    assert (He2 : entries (registered d hs σ1)
                  = <[next_ref σ := {| dom_id := s_id d; refs := 1;
                                       parts := hs |}]> (entries σ)).
    { cbn. by rewrite He1, Hn1. }
    destruct (IH (registered d hs σ1) σ' Hfresh2 Hnd) as
      (Hfresh' & Hb' & Hother' & Hent' & Hn'); [|exact Hr|].
    { apply Forall_forall. intros d' Hd'. rewrite Forall_forall in Hall.
      destruct (Hall d' Hd') as [Hdn Hdr]. split.
      - rewrite Hc2, lookup_insert_ne; [done|].
        intros Heq. apply Hnotin. rewrite Heq. by apply list_elem_of_fmap_2.
      - cbn. lia. }
    split; [done|]. split; [|split; [|split]].
    + intros d' Hd'. apply elem_of_cons in Hd' as [->|Hd']; [|by apply Hb'].
      exists (next_ref σ), {| dom_id := s_id d; refs := 1; parts := hs |}.
      split; [|split; [|done]].
      * rewrite Hother' by done. by rewrite Hc2, lookup_insert_eq.
      * apply Hent'. by rewrite He2, lookup_insert_eq.
    + intros i Hi. rewrite fmap_cons, not_elem_of_cons in Hi.
      destruct Hi as [Hne Hi]. rewrite Hother' by done.
      by rewrite Hc2, lookup_insert_ne.
    + intros e x Hx. apply Hent'. rewrite He2, lookup_insert_ne; [done|].
      intros <-. destruct Hfresh as [_ Hef].
      specialize (Hef (next_ref σ) ltac:(by eexists)). lia.
    + cbn in Hn'. lia.
Qed.

Lemma install_cache items options σ c σ' :
  registry_fresh σ →
  (∀ it, it ∈ items → cache σ !! item_id it = None) →
  install env items options σ = Return c σ' →
  NoDup (s_id <$> cl_styles c)
  ∧ (∀ d, d ∈ cl_styles c →
       cache σ !! s_id d = None
       ∧ ∃ e x, cache σ' !! s_id d = Some [(s_ref d, e)]
                ∧ entries σ' !! e = Some x ∧ dom_id x = s_id d)
  ∧ (∀ i, i ∉ s_id <$> cl_styles c → cache σ' !! i = cache σ !! i)
  ∧ (items ≠ [] → cl_styles c ≠ []).
Proof.
  intros Hfresh Hids Hr.
  destruct (install_unfold env items options σ)
    as (a & r & m & base & Heq & Hbase & Hrr & _).
  cbn zeta in Heq. rewrite Heq in Hr. clear Heq.
  apply bind_Return in Hr as ([] & σ1 & H1 & Hr). injection Hr as <- <-.
  set (σ0 := after_prologue a r m σ) in *. cbn [cl_styles].
  assert (Hidl : s_id <$> listToStyles base items
                 = first_seen (item_id <$> items)).
  { apply (loop_inv_ids items). apply listToStyles_loop_inv. }
  assert (Hnd : NoDup (s_id <$> listToStyles base items)).
  { rewrite Hidl. apply first_seen_NoDup. }
  assert (Hnone : ∀ d, d ∈ listToStyles base items →
            cache σ !! s_id d = None).
  { intros d Hd.
    assert (Hin : s_id d ∈ first_seen (item_id <$> items)).
    { rewrite <- Hidl. by apply list_elem_of_fmap_2. }
    apply first_seen_elem, list_elem_of_fmap in Hin as (it & -> & Hit).
    by apply Hids. }
  destruct (add_styles_cache (effective_options env options σ)
              (listToStyles base items) σ0 σ1) as (_ & Hb & Ho & _).
  - apply (registry_fresh_untouched σ); [done..|cbn; lia].
  - done.
  - apply Forall_forall. intros d Hd. split; [by apply Hnone|].
    assert (Hin : s_ref d ∈ s_ref <$> listToStyles base items)
      by (by apply list_elem_of_fmap_2).
    rewrite listToStyles_refs in Hin. apply elem_of_seq in Hin. cbn. lia.
  - done.
  - split; [done|]. split; [|split; [exact Ho|]].
    + intros d Hd. split; [by apply Hnone|by apply Hb].
    + destruct items as [|it items]; [done|]. intros _.
      destruct (listToStyles_cons base it items) as (d & ds & _ & _ & -> & _).
      done.
Qed.

Lemma teardown_round_trip items options σ0 c σ1 :
  registry_fresh σ0 → dom_wf σ0 → isOldIE_memo_wf env σ0 →
  own_elements env options →
  (∀ it, it ∈ items → cache σ0 !! item_id it = None) →
  install env items options σ0 = Return c σ1 →
  ∃ σ2, update env c None σ1 = Return tt σ2 ∧ cache σ2 = cache σ0
        ∧ (items ≠ [] →
           ∃ d ds, cl_styles c = d :: ds ∧ cache σ0 !! s_id d = None).
Proof.
  intros Hfresh Hwf Hmemo Hown Hids Hr.
  assert (Hinv0 : session_inv env (next_node σ0) (length (blobs σ0)) [] σ0).
  { split; [done|]. split.
    - split; [done|]. split; [constructor|constructor].
    - split; [done|]. split; [constructor|]. split; [constructor|].
      split; intros x Hx; lia. }
  destruct (install_inv env _ _ [] items options σ0 c σ1 Hinv0 Hown Hr)
    as (Lc & Hc & Hinv1).
  cbn [app] in Hinv1.
  destruct (teardown_inv env _ _ Lc [] c σ1 Hinv1 Hc) as (σ2 & Hup & _).
  exists σ2. split; [done|].
  destruct (install_cache items options σ0 c σ1 Hfresh Hids Hr)
    as (Hndids & Hb & Ho & Hne).
  split.
  2:{ intros Hitems. specialize (Hne Hitems).
      destruct (cl_styles c) as [|d ds] eqn:Hcs; [done|].
      exists d, ds. split; [done|].
      destruct (Hb d ltac:(left)) as [Hd _]. done. }
  destruct Hinv1 as (_ & (_ & Htr & Hnd) & _).
  cbn [concat] in Htr, Hnd. rewrite app_nil_r in Htr, Hnd.
  destruct (stage_all Lc σ1 Htr Hnd) as (σs & H1 & Hst & _ & Hσs).
  unfold update in Hup. rewrite <- Hc in Hup.
  rewrite bind_eq, H1, bind_eq, ret_eq in Hup.
  assert (Hcs : cache σs = cache σ1) by (by rewrite Hσs).
  pose proof (remove_all_cache (Lc.*1) σs σ2) as Hrem.
  rewrite <- list_fmap_compose in Hrem.
  assert (Hidl : (s_id ∘ fst ∘ fst) <$> Lc = s_id <$> cl_styles c).
  { rewrite <- Hc, <- !list_fmap_compose. done. }
  rewrite Hidl in Hrem.
  specialize (Hrem Hndids).
  assert (Hall : ∀ t, t ∈ Lc.*1 →
            cache σs !! s_id t.1 = Some [(s_ref t.1, t.2)]
            ∧ ∃ x, entries σs !! t.2 = Some x ∧ dom_id x = s_id t.1
                   ∧ refs x = 0%Z).
  { intros t Ht. apply list_elem_of_fmap in Ht as (tr & -> & Htr').
    rewrite Forall_forall in Htr, Hst.
    destruct (Htr tr Htr') as (Hget & _).
    destruct (Hst tr Htr') as (y & Hy & Hyr & _).
    assert (Hd : tr.1.1 ∈ cl_styles c).
    { rewrite <- Hc. apply list_elem_of_fmap_2.
      by apply list_elem_of_fmap_2. }
    destruct (Hb _ Hd) as (_ & e' & x' & Hbk & Hx' & Hid').
    assert (He' : e' = tr.1.2).
    { unfold stylesInDom_get in Hget. rewrite Hbk in Hget.
      rewrite filter_cons, filter_nil in Hget. cbn in Hget.
      destruct (decide (s_ref tr.1.1 = s_ref tr.1.1)); [|done].
      cbn in Hget. by injection Hget. }
    subst e'. split; [by rewrite Hcs|].
    exists y. split; [done|]. split; [|done].
    pose proof (preserves_Return _ _ _ _ _
                  (preserves_mapM' _ _ _
                     (λ d, stage_removal_id d tr.1.2)) H1) as Hkey.
    cbn beta in Hkey. rewrite Hy, Hx' in Hkey. cbn in Hkey.
    injection Hkey as ->. done. }
  specialize (Hrem Hall Hup).
  apply map_eq. intros i. rewrite Hrem.
  destruct (decide (i ∈ s_id <$> cl_styles c)) as [Hin|Hout].
  - apply list_elem_of_fmap in Hin as (d & -> & Hd).
    by destruct (Hb d Hd) as (-> & _).
  - by rewrite Hcs, Ho.
Qed.

End RoundTrip.

(** An install and its teardown leave the registry as it was, when the
    ids of the list were not registered before: each descriptor had a
    bucket of its own, and the teardown deletes it. *)
Theorem teardown_restores_registry env items options σ0 c σ1 :
  registry_fresh σ0 → dom_wf σ0 → isOldIE_memo_wf env σ0 →
  own_elements env options →
  (∀ it, it ∈ items → cache σ0 !! item_id it = None) →
  install env items options σ0 = Return c σ1 →
  ∃ σ2,
    update env c None σ1 = Return tt σ2
    ∧ cache σ2 = cache σ0
    ∧ ∀ d, d ∈ cl_styles c → stylesInDom_get (cache σ2) d = None.
Proof.
  intros Hfresh Hwf Hmemo Hown Hids Hr.
  destruct (teardown_round_trip env items options σ0 c σ1
              Hfresh Hwf Hmemo Hown Hids Hr) as (σ2 & Hup & Hc & _).
  exists σ2. split; [done|]. split; [done|].
  intros d Hd.
  destruct (install_cache env items options σ0 c σ1 Hfresh Hids Hr)
    as (_ & Hb & _).
  destruct (Hb d Hd) as [Hnone _].
  unfold stylesInDom_get. by rewrite Hc, Hnone.
Qed.

(** The closure the entry point returns can tear down once. After the
    teardown has deleted the entries, any further call of the closure,
    with or without a new list, reads [refs] of an entry that is no
    longer registered and throws a TypeError before it changes
    anything. *)
Theorem update_after_teardown_throws env items options σ0 c σ1 :
  registry_fresh σ0 → dom_wf σ0 → isOldIE_memo_wf env σ0 →
  own_elements env options →
  (∀ it, it ∈ items → cache σ0 !! item_id it = None) →
  items ≠ [] →
  install env items options σ0 = Return c σ1 →
  ∃ σ2,
    update env c None σ1 = Return tt σ2
    ∧ ∀ newList, update env c newList σ2 = Throw TypeError σ2.
Proof.
  intros Hfresh Hwf Hmemo Hown Hids Hitems Hr.
  destruct (teardown_round_trip env items options σ0 c σ1
              Hfresh Hwf Hmemo Hown Hids Hr) as (σ2 & Hup & Hc & Hne).
  exists σ2. split; [done|]. intros newList.
  destruct (Hne Hitems) as (d & ds & Hcs & Hnone).
  unfold update. rewrite Hcs, bind_eq, mapM'_cons, bind_eq.
  unfold stage_removal at 1. rewrite bind_eq, gets_eq.
  unfold stylesInDom_get. by rewrite Hc, Hnone.
Qed.

(** ** The id-keyed version *)

Lemma byid_bind_eq {A B} (m : ById.MS A) (f : A → ById.MS B) s :
  (m ≫= f) s = match m s with
               | ById.Done a s' => f a s'
               | ById.Raised e s' => ById.Raised e s'
               end.
Proof. reflexivity. Qed.

Lemma byid_ret_eq {A} (a : A) s : (mret a : ById.MS A) s = ById.Done a s.
Proof. reflexivity. Qed.

Lemma byid_bind_Done {A B} (m : ById.MS A) (k : A → ById.MS B) s b s'' :
  (m ≫= k) s = ById.Done b s'' →
  ∃ a s', m s = ById.Done a s' ∧ k a s' = ById.Done b s''.
Proof.
  rewrite byid_bind_eq. destruct (m s) as [a s'|e s']; [|done]. eauto.
Qed.

Lemma byid_lift_Return {A} (m : M A) s a σ :
  m (ById.vars s) = Return a σ →
  ById.lift m s
  = ById.Done a {| ById.stylesInDom := ById.stylesInDom s; ById.vars := σ |}.
Proof. intros H. unfold ById.lift. by rewrite H. Qed.

Lemma byid_lift_Throw {A} (m : M A) s e σ :
  m (ById.vars s) = Throw e σ →
  ById.lift m s
  = ById.Raised e {| ById.stylesInDom := ById.stylesInDom s;
                     ById.vars := σ |}.
Proof. intros H. unfold ById.lift. by rewrite H. Qed.

Lemma byid_lift_Done {A} (m : M A) s a s' :
  ById.lift m s = ById.Done a s' →
  m (ById.vars s) = Return a (ById.vars s')
  ∧ ById.stylesInDom s' = ById.stylesInDom s.
Proof.
  unfold ById.lift. destruct (m (ById.vars s)) as [a' σ|e σ]; [|done].
  by intros [= -> <-].
Qed.

Lemma byid_session_eta s :
  {| ById.stylesInDom := ById.stylesInDom s; ById.vars := ById.vars s |} = s.
Proof. by destruct s. Qed.

(** *** Entries under a run of reference-count changes *)

Lemma upd_entry_fold (f : StyleInDOM → StyleInDOM) es σ :
  foldl (λ σ e, upd_entry e f σ) σ es
  = with_entries (foldl (λ m e, alter f e m) (entries σ) es) σ.
Proof.
  revert σ. induction es as [|e es IH]; intros σ; simpl.
  - by rewrite state_eta.
  - rewrite IH. by destruct σ.
Qed.

Lemma alter_fold_comm (f g : StyleInDOM → StyleInDOM) e es
    (m : gmap nat StyleInDOM) :
  (∀ x, f (g x) = g (f x)) →
  alter f e (foldl (λ m e, alter g e m) m es)
  = foldl (λ m e, alter g e m) (alter f e m) es.
Proof.
  intros Hfg. revert m. induction es as [|e' es IH]; intros m; simpl.
  - done.
  - rewrite IH.
    assert (alter f e (alter g e' m) = alter g e' (alter f e m)) as ->;
      [|done].
    apply map_eq. intros k.
    destruct (decide (k = e)) as [Heq|Hk], (decide (k = e')) as [Heq'|Hk'];
      subst;
      repeat first [ rewrite lookup_alter_eq
                   | rewrite lookup_alter_ne by done ];
      try done.
    destruct (m !! e'); simpl; [|done]. by rewrite Hfg.
Qed.

Lemma alter_fold_cancel (f g : StyleInDOM → StyleInDOM) es
    (m : gmap nat StyleInDOM) :
  (∀ x, f (g x) = g (f x)) → (∀ x, f (g x) = x) →
  foldl (λ m e, alter f e m) (foldl (λ m e, alter g e m) m es) es = m.
Proof.
  intros Hfg Hid. revert m. induction es as [|e es IH]; intros m; simpl.
  - done.
  - rewrite alter_fold_comm by done.
    rewrite <- (IH m) at 2.
    assert (alter f e (alter g e m) = m) as ->; [|done].
    apply map_eq. intros k.
    destruct (decide (k = e)) as [->|Hk].
    + rewrite !lookup_alter_eq. destruct (m !! e); simpl; [|done].
      by rewrite Hid.
    + by rewrite !lookup_alter_ne.
Qed.

Lemma alter_fold_lookup (f : StyleInDOM → StyleInDOM) es
    (m : gmap nat StyleInDOM) e :
  NoDup es →
  foldl (λ m e, alter f e m) m es !! e
  = if decide (e ∈ es) then f <$> m !! e else m !! e.
Proof.
  intros Hnd. revert m. induction Hnd as [|e' es Hnin Hnd IH]; intros m.
  - done.
  - simpl. rewrite IH.
    destruct (decide (e ∈ es)) as [Hin|Hin].
    + rewrite decide_True by (by right).
      rewrite lookup_alter_ne; [done|]. intros ->. done.
    + destruct (decide (e = e')) as [->|Hne].
      * rewrite decide_True by left. by rewrite lookup_alter_eq.
      * rewrite decide_False.
        -- by rewrite lookup_alter_ne.
        -- intros [?|?]%elem_of_cons; done.
Qed.

Lemma refs_up_down x :
  set_refs (refs (set_refs (refs x - 1) x) + 1) (set_refs (refs x - 1) x) = x.
Proof. destruct x. unfold set_refs. simpl. f_equal. lia. Qed.

Lemma refs_down_up x :
  set_refs (refs (set_refs (refs x + 1) x) - 1) (set_refs (refs x + 1) x) = x.
Proof. destruct x. unfold set_refs. simpl. f_equal. lia. Qed.

Lemma refs_up_down_comm x :
  set_refs (refs (set_refs (refs x - 1) x) + 1) (set_refs (refs x - 1) x)
  = set_refs (refs (set_refs (refs x + 1) x) - 1) (set_refs (refs x + 1) x).
Proof. by rewrite refs_up_down, refs_down_up. Qed.

Lemma listToStyles_view base items :
  view <$> listToStyles base items = grouped items.
Proof. apply (listToStyles_loop_inv base items). Qed.

Section ByIdModel.
Context (env : Env).

(** *** A module that is already there, with the same parts *)

Lemma invoke_part_same e j x h p σ :
  entries σ !! e = Some x → parts x !! j = Some h → h_obj h = p →
  invoke_part env e j (Some p) σ = Return tt σ.
Proof.
  intros He Hj Hp.
  rewrite (invoke_part_update env e j x h p h σ σ He Hj).
  - f_equal. unfold upd_entry. rewrite alter_id; [apply state_eta|].
    intros y Hy. rewrite He in Hy. injection Hy as <-.
    rewrite list_insert_id by done. apply set_parts_id.
  - subst p. by apply updateStyle_same_part.
Qed.

Lemma refresh_same e x (ps : list Part) js σ :
  entries σ !! e = Some x → h_obj <$> parts x = ps →
  Forall (λ j, j < length ps) js →
  forM (λ j, invoke_part env e j (ps !! j)) js σ = Return tt σ.
Proof.
  intros He Hps. induction js as [|j js IH]; intros Hjs; simpl; [done|].
  apply Forall_cons in Hjs as [Hj Hjs].
  destruct (lookup_lt_is_Some_2 _ _ Hj) as [p Hp].
  assert (∃ h, parts x !! j = Some h ∧ h_obj h = p) as (h & Hh & Hobj).
  { rewrite <- Hps, list_lookup_fmap in Hp.
    destruct (parts x !! j) as [h|]; [|done]. injection Hp as <-. eauto. }
  rewrite bind_eq, Hp, (invoke_part_same e j x h p σ He Hh Hobj).
  by apply IH.
Qed.

Lemma hit_same e x (d : Style) options σ :
  entries σ !! e = Some x → h_obj <$> parts x = s_parts d →
  (modify (upd_entry e (λ d, set_refs (refs d + 1) d));;
   n ← gets (λ σ, length (entry_parts σ e));
   forM (λ j, invoke_part env e j (s_parts d !! j)) (seq 0 n);;
   forM (λ p, h ← addStyle env p options; push_handle e h)
     (drop n (s_parts d))) σ
  = Return tt (upd_entry e (λ d, set_refs (refs d + 1) d) σ).
Proof.
  intros He Hps. mstep.
  set (σ1 := upd_entry e _ σ).
  assert (He1 : entries σ1 !! e = Some (set_refs (refs x + 1) x)).
  { subst σ1. unfold upd_entry. simpl. by rewrite lookup_alter_eq, He. }
  assert (Hn : length (entry_parts σ1 e) = length (s_parts d)).
  { unfold entry_parts. rewrite He1. simpl. by rewrite <- Hps, length_fmap. }
  rewrite Hn.
  rewrite (refresh_same e (set_refs (refs x + 1) x) (s_parts d) _ σ1 He1 Hps).
  - by rewrite drop_all.
  - apply Forall_forall. intros j Hj. apply elem_of_seq in Hj. lia.
Qed.

Lemma byid_one_hit options d s e :
  ById.held_at s (view d) e →
  ById.addStylesToDom_one env options d s
  = ById.Done tt
      {| ById.stylesInDom := ById.stylesInDom s;
         ById.vars := upd_entry e (λ d, set_refs (refs d + 1) d)
                        (ById.vars s) |}.
Proof.
  intros [Hreg (x & He & Hps)]. simpl in *.
  unfold ById.addStylesToDom_one, ById.lookup_style.
  rewrite byid_bind_eq, Hreg.
  apply byid_lift_Return. by apply (hit_same e x).
Qed.

Lemma held_at_upd s g e e' f σ' :
  (∀ x, parts (f x) = parts x) →
  entries σ' = alter f e' (entries (ById.vars s)) →
  ById.held_at s g e →
  ById.held_at {| ById.stylesInDom := ById.stylesInDom s; ById.vars := σ' |}
    g e.
Proof.
  intros Hf Hent [Hreg (x & He & Hps)]. split; [done|]. simpl.
  rewrite Hent. destruct (decide (e = e')) as [->|Hne].
  - exists (f x). rewrite lookup_alter_eq, He. split; [done|].
    by rewrite Hf.
  - exists x. by rewrite lookup_alter_ne.
Qed.

Lemma byid_add_hits options ds es : ∀ s,
  Forall2 (λ d e, ById.held_at s (view d) e) ds es →
  ById.addStylesToDom env ds options s
  = ById.Done tt
      {| ById.stylesInDom := ById.stylesInDom s;
         ById.vars := foldl (λ σ e, upd_entry e (λ d, set_refs (refs d + 1) d)
                                      σ) (ById.vars s) es |}.
Proof.
  revert es. induction ds as [|d ds IH]; intros es s Hall.
  - apply Forall2_nil_inv_l in Hall as ->. simpl.
    unfold mret, ById.MS_ret. by rewrite byid_session_eta.
  - apply Forall2_cons_inv_l in Hall as (e & es' & Hd & Hall & ->).
    unfold ById.addStylesToDom. simpl.
    rewrite byid_bind_eq, (byid_one_hit options d s e Hd).
    apply (IH es').
    eapply Forall2_impl; [exact Hall|]. intros d' e' Hd'.
    by apply (held_at_upd s (view d') e' e
                (λ d, set_refs (refs d + 1) d)).
Qed.

Lemma byid_stage ds es : ∀ s,
  Forall2 (λ d e, ById.stylesInDom s !! s_id d = Some e) ds es →
  ById.mapS ById.stage_removal ds s
  = ById.Done es
      {| ById.stylesInDom := ById.stylesInDom s;
         ById.vars := foldl (λ σ e, upd_entry e (λ d, set_refs (refs d - 1) d)
                                      σ) (ById.vars s) es |}.
Proof.
  revert es. induction ds as [|d ds IH]; intros es s Hall.
  - apply Forall2_nil_inv_l in Hall as ->. simpl.
    unfold mret, ById.MS_ret. by rewrite byid_session_eta.
  - apply Forall2_cons_inv_l in Hall as (e & es' & Hd & Hall & ->).
    simpl. rewrite byid_bind_eq.
    unfold ById.stage_removal at 1, ById.lookup_style.
    rewrite byid_bind_eq, Hd, byid_bind_eq. unfold ById.lift at 1.
    rewrite modify_eq, byid_ret_eq, byid_bind_eq.
    rewrite (IH es'); [by rewrite byid_ret_eq|done].
Qed.

Lemma byid_keep_all es s :
  Forall (λ e, refs <$> entries (ById.vars s) !! e ≠ Some 0%Z) es →
  ById.forS (ById.remove_if_unreferenced env) es s = ById.Done tt s.
Proof.
  induction es as [|e es IH]; intros Hall; simpl; [done|].
  apply Forall_cons in Hall as [He Hall].
  rewrite byid_bind_eq. unfold ById.remove_if_unreferenced at 1.
  rewrite byid_bind_eq. unfold ById.lift at 1. rewrite gets_eq.
  rewrite decide_False by done. rewrite byid_ret_eq, byid_session_eta.
  by apply IH.
Qed.

Lemma applied_entries s gs :
  Forall (ById.applied s) gs →
  ∃ es, Forall2 (ById.held_at s) gs es
        ∧ Forall2 (λ g e, ∃ x, entries (ById.vars s) !! e = Some x
                               ∧ dom_id x = g.1 ∧ (0 < refs x)%Z) gs es.
Proof.
  induction 1 as [|g gs (e & x & Hreg & He & Hid & Hr & Hps) _ (es & H1 & H2)].
  - by exists [].
  - exists (e :: es). split; constructor; try done.
    + split; [done|]. by exists x.
    + by exists x.
Qed.

Lemma same_document_refl σ : same_document σ σ.
Proof. by repeat split. Qed.

Lemma same_document_trans σ1 σ2 σ3 :
  same_document σ1 σ2 → same_document σ2 σ3 → same_document σ1 σ3.
Proof.
  unfold same_document. intros H1 H2.
  destruct H1 as (?&?&?&?&?&?&?&?&?&?&?), H2 as (?&?&?&?&?&?&?&?&?&?&?).
  repeat split; congruence.
Qed.

Lemma byid_lift_bind {A B} (m : M A) (k : A → ById.MS B) s a σ :
  m (ById.vars s) = Return a σ →
  (ById.lift m ≫= k) s
  = k a {| ById.stylesInDom := ById.stylesInDom s; ById.vars := σ |}.
Proof. intros H. by rewrite byid_bind_eq, (byid_lift_Return m s a σ H). Qed.

(** The prologue of the entry point. *)
Lemma byid_install_unfold items options s :
  ∃ σp,
    let opts := effective_options env options (ById.vars s) in
    ById.install env items options s
    = (ById.addStylesToDom env (listToStyles (next_ref σp) items) opts ;;
       mret {| cl_styles := listToStyles (next_ref σp) items;
               cl_options := opts |})
        {| ById.stylesInDom := ById.stylesInDom s;
           ById.vars :=
             with_next_ref
               (next_ref σp + length (listToStyles (next_ref σp) items)) σp |}
    ∧ entries σp = entries (ById.vars s)
    ∧ next_ref (ById.vars s) ≤ next_ref σp
    ∧ same_document (ById.vars s) σp.
Proof.
  destruct s as [reg σ].
  unfold ById.install, effective_options, effective_singleton.
  cbn [ById.vars].
  destruct (default default_options options)
    as [cta [sg|] [a|] into at_]; cbn [raw_attrs raw_singleton
      raw_convertToAbsoluteUrls raw_insertInto raw_insertAt default].
  - eexists σ. split; [reflexivity|]. split; [done|]. split; [simpl; lia|].
    apply same_document_refl.
  - eexists _. split; [reflexivity|]. split; [done|]. split; [simpl; lia|]. by repeat split.
  - unfold isOldIE. destruct (isOldIE_memo σ) as [b|] eqn:Hm.
    + eexists σ. split.
      * erewrite byid_lift_bind by reflexivity.
        erewrite byid_lift_bind
          by (cbn [ById.vars]; rewrite Hm; reflexivity).
        erewrite byid_lift_bind by reflexivity. reflexivity.
      * split; [done|]. split; [simpl; lia|]. apply same_document_refl.
    + eexists _. split.
      * erewrite byid_lift_bind by reflexivity.
        erewrite byid_lift_bind
          by (cbn [ById.vars]; rewrite Hm; reflexivity).
        erewrite byid_lift_bind by reflexivity. reflexivity.
      * split; [done|]. split; [simpl; lia|]. by repeat split.
  - unfold isOldIE. destruct (isOldIE_memo σ) as [b|] eqn:Hm.
    + eexists _. split.
      * erewrite byid_lift_bind by reflexivity.
        erewrite byid_lift_bind
          by (cbn [ById.vars];
              change (isOldIE_memo (with_attrsObjs _ _))
                with (isOldIE_memo σ);
              rewrite Hm; reflexivity).
        erewrite byid_lift_bind by reflexivity. reflexivity.
      * split; [done|]. split; [simpl; lia|]. by repeat split.
    + eexists _. split.
      * erewrite byid_lift_bind by reflexivity.
        erewrite byid_lift_bind
          by (cbn [ById.vars];
              change (isOldIE_memo (with_attrsObjs _ _))
                with (isOldIE_memo σ);
              rewrite Hm; reflexivity).
        erewrite byid_lift_bind by reflexivity. reflexivity.
      * split; [done|]. split; [simpl; lia|]. by repeat split.
Qed.

Lemma held_fold (f : StyleInDOM → StyleInDOM) es (m : gmap nat StyleInDOM)
    e (ps : list Part) :
  (∀ x, parts (f x) = parts x) →
  (∃ x, m !! e = Some x ∧ h_obj <$> parts x = ps) →
  ∃ x, foldl (λ m e, alter f e m) m es !! e = Some x
       ∧ h_obj <$> parts x = ps.
Proof.
  intros Hf. revert m. induction es as [|e' es IH]; intros m (x & Hx & Hps);
    simpl; [eauto|].
  apply IH. destruct (decide (e = e')) as [->|Hne].
  - exists (f x). rewrite lookup_alter_eq, Hx. split; [done|].
    by rewrite Hf.
  - exists x. by rewrite lookup_alter_ne.
Qed.

(** Installing modules that are all held already: every descriptor
    finds its entry, so only the counts of the entries change. *)
Lemma byid_install_hits items options s es :
  Forall2 (ById.held_at s) (grouped items) es →
  ∃ c s', ById.install env items options s = ById.Done c s'
    ∧ view <$> cl_styles c = grouped items
    ∧ ById.stylesInDom s' = ById.stylesInDom s
    ∧ same_document (ById.vars s) (ById.vars s')
    ∧ entries (ById.vars s')
      = foldl (λ m e, alter (λ d, set_refs (refs d + 1) d) e m)
          (entries (ById.vars s)) es.
Proof.
  intros Hheld.
  destruct (byid_install_unfold items options s)
    as (σp & -> & Hent & _ & Hdoc).
  set (opts := effective_options env options (ById.vars s)).
  set (ds := listToStyles (next_ref σp) items).
  set (sb := {| ById.stylesInDom := ById.stylesInDom s; ById.vars := _ |}).
  rewrite byid_bind_eq, (byid_add_hits opts ds es sb).
  - eexists _, _. split; [reflexivity|]. simpl.
    split; [apply listToStyles_view|]. split; [done|].
    rewrite upd_entry_fold. simpl. split; [exact Hdoc|]. by rewrite Hent.
  - apply (Forall2_fmap_l view (ById.held_at sb)). subst ds.
    rewrite listToStyles_view.
    eapply Forall2_impl; [exact Hheld|].
    intros g e [Hreg (x & Hx & Hps)]. split; [done|]. exists x. simpl.
    by rewrite Hent.
Qed.

End ByIdModel.

Lemma is_applied_spec s gs :
  forallb (ById.is_applied s) gs = true → Forall (ById.applied s) gs.
Proof.
  intros H. apply Forall_forall. intros g Hg.
  rewrite forallb_forall in H.
  assert (Ht : ById.is_applied s g = true).
  { apply H. by apply list_elem_of_In. }
  unfold ById.is_applied in Ht. unfold ById.applied.
  destruct (ById.stylesInDom s !! g.1) as [e|]; [|discriminate Ht].
  destruct (entries (ById.vars s) !! e) as [x|] eqn:He; [|discriminate Ht].
  exists e, x.
  apply andb_prop in Ht as [Ht H3]. apply andb_prop in Ht as [H1 H2].
  apply bool_decide_eq_true_1 in H1, H2, H3. by repeat split.
Qed.

Lemma held_entries_NoDup s (gs : list (Z * list Part)) es :
  NoDup gs.*1 →
  Forall2 (λ g e, ∃ x, entries (ById.vars s) !! e = Some x
                       ∧ dom_id x = g.1 ∧ (0 < refs x)%Z) gs es →
  NoDup es.
Proof.
  intros Hnd Hall. revert Hnd.
  induction Hall as [|g e gs es (x & Hx & Hid & _) Hall IH]; intros Hnd.
  - constructor.
  - simpl in Hnd. apply NoDup_cons in Hnd as [Hnin Hnd].
    constructor; [|by apply IH].
    intros Hin. apply Hnin.
    apply list_elem_of_lookup in Hin as [k Hk].
    destruct (Forall2_lookup_r _ _ _ _ _ Hall Hk)
      as (g' & Hg' & x' & Hx' & Hid' & _).
    rewrite Hx in Hx'. injection Hx' as <-.
    rewrite <- Hid, Hid'. apply list_elem_of_fmap.
    exists g'. split; [done|]. by eapply list_elem_of_lookup_2.
Qed.

Lemma grouped_ids_NoDup items : NoDup (grouped items).*1.
Proof. rewrite grouped_ids. apply first_seen_NoDup. Qed.

(** In the id-keyed version, installing a list whose modules are all
    applied already, with the parts they have now, creates nothing: the
    call returns, the document, the registry and the module variables
    stay as they are, the entry of each module of the list is referenced
    once more, and the entries of the other ids are as before. *)
Theorem byid_install_again_shares_elements env items options s :
  Forall (ById.applied s) (grouped items) →
  ∃ c s', ById.install env items options s = ById.Done c s'
    ∧ view <$> cl_styles c = grouped items
    ∧ ById.stylesInDom s' = ById.stylesInDom s
    ∧ same_document (ById.vars s) (ById.vars s')
    ∧ (∀ g, g ∈ grouped items →
         ∃ e x, ById.stylesInDom s !! g.1 = Some e
                ∧ entries (ById.vars s) !! e = Some x
                ∧ entries (ById.vars s') !! e
                  = Some (set_refs (refs x + 1) x))
    ∧ (∀ i e x, ById.stylesInDom s !! i = Some e →
         entries (ById.vars s) !! e = Some x → dom_id x = i →
         i ∉ item_id <$> items →
         entries (ById.vars s') !! e = Some x).
Proof.
  intros Happ.
  destruct (applied_entries s _ Happ) as (es & Hheld & Hrefs).
  destruct (byid_install_hits env items options s es Hheld)
    as (c & s' & Hrun & Hview & Hreg & Hdoc & Hent).
  pose proof (held_entries_NoDup s _ es (grouped_ids_NoDup items) Hrefs)
    as Hnd.
  exists c, s'. repeat (split; [done|]). split.
  - intros g Hg. apply list_elem_of_lookup in Hg as [k Hk].
    destruct (Forall2_lookup_l _ _ _ _ _ Hheld Hk)
      as (e & He & Hr & x & Hx & _).
    exists e, x. repeat (split; [done|]).
    rewrite Hent, alter_fold_lookup by done.
    rewrite decide_True by (by eapply list_elem_of_lookup_2).
    by rewrite Hx.
  - intros i e x Hr Hx Hid Hni.
    rewrite Hent, alter_fold_lookup by done.
    rewrite decide_False; [done|].
    intros Hin. apply Hni.
    apply list_elem_of_lookup in Hin as [k Hk].
    destruct (Forall2_lookup_r _ _ _ _ _ Hrefs Hk)
      as (g & Hg & x' & Hx' & Hid' & _).
    rewrite Hx in Hx'. injection Hx' as <-.
    apply first_seen_elem. rewrite <- grouped_ids, <- Hid, Hid'.
    apply list_elem_of_fmap. exists g. split; [done|].
    by eapply list_elem_of_lookup_2.
Qed.

(** In the id-keyed version, calling [update] with a list that groups to
    the modules the closure holds, each applied with the parts it has
    now, returns and leaves everything as it was: the registry, every
    entry with its count, and the document. Only descriptor objects are
    allocated. *)
Theorem byid_update_with_same_list_changes_nothing env c items s :
  view <$> cl_styles c = grouped items →
  Forall (ById.applied s) (grouped items) →
  ById.update env c (Some items) s
  = ById.Done tt
      {| ById.stylesInDom := ById.stylesInDom s;
         ById.vars := with_next_ref
                        (next_ref (ById.vars s) + length (grouped items))
                        (ById.vars s) |}.
Proof.
  intros Hview Happ.
  destruct (applied_entries s _ Happ) as (es & Hheld & Hrefs).
  unfold ById.update.
  rewrite byid_bind_eq, (byid_stage (cl_styles c) es s).
  2:{ apply (Forall2_fmap_l view (λ g e, ById.stylesInDom s !! g.1 = Some e)).
      rewrite Hview. eapply Forall2_impl; [exact Hheld|].
      by intros g e [? _]. }
  rewrite byid_bind_eq.
  set (sa := {| ById.stylesInDom := ById.stylesInDom s; ById.vars := _ |}).
  erewrite byid_lift_bind by reflexivity.
  set (ds := listToStyles _ items).
  set (sb := {| ById.stylesInDom := ById.stylesInDom sa; ById.vars := _ |}).
  rewrite (byid_add_hits env (cl_options c) ds es sb).
  2:{ apply (Forall2_fmap_l view (ById.held_at sb)). subst ds.
      rewrite listToStyles_view.
      eapply Forall2_impl; [exact Hheld|].
      intros g e [Hreg Hx]. split; [done|]. subst sb sa. simpl.
      rewrite upd_entry_fold. simpl.
      by apply (held_fold (λ d, set_refs (refs d - 1) d)). }
  assert (Hlen : length ds = length (grouped items)).
  { by rewrite <- (listToStyles_view (next_ref (ById.vars sa)) items),
      length_fmap. }
  assert (Hback :
    foldl (λ σ e, upd_entry e (λ d, set_refs (refs d + 1) d) σ)
      (ById.vars sb) es
    = with_next_ref (next_ref (ById.vars s) + length (grouped items))
        (ById.vars s)).
  { rewrite upd_entry_fold. subst sb sa. cbn [ById.vars].
    rewrite Hlen, upd_entry_fold. cbn [entries with_next_ref with_entries].
    rewrite alter_fold_cancel.
    - by destruct (ById.vars s).
    - intros x. apply refs_up_down_comm.
    - intros x. apply refs_up_down. }
  rewrite Hback. cbn [ById.stylesInDom].
  apply byid_keep_all. cbn [ById.vars].
  apply Forall_forall. intros e He.
  apply list_elem_of_lookup in He as [k Hk].
  destruct (Forall2_lookup_r _ _ _ _ _ Hrefs Hk) as (g & _ & x & Hx & _ & Hr).
  cbn [entries with_next_ref]. rewrite Hx. simpl. intros [= H0]. lia.
Qed.

(** *** Modules that are new to the registry *)

Section ByIdMiss.
Context (env : Env).

Lemma addStyle_obj p options σ h σ' :
  addStyle env p options σ = Return h σ' →
  h_obj h = p ∧ is_singleton_slot h = singleton options.
Proof.
  unfold addStyle. intros H.
  destruct (singleton options).
  - apply bind_Return in H as (i & σ1 & _ & H).
    apply bind_Return in H as (cur & σ2 & _ & H).
    apply bind_Return in H as (el & σ3 & _ & H).
    apply bind_Return in H as ([] & σ4 & _ & H).
    by injection H as <- _.
  - destruct (truthy_opt (sourceMap p) && has_blob_api env).
    + apply bind_Return in H as (el & σ3 & _ & H).
      apply bind_Return in H as ([] & σ4 & _ & H).
      by injection H as <- _.
    + apply bind_Return in H as (el & σ3 & _ & H).
      apply bind_Return in H as ([] & σ4 & _ & H).
      by injection H as <- _.
Qed.

Lemma parts_objs options ps : ∀ σ hs σ',
  mapM' (λ p, addStyle env p options) ps σ = Return hs σ' →
  h_obj <$> hs = ps ∧ entries σ' = entries σ ∧ next_ref σ' = next_ref σ
  ∧ Forall (λ h, is_singleton_slot h = singleton options) hs.
Proof.
  induction ps as [|p ps IH]; intros σ hs σ' H; simpl in H.
  - by injection H as <- <-.
  - apply bind_Return in H as (h & σ1 & H1 & H).
    apply bind_Return in H as (hs' & σ2 & H2 & H).
    injection H as <- <-.
    destruct (IH _ _ _ H2) as (Ho & He & Hn & Hown).
    destruct (addStyle_registry env p options σ h σ1 H1) as (_ & He1 & Hn1).
    destruct (addStyle_obj _ _ _ _ _ H1) as [Hobj Hsl].
    rewrite fmap_cons, Ho, Hobj. split; [done|].
    split; [congruence|]. split; [congruence|]. by constructor.
Qed.

Lemma byid_one_miss options d s s' :
  ById.stylesInDom s !! s_id d = None →
  ById.addStylesToDom_one env options d s = ById.Done tt s' →
  ∃ hs, h_obj <$> hs = s_parts d
        ∧ Forall (λ h, is_singleton_slot h = singleton options) hs
        ∧ ById.stylesInDom s'
          = <[s_id d := next_ref (ById.vars s)]> (ById.stylesInDom s)
        ∧ entries (ById.vars s')
          = <[next_ref (ById.vars s) :=
                {| dom_id := s_id d; refs := 1; parts := hs |}]>
              (entries (ById.vars s))
        ∧ next_ref (ById.vars s') = S (next_ref (ById.vars s)).
Proof.
  intros Hmiss. unfold ById.addStylesToDom_one, ById.lookup_style.
  rewrite byid_bind_eq, Hmiss. intros H.
  apply byid_bind_Done in H as (hs & s1 & H1 & H).
  apply byid_lift_Done in H1 as [H1 Hreg1].
  destruct (parts_objs options _ _ _ _ H1) as (Ho & He & Hn & Hown).
  erewrite byid_lift_bind in H by reflexivity.
  erewrite byid_lift_bind in H by reflexivity.
  injection H as <-. exists hs. simpl. rewrite Hreg1, He, Hn. done.
Qed.

Lemma byid_add_misses options ds : ∀ s s',
  NoDup (s_id <$> ds) →
  (∀ d, d ∈ ds → ById.stylesInDom s !! s_id d = None) →
  ById.addStylesToDom env ds options s = ById.Done tt s' →
  Forall (λ d, ∃ e x, ById.stylesInDom s' !! s_id d = Some e
                      ∧ entries (ById.vars s') !! e = Some x
                      ∧ dom_id x = s_id d ∧ refs x = 1%Z
                      ∧ h_obj <$> parts x = s_parts d
                      ∧ Forall (λ h, is_singleton_slot h
                                     = singleton options) (parts x)) ds
  ∧ (∀ e, e < next_ref (ById.vars s) →
       entries (ById.vars s') !! e = entries (ById.vars s) !! e)
  ∧ (∀ i, i ∉ s_id <$> ds →
       ById.stylesInDom s' !! i = ById.stylesInDom s !! i)
  ∧ next_ref (ById.vars s) ≤ next_ref (ById.vars s').
Proof.
  induction ds as [|d ds IH]; intros s s' Hnd Hfresh H.
  - injection H as <-. by repeat split.
  - unfold ById.addStylesToDom in H. simpl in H.
    apply byid_bind_Done in H as ([] & s1 & H1 & H).
    simpl in Hnd. apply NoDup_cons in Hnd as [Hnin Hnd].
    destruct (byid_one_miss options d s s1 (Hfresh d ltac:(left)) H1)
      as (hs & Ho & Hown & Hreg1 & Hent1 & Hn1).
    destruct (IH s1 s' Hnd) as (Hall & Hframe & Hregs & Hle); [|exact H|].
    { intros d' Hd'. rewrite Hreg1, lookup_insert_ne.
      - apply Hfresh. by right.
      - intros Heq. apply Hnin. rewrite Heq. by apply list_elem_of_fmap_2. }
    split; [|split; [|split]].
    + constructor; [|done].
      exists (next_ref (ById.vars s)), {| dom_id := s_id d; refs := 1;
                                          parts := hs |}.
      rewrite (Hregs _ Hnin), Hreg1, lookup_insert_eq.
      rewrite Hframe by lia. rewrite Hent1, lookup_insert_eq. done.
    + intros e He. rewrite Hframe by lia. rewrite Hent1.
      apply lookup_insert_ne. lia.
    + intros i Hi. rewrite Hregs, Hreg1.
      * apply lookup_insert_ne. intros <-. apply Hi. left.
      * intros Hin. apply Hi. by right.
    + lia.
Qed.

(** What an install of modules that are all new leaves behind. *)
Lemma byid_install_fresh items options s c s' :
  (∀ i, i ∈ item_id <$> items → ById.stylesInDom s !! i = None) →
  ById.install env items options s = ById.Done c s' →
  view <$> cl_styles c = grouped items
  ∧ Forall (λ g, ∃ e x, ById.stylesInDom s' !! g.1 = Some e
                        ∧ entries (ById.vars s') !! e = Some x
                        ∧ dom_id x = g.1 ∧ refs x = 1%Z
                        ∧ h_obj <$> parts x = g.2
                        ∧ Forall (λ h, is_singleton_slot h
                                       = singleton (cl_options c))
                            (parts x)) (grouped items)
  ∧ cl_options c = effective_options env options (ById.vars s).
Proof.
  intros Hfresh.
  destruct (byid_install_unfold env items options s)
    as (σp & -> & Hent & _ & Hdoc).
  intros H. apply byid_bind_Done in H as ([] & s1 & H1 & H).
  injection H as <- <-. simpl.
  split; [apply listToStyles_view|]. split; [|done].
  apply byid_add_misses in H1 as (Hall & _).
  - rewrite <- (listToStyles_view (next_ref σp) items).
    apply Forall_fmap. eapply Forall_impl; [exact Hall|]. by intros d.
  - replace (s_id <$> listToStyles (next_ref σp) items)
      with ((view <$> listToStyles (next_ref σp) items).*1).
    + rewrite listToStyles_view. apply grouped_ids_NoDup.
    + rewrite <- list_fmap_compose. done.
  - intros d Hd. simpl. apply Hfresh, first_seen_elem.
    rewrite <- grouped_ids, <- (listToStyles_view (next_ref σp) items).
    rewrite <- list_fmap_compose. by apply (list_elem_of_fmap_2 (fst ∘ view)).
Qed.

End ByIdMiss.

(** In the id-keyed version the elements of a module are shared by the
    calls that install it. After a list of modules that are new to the
    registry has been installed, installing the same list again returns
    without touching the document, and tearing down either of the two
    closures then returns as well and leaves the document, the registry
    and every entry exactly as the first call made them: the elements
    stay for the closure that is left. *)
Theorem byid_elements_outlive_first_teardown env items o1 o2 s0 c1 s1 :
  (∀ i, i ∈ item_id <$> items → ById.stylesInDom s0 !! i = None) →
  ById.install env items o1 s0 = ById.Done c1 s1 →
  ∃ c2 s2,
    ById.install env items o2 s1 = ById.Done c2 s2
    ∧ same_document (ById.vars s1) (ById.vars s2)
    ∧ ∀ c, c = c1 ∨ c = c2 →
        ∃ s3, ById.update env c None s2 = ById.Done tt s3
              ∧ same_document (ById.vars s1) (ById.vars s3)
              ∧ ById.stylesInDom s3 = ById.stylesInDom s1
              ∧ entries (ById.vars s3) = entries (ById.vars s1).
Proof.
  intros Hfresh H1.
  destruct (byid_install_fresh env items o1 s0 c1 s1 Hfresh H1)
    as (Hview1 & Hall1 & _).
  assert (Happ : Forall (ById.applied s1) (grouped items)).
  { eapply Forall_impl; [exact Hall1|].
    intros g (e & x & ? & ? & ? & Hr & ? & _). exists e, x.
    repeat (split; [done|]). split; [lia|done]. }
  destruct (applied_entries s1 _ Happ) as (es & Hheld & Hrefs).
  destruct (byid_install_hits env items o2 s1 es Hheld)
    as (c2 & s2 & H2 & Hview2 & Hreg2 & Hdoc2 & Hent2).
  exists c2, s2. split; [done|]. split; [done|].
  intros c Hc.
  assert (Hview : view <$> cl_styles c = grouped items)
    by (by destruct Hc as [-> | ->]).
  unfold ById.update.
  rewrite byid_bind_eq, (byid_stage (cl_styles c) es s2).
  2:{ apply (Forall2_fmap_l view
               (λ g e, ById.stylesInDom s2 !! g.1 = Some e)).
      rewrite Hview, Hreg2. eapply Forall2_impl; [exact Hheld|].
      by intros g e [? _]. }
  rewrite byid_bind_eq.
  set (sa := {| ById.stylesInDom := ById.stylesInDom s2; ById.vars := _ |}).
  change ((mret tt : ById.MS unit) sa) with (ById.Done tt sa).
  cbn beta iota.
  assert (Hent : entries (ById.vars sa) = entries (ById.vars s1)).
  { subst sa. cbn [ById.vars]. rewrite upd_entry_fold.
    cbn [entries with_entries]. rewrite Hent2.
    apply alter_fold_cancel.
    - intros x. symmetry. apply refs_up_down_comm.
    - intros x. apply refs_down_up. }
  exists sa. split; [|split; [|split]].
  - apply byid_keep_all. rewrite Hent.
    apply Forall_forall. intros e He.
    apply list_elem_of_lookup in He as [k Hk].
    destruct (Forall2_lookup_r _ _ _ _ _ Hrefs Hk)
      as (g & _ & x & Hx & _ & Hr).
    rewrite Hx. simpl. intros [= H0]. lia.
  - subst sa. cbn [ById.vars]. rewrite upd_entry_fold. exact Hdoc2.
  - done.
  - exact Hent.
Qed.

(** *** A handle that stays behind after its removal *)

Section ByIdStale.
Context (env : Env).

Lemma handle_remove_cases h σ :
  (is_singleton_slot h = false ∧ parent σ !! h_el h = None
   ∧ handle_remove env h σ = Throw TypeError σ)
  ∨ (∃ σ', handle_remove env h σ = Return tt σ'
           ∧ entries σ' = entries σ
           ∧ (∀ el, parent σ !! el = None → parent σ' !! el = None)
           ∧ (is_singleton_slot h = false → parent σ' !! h_el h = None)).
Proof.
  assert (Hrm : ∀ el,
    (parent σ !! el = None ∧ removeStyleElement el σ = Throw TypeError σ)
    ∨ (∃ σ', removeStyleElement el σ = Return tt σ'
             ∧ entries σ' = entries σ ∧ nodes σ' = nodes σ
             ∧ parent σ' = delete el (parent σ))).
  { intros el. unfold removeStyleElement, detach.
    destruct (parent σ !! el) as [p|]; [right|by left].
    eexists. split; [reflexivity|]. done. }
  unfold handle_remove, is_singleton_slot.
  destruct (h_strategy h) as [i|o|].
  - right. unfold applyToSingletonTag. mstep.
    destruct (has_styleSheet env); unfold replaceText; mstep;
      (eexists; split; [reflexivity|]; by repeat split).
  - destruct (Hrm (h_el h)) as [[Hp Ht]|(σ1 & Hr & He & Hn & Hp)].
    + left. mstep. by rewrite Ht.
    + right. mstep. rewrite Hr. mstep.
      assert (Hdel : ∀ el, parent σ !! el = None → parent σ1 !! el = None).
      { intros el Hel. rewrite Hp. by apply lookup_delete_None; right. }
      destruct (href_of σ1 (h_el h)); unfold revokeObjectURL; mstep;
        (eexists; split; [reflexivity|]; simpl; split; [done|];
         split; [done|]; intros _; rewrite Hp; apply lookup_delete_eq).
  - destruct (Hrm (h_el h)) as [[Hp Ht]|(σ1 & Hr & He & Hn & Hp)].
    + by left.
    + right. exists σ1. split; [done|]. split; [done|]. split.
      * intros el Hel. rewrite Hp. by apply lookup_delete_None; right.
      * intros _. rewrite Hp. apply lookup_delete_eq.
Qed.

(** One call of a handle of the entry: it throws a TypeError, or it
    returns with the handle written back at its index. *)
Lemma invoke_part_cases e j arg σ :
  (∃ σ', invoke_part env e j arg σ = Throw TypeError σ')
  ∨ (∃ x h h' σ1,
       entries σ !! e = Some x ∧ parts x !! j = Some h
       ∧ invoke_part env e j arg σ
         = Return tt (upd_entry e (λ d, set_parts (<[j := h']> (parts d)) d)
                        σ1)
       ∧ entries σ1 = entries σ
       ∧ h_el h' = h_el h ∧ h_strategy h' = h_strategy h
       ∧ (∀ el, parent σ !! el = None → parent σ1 !! el = None)
       ∧ (arg = None → is_singleton_slot h = false →
          parent σ1 !! h_el h = None)).
Proof.
  destruct (entries σ !! e) as [x|] eqn:He.
  2:{ left. unfold invoke_part. mstep. unfold entry_parts.
      rewrite He, lookup_nil. mstep. by eexists. }
  destruct (parts x !! j) as [h|] eqn:Hj.
  2:{ left. unfold invoke_part. mstep. unfold entry_parts.
      rewrite He, Hj. mstep. by eexists. }
  destruct arg as [p|].
  - right.
    destruct (updateStyle_part_keeps env h p σ)
      as (h' & σ1 & Hu & Hel & Hst & Hpar & _ & Hent & _).
    exists x, h, h', σ1.
    split; [done|]. split; [done|].
    split; [by apply (invoke_part_update env e j x h p h' σ σ1)|].
    repeat (split; [done|]). split; [|done].
    intros el. by rewrite Hpar.
  - destruct (handle_remove_cases h σ)
      as [(_ & _ & Ht)|(σ1 & Hr & Hent & Hpar & Hown)].
    + left. unfold invoke_part. mstep. unfold entry_parts.
      rewrite He, Hj. unfold updateStyle. mstep. rewrite Ht. by eexists.
    + right. exists x, h, h, σ1.
      split; [done|]. split; [done|]. split.
      { unfold invoke_part. mstep. unfold entry_parts.
        rewrite He, Hj. unfold updateStyle. mstep. rewrite Hr. by mstep. }
      split; [done|]. split; [done|]. split; [done|]. split; [done|].
      intros _. exact Hown.
Qed.

Lemma invoke_part_error e j arg σ err σ' :
  invoke_part env e j arg σ = Throw err σ' → err = TypeError.
Proof.
  destruct (invoke_part_cases e j arg σ)
    as [(σ1 & ->)|(x & h & h' & σ1 & _ & _ & -> & _)]; [|done].
  by intros [= <- _].
Qed.

Lemma invoke_stale_throws e m σ :
  ById.stale σ e m → invoke_part env e m None σ = Throw TypeError σ.
Proof.
  intros (x & h & He & Hm & Hown & Hpar).
  unfold invoke_part. mstep. unfold entry_parts. rewrite He, Hm.
  unfold updateStyle. mstep.
  destruct (handle_remove_cases h σ)
    as [(_ & _ & ->)|(σ1 & Hr & _)]; [done|].
  exfalso. unfold handle_remove, is_singleton_slot in *.
  destruct (h_strategy h); [done| |];
    [apply bind_Return in Hr as ([] & σ2 & Hr & _)|];
    unfold removeStyleElement in Hr; by rewrite Hpar in Hr.
Qed.

(** A call that returns leaves the handles at the other indices, the
    count and the length of the list as they are. *)
Lemma invoke_keeps_handle e j arg σ σ' x m h :
  invoke_part env e j arg σ = Return tt σ' →
  entries σ !! e = Some x → parts x !! m = Some h → j ≠ m →
  ∃ x', entries σ' !! e = Some x' ∧ parts x' !! m = Some h
        ∧ refs x' = refs x ∧ length (parts x') = length (parts x)
        ∧ (parent σ !! h_el h = None → parent σ' !! h_el h = None).
Proof.
  intros Hr He Hm Hne.
  destruct (invoke_part_cases e j arg σ)
    as [(σ1 & Ht)|(x0 & h0 & h' & σ1 & He0 & _ & Hr' & Hent & _ & _ & Hpar
                   & _)].
  { by rewrite Ht in Hr. }
  rewrite Hr' in Hr. injection Hr as <-.
  rewrite He in He0. injection He0 as <-.
  eexists. unfold upd_entry. cbn [entries with_entries].
  rewrite lookup_alter_eq, Hent, He. split; [reflexivity|]. simpl.
  rewrite list_lookup_insert_ne by done. rewrite length_insert.
  repeat (split; [done|]). apply Hpar.
Qed.

Lemma invoke_keeps_stale e j arg σ σ' m :
  invoke_part env e j arg σ = Return tt σ' → j ≠ m →
  ById.stale σ e m → ById.stale σ' e m.
Proof.
  intros Hr Hne (x & h & He & Hm & Hown & Hpar).
  destruct (invoke_keeps_handle e j arg σ σ' x m h Hr He Hm Hne)
    as (x' & He' & Hm' & _ & _ & Hp).
  exists x', h. auto.
Qed.

Lemma invoke_makes_stale e m σ σ' x h :
  invoke_part env e m None σ = Return tt σ' →
  entries σ !! e = Some x → parts x !! m = Some h →
  is_singleton_slot h = false →
  ById.stale σ' e m
  ∧ ∃ x', entries σ' !! e = Some x' ∧ refs x' = refs x
          ∧ length (parts x') = length (parts x).
Proof.
  intros Hr He Hm Hown.
  destruct (invoke_part_cases e m None σ)
    as [(σ1 & Ht)|(x0 & h0 & h' & σ1 & He0 & Hm0 & Hr' & Hent & Hel & Hst
                   & _ & Hgone)].
  { by rewrite Ht in Hr. }
  rewrite Hr' in Hr. injection Hr as <-.
  rewrite He in He0. injection He0 as <-.
  rewrite Hm in Hm0. injection Hm0 as <-.
  assert (Hlt : m < length (parts x)) by (by eapply lookup_lt_Some).
  unfold upd_entry.
  split.
  - eexists _, h'. cbn [entries with_entries parent].
    rewrite lookup_alter_eq, Hent, He. split; [reflexivity|]. simpl.
    rewrite list_lookup_insert_eq by done. split; [done|]. split.
    + unfold is_singleton_slot in *. by rewrite Hst.
    + rewrite Hel. by apply Hgone.
  - eexists. cbn [entries with_entries].
    rewrite lookup_alter_eq, Hent, He. split; [reflexivity|]. simpl.
    by rewrite length_insert.
Qed.

(** The loop of a refresh over the handles of the entry. *)
Lemma loop_error e (ps : list Part) js : ∀ σ err σ',
  forM (λ j, invoke_part env e j (ps !! j)) js σ = Throw err σ' →
  err = TypeError.
Proof.
  induction js as [|j js IH]; intros σ err σ' H; simpl in H; [done|].
  apply bind_Throw in H as [H|([] & σ1 & _ & H)].
  - by eapply invoke_part_error.
  - by eapply IH.
Qed.

Lemma loop_stale_throws e (ps : list Part) m js : ∀ σ,
  ById.stale σ e m → m ∈ js → ps !! m = None →
  ∃ σ', forM (λ j, invoke_part env e j (ps !! j)) js σ = Throw TypeError σ'.
Proof.
  induction js as [|j js IH]; intros σ Hst Hin Hm; simpl.
  { by apply elem_of_nil in Hin. }
  rewrite bind_eq.
  destruct (decide (j = m)) as [->|Hne].
  - rewrite Hm, (invoke_stale_throws e m σ Hst). by eexists.
  - destruct (invoke_part env e j (ps !! j) σ) as [[] σ1|err σ1] eqn:Hr.
    + apply IH; [|by apply elem_of_cons in Hin as [->|]|done].
      by eapply invoke_keeps_stale.
    + apply invoke_part_error in Hr as ->. by eexists.
Qed.

Lemma loop_keeps_stale e (ps : list Part) m js : ∀ σ σ',
  forM (λ j, invoke_part env e j (ps !! j)) js σ = Return tt σ' →
  m ∉ js → ById.stale σ e m → ById.stale σ' e m.
Proof.
  induction js as [|j js IH]; intros σ σ' H Hnin Hst; simpl in H.
  { by injection H as <-. }
  apply bind_Return in H as ([] & σ1 & H1 & H).
  apply not_elem_of_cons in Hnin as [Hne Hnin].
  eapply IH; [exact H|done|]. by eapply invoke_keeps_stale.
Qed.

Lemma loop_keeps_shape e (ps : list Part) js : ∀ σ σ' x,
  forM (λ j, invoke_part env e j (ps !! j)) js σ = Return tt σ' →
  entries σ !! e = Some x →
  ∃ x', entries σ' !! e = Some x' ∧ refs x' = refs x
        ∧ length (parts x') = length (parts x).
Proof.
  induction js as [|j js IH]; intros σ σ' x H He; simpl in H.
  { injection H as <-. by exists x. }
  apply bind_Return in H as ([] & σ1 & H1 & H).
  destruct (invoke_part_cases e j (ps !! j) σ)
    as [(σ2 & Ht)|(x0 & h0 & h' & σ2 & He0 & _ & Hr' & Hent & _)].
  { by rewrite Ht in H1. }
  rewrite Hr' in H1. injection H1 as <-.
  rewrite He in He0. injection He0 as <-.
  destruct (IH _ _ (set_parts (<[j := h']> (parts x)) x) H)
    as (x' & He' & Hrefs & Hlen).
  { unfold upd_entry. cbn [entries with_entries].
    by rewrite lookup_alter_eq, Hent, He. }
  exists x'. split; [done|]. split; [done|].
  rewrite Hlen. simpl. apply length_insert.
Qed.

Lemma loop_makes_stale e (ps : list Part) m js : ∀ σ σ' x h,
  forM (λ j, invoke_part env e j (ps !! j)) js σ = Return tt σ' →
  entries σ !! e = Some x → parts x !! m = Some h →
  is_singleton_slot h = false →
  NoDup js → m ∈ js → ps !! m = None →
  ById.stale σ' e m.
Proof.
  induction js as [|j js IH]; intros σ σ' x h H He Hm Hown Hnd Hin Hnone;
    simpl in H.
  { by apply elem_of_nil in Hin. }
  apply bind_Return in H as ([] & σ1 & H1 & H).
  apply NoDup_cons in Hnd as [Hnin Hnd].
  destruct (decide (j = m)) as [->|Hne].
  - rewrite Hnone in H1.
    destruct (invoke_makes_stale e m σ σ1 x h H1 He Hm Hown) as [Hst _].
    by eapply loop_keeps_stale.
  - destruct (invoke_keeps_handle e j _ σ σ1 x m h H1 He Hm Hne)
      as (x' & He' & Hm' & _).
    eapply (IH σ1 σ' x' h); try done.
    by apply elem_of_cons in Hin as [->|].
Qed.

End ByIdStale.

Section ByIdPoison.
Context (env : Env).

Lemma stale_upd_entry σ e e' m (g : StyleInDOM → StyleInDOM) :
  (∀ x, parts (g x) = parts x) →
  ById.stale σ e m → ById.stale (upd_entry e' g σ) e m.
Proof.
  intros Hg (x & h & He & Hm & Hown & Hpar).
  unfold ById.stale, upd_entry. cbn [entries with_entries parent].
  destruct (decide (e = e')) as [->|Hne].
  - exists (g x), h. rewrite lookup_alter_eq, He, Hg. done.
  - exists x, h. by rewrite lookup_alter_ne.
Qed.

(** A refresh that finds a stale handle beyond the parts of the new
    descriptor throws. *)
Lemma byid_one_stale_throws options d s e m :
  ById.stylesInDom s !! s_id d = Some e →
  ById.stale (ById.vars s) e m → length (s_parts d) ≤ m →
  ∃ s', ById.addStylesToDom_one env options d s = ById.Raised TypeError s'.
Proof.
  intros Hreg Hst Hlen.
  unfold ById.addStylesToDom_one, ById.lookup_style.
  rewrite byid_bind_eq, Hreg.
  set (σ1 := upd_entry e (λ d, set_refs (refs d + 1) d) (ById.vars s)).
  assert (Hst1 : ById.stale σ1 e m) by (by apply stale_upd_entry).
  destruct Hst1 as (x & h & He & Hm & Hown & Hpar).
  assert (Hlt : m < length (parts x)) by (by eapply lookup_lt_Some).
  destruct (loop_stale_throws env e (s_parts d) m
              (seq 0 (length (parts x))) σ1) as [σ2 Hloop].
  { by exists x, h. }
  { apply elem_of_seq. lia. }
  { by apply lookup_ge_None_2. }
  eexists. apply (byid_lift_Throw _ _ _ σ2).
  mstep. fold σ1. unfold entry_parts. rewrite He.
  by rewrite Hloop.
Qed.

(** A refresh that returns has called the surplus handle for a
    removal: from then on the handle is stale. *)
Lemma byid_one_makes_stale options d s s' e x m h :
  ById.stylesInDom s !! s_id d = Some e →
  entries (ById.vars s) !! e = Some x → parts x !! m = Some h →
  is_singleton_slot h = false → length (s_parts d) ≤ m →
  ById.addStylesToDom_one env options d s = ById.Done tt s' →
  ById.stylesInDom s' = ById.stylesInDom s
  ∧ ById.stale (ById.vars s') e m
  ∧ ∃ x', entries (ById.vars s') !! e = Some x' ∧ refs x' = (refs x + 1)%Z
          ∧ length (parts x') = length (parts x).
Proof.
  intros Hreg He Hm Hown Hlen.
  unfold ById.addStylesToDom_one, ById.lookup_style.
  rewrite byid_bind_eq, Hreg. intros H.
  apply byid_lift_Done in H as [H Hreg'].
  split; [done|].
  rewrite bind_eq, modify_eq in H.
  set (σ1 := upd_entry e (λ d, set_refs (refs d + 1) d) (ById.vars s)) in *.
  assert (He1 : entries σ1 !! e = Some (set_refs (refs x + 1) x)).
  { subst σ1. unfold upd_entry. cbn [entries with_entries].
    by rewrite lookup_alter_eq, He. }
  rewrite bind_eq, gets_eq in H. unfold entry_parts in H.
  rewrite He1 in H. cbn [parts set_refs] in H.
  assert (Hlt : m < length (parts x)) by (by eapply lookup_lt_Some).
  apply bind_Return in H as ([] & σ2 & Hloop & Hpush).
  rewrite drop_ge in Hpush by lia. injection Hpush as ->.
  split.
  - eapply (loop_makes_stale env e (s_parts d) m _ σ1 _
              (set_refs (refs x + 1) x) h); try done.
    + apply NoDup_seq.
    + apply elem_of_seq. lia.
    + by apply lookup_ge_None_2.
  - destruct (loop_keeps_shape env e (s_parts d) _ σ1 _ _ Hloop He1)
      as (x' & He' & Hrefs & Hl).
    exists x'. split; [done|]. by rewrite Hrefs, Hl.
Qed.

Lemma byid_stage_one d s :
  ById.stage_removal d s
  = match ById.stylesInDom s !! s_id d with
    | Some e =>
        ById.Done e
          {| ById.stylesInDom := ById.stylesInDom s;
             ById.vars := upd_entry e (λ d, set_refs (refs d - 1) d)
                            (ById.vars s) |}
    | None => ById.Raised TypeError s
    end.
Proof.
  unfold ById.stage_removal, ById.lookup_style. rewrite byid_bind_eq.
  by destruct (ById.stylesInDom s !! s_id d).
Qed.

Lemma byid_stage_outcome ds : ∀ s,
  (∃ s', ById.mapS ById.stage_removal ds s = ById.Raised TypeError s')
  ∨ (∃ es s', ById.mapS ById.stage_removal ds s = ById.Done es s'
              ∧ ById.stylesInDom s' = ById.stylesInDom s
              ∧ ∀ e m, ById.stale (ById.vars s) e m →
                       ById.stale (ById.vars s') e m).
Proof.
  induction ds as [|d ds IH]; intros s.
  - right. by exists [], s.
  - cbn [ById.mapS]. rewrite byid_bind_eq, byid_stage_one.
    destruct (ById.stylesInDom s !! s_id d) as [e|] eqn:Hd.
    2:{ left. by eexists. }
    set (s1 := {| ById.stylesInDom := ById.stylesInDom s; ById.vars := _ |}).
    rewrite byid_bind_eq.
    destruct (IH s1) as [[s' ->]|(es & s' & -> & Hreg & Hst)].
    + left. by eexists.
    + right. exists (e :: es), s'. split; [reflexivity|]. split; [done|].
      intros e' m Hs. apply Hst. subst s1. cbn [ById.vars].
      by apply stale_upd_entry.
Qed.

Lemma grouped_single base items i (ps : list Part) :
  grouped items = [(i, ps)] →
  ∃ d, listToStyles base items = [d] ∧ s_id d = i ∧ s_parts d = ps.
Proof.
  intros Hg. pose proof (listToStyles_view base items) as Hv.
  rewrite Hg in Hv.
  destruct (listToStyles base items) as [|d [|d' l]]; [done| |done].
  injection Hv as Hi Hp. by exists d.
Qed.

(** Once an entry has a stale handle, an update with a list that has
    that module with no part for the handle throws. *)
Lemma byid_update_stale c items s i e m ps :
  ById.stylesInDom s !! i = Some e → ById.stale (ById.vars s) e m →
  grouped items = [(i, ps)] → length ps ≤ m →
  ∃ s', ById.update env c (Some items) s = ById.Raised TypeError s'.
Proof.
  intros Hreg Hst Hg Hlen. unfold ById.update. rewrite byid_bind_eq.
  destruct (byid_stage_outcome (cl_styles c) s)
    as [[s' ->]|(es & sa & -> & Hrega & Hsta)]; [by eexists|].
  rewrite byid_bind_eq.
  erewrite byid_lift_bind by reflexivity.
  destruct (grouped_single (next_ref (ById.vars sa)) items i ps Hg)
    as (d & -> & Hi & Hp).
  unfold ById.addStylesToDom. simpl. rewrite byid_bind_eq.
  destruct (byid_one_stale_throws (cl_options c) d
              {| ById.stylesInDom := ById.stylesInDom sa;
                 ById.vars := with_next_ref
                                (next_ref (ById.vars sa) + 1)
                                (ById.vars sa) |} e m) as [s' ->].
  - simpl. by rewrite Hi, Hrega.
  - destruct (Hsta e m Hst) as (x & h & ? & ? & ? & ?). by exists x, h.
  - by rewrite Hp.
  - by eexists.
Qed.

(** What an update that drops parts of the one module of a closure
    leaves behind. *)
Lemma byid_after_lost_part items1 items2 options i ps1 ps2 s0 c s1 s2 :
  own_elements env options → isOldIE_memo_wf env (ById.vars s0) →
  ById.stylesInDom s0 !! i = None →
  grouped items1 = [(i, ps1)] → grouped items2 = [(i, ps2)] →
  length ps2 < length ps1 →
  ById.install env items1 options s0 = ById.Done c s1 →
  ById.update env c (Some items2) s1 = ById.Done tt s2 →
  ∃ d e x2,
    cl_styles c = [d] ∧ s_id d = i
    ∧ ById.stylesInDom s2 !! i = Some e
    ∧ entries (ById.vars s2) !! e = Some x2
    ∧ refs x2 = 1%Z ∧ length (parts x2) = length ps1
    ∧ ∀ m, length ps2 ≤ m < length ps1 → ById.stale (ById.vars s2) e m.
Proof.
  intros Hown Hmemo Hfresh Hg1 Hg2 Hlt Hinst Hupd.
  destruct (byid_install_fresh env items1 options s0 c s1) as (Hv & Hall & Ho);
    [|done|].
  { intros j Hj. apply first_seen_elem in Hj.
    rewrite <- grouped_ids, Hg1 in Hj. by apply list_elem_of_singleton in Hj
      as ->. }
  rewrite Hg1 in Hall, Hv.
  apply Forall_singleton in Hall
    as (e & x & Hreg & He & _ & Hrefs & Hobj & Hslots).
  cbn [fst snd] in *.
  rewrite Ho, (effective_singleton_own env options _ Hown Hmemo) in Hslots.
  destruct (cl_styles c) as [|d [|d' l]] eqn:Hds; [done| |done].
  injection Hv as Hdi Hdp.
  assert (Hlen : length (parts x) = length ps1).
  { by rewrite <- Hobj, length_fmap. }
  unfold ById.update in Hupd. rewrite Hds in Hupd.
  rewrite byid_bind_eq, (byid_stage [d] [e] s1) in Hupd
    by (constructor; [by rewrite Hdi|constructor]).
  rewrite byid_bind_eq in Hupd.
  erewrite byid_lift_bind in Hupd by reflexivity.
  cbn [foldl ById.vars ById.stylesInDom] in Hupd.
  set (σa := upd_entry e (λ d, set_refs (refs d - 1) d) (ById.vars s1)) in *.
  destruct (grouped_single (next_ref σa) items2 i ps2 Hg2)
    as (d2 & Hl2 & Hi2 & Hp2).
  rewrite Hl2 in Hupd.
  unfold ById.addStylesToDom in Hupd. cbn [ById.forS length] in Hupd.
  apply byid_bind_Done in Hupd as ([] & sb & Hrefresh & Hupd).
  apply byid_bind_Done in Hrefresh as ([] & sc & Hone & Hrefresh).
  injection Hrefresh as <-.
  set (s1' := {| ById.stylesInDom := ById.stylesInDom s1; ById.vars := _ |})
    in Hone.
  assert (Hstale : ∀ m, length ps2 ≤ m < length ps1 →
    ById.stylesInDom sc = ById.stylesInDom s1'
    ∧ ById.stale (ById.vars sc) e m
    ∧ ∃ x', entries (ById.vars sc) !! e = Some x'
            ∧ refs x' = (refs (set_refs (refs x - 1) x) + 1)%Z
            ∧ length (parts x') = length (parts (set_refs (refs x - 1) x))).
  { intros m Hm.
    destruct (lookup_lt_is_Some_2 (parts x) m) as [h Hh]; [lia|].
    assert (Hslot : is_singleton_slot h = false).
    { eapply Forall_lookup_1 in Hslots; [exact Hslots|exact Hh]. }
    eapply (byid_one_makes_stale (cl_options c) d2 s1' sc e
              (set_refs (refs x - 1) x) m h); [| | | | |exact Hone].
    - subst s1'. cbn [ById.stylesInDom]. by rewrite Hi2.
    - subst s1' σa. cbn [ById.vars]. unfold upd_entry.
      cbn [entries with_entries with_next_ref].
      by rewrite lookup_alter_eq, He.
    - done.
    - done.
    - rewrite Hp2. lia. }
  destruct (Hstale (length ps2) ltac:(lia))
    as (Hregc & _ & x' & Hex' & Hrefs' & Hlen').
  cbn [ById.forS] in Hupd.
  apply byid_bind_Done in Hupd as ([] & sd & Hrm & Hupd).
  injection Hupd as <-.
  unfold ById.remove_if_unreferenced in Hrm.
  erewrite byid_lift_bind in Hrm by reflexivity.
  rewrite Hex' in Hrm. cbn [fmap option_fmap option_map] in Hrm.
  cbn [refs set_refs parts] in Hrefs', Hlen'.
  rewrite decide_False in Hrm by (intros [= H0]; lia).
  injection Hrm as <-.
  exists d, e, x'. cbn [ById.stylesInDom ById.vars].
  split; [done|]. split; [done|]. split; [by rewrite Hregc|].
  split; [done|]. split; [lia|]. split; [lia|].
  intros m Hm. by destruct (Hstale m Hm) as (_ & ? & _).
Qed.

End ByIdPoison.

(** In the id-keyed version a module that loses a part on an update
    makes the next update throw. A module is installed, with elements
    of their own for its parts; an update then brings the same module
    with fewer parts, and returns. The handles of the parts that are
    gone have been called for a removal but stay in the entry, so every
    further update with a list that has the module with no more parts
    than the last one calls such a handle again, on an element that is
    out of the document, and throws a TypeError. *)
Theorem byid_update_after_lost_part_throws env items1 items2 items3 options
    i ps1 ps2 ps3 s0 c s1 s2 :
  own_elements env options → isOldIE_memo_wf env (ById.vars s0) →
  ById.stylesInDom s0 !! i = None →
  grouped items1 = [(i, ps1)] → grouped items2 = [(i, ps2)] →
  grouped items3 = [(i, ps3)] →
  length ps2 < length ps1 → length ps3 ≤ length ps2 →
  ById.install env items1 options s0 = ById.Done c s1 →
  ById.update env c (Some items2) s1 = ById.Done tt s2 →
  ∃ s3, ById.update env c (Some items3) s2 = ById.Raised TypeError s3.
Proof.
  intros Hown Hmemo Hfresh Hg1 Hg2 Hg3 Hlt Hle Hinst Hupd.
  destruct (byid_after_lost_part env items1 items2 options i ps1 ps2 s0 c
              s1 s2) as (d & e & x2 & _ & _ & Hreg & _ & _ & _ & Hst);
    try done.
  apply (byid_update_stale env c items3 s2 i e (length ps2) ps3); try done.
  apply Hst. lia.
Qed.

(** *** Bringing a lost part back *)

Section ByIdRegrow.
Context (env : Env).

Lemma updateStyle_part_obj h p σ h' σ' :
  updateStyle env h (Some p) σ = Return h' σ' → h_obj h' = p.
Proof.
  unfold updateStyle.
  destruct (bool_decide (css p = css (h_obj h))) eqn:H1;
    destruct (bool_decide (media p = media (h_obj h))) eqn:H2;
    destruct (bool_decide (sourceMap p = sourceMap (h_obj h))) eqn:H3;
    cbn [andb]; intros H;
    try (apply bind_Return in H as ([] & σ1 & _ & H); by injection H as <- _).
  injection H as <- _.
  apply bool_decide_eq_true_1 in H1, H2, H3.
  destruct p, (h_obj h); simpl in *; congruence.
Qed.

Lemma invoke_update_loses e m p σ σ' :
  invoke_part env e m (Some p) σ = Return tt σ' →
  ById.stale σ e m → ById.lost σ' e m p.
Proof.
  intros Hr (x & h & He & Hm & Hown & Hpar).
  destruct (updateStyle_part_keeps env h p σ)
    as (h' & σ1 & Hu & Hel & Hst & Hpar1 & _ & Hent & _).
  rewrite (invoke_part_update env e m x h p h' σ σ1 He Hm Hu) in Hr.
  injection Hr as <-.
  assert (Hlt : m < length (parts x)) by (by eapply lookup_lt_Some).
  eexists _, h'. unfold upd_entry. cbn [entries with_entries parent].
  rewrite lookup_alter_eq, Hent, He. split; [reflexivity|]. simpl.
  rewrite list_lookup_insert_eq by done. split; [done|]. split.
  { unfold is_singleton_slot in *. by rewrite Hst. }
  split; [by rewrite Hpar1, Hel|]. by eapply updateStyle_part_obj.
Qed.

Lemma invoke_keeps_lost e j arg σ σ' m q :
  invoke_part env e j arg σ = Return tt σ' → j ≠ m →
  ById.lost σ e m q → ById.lost σ' e m q.
Proof.
  intros Hr Hne (x & h & He & Hm & Hown & Hpar & Hobj).
  destruct (invoke_keeps_handle env e j arg σ σ' x m h Hr He Hm Hne)
    as (x' & He' & Hm' & _ & _ & Hp).
  exists x', h. repeat (split; [done|]). split; [by apply Hp|done].
Qed.

Lemma loop_keeps_lost e (ps : list Part) m q js : ∀ σ σ',
  forM (λ j, invoke_part env e j (ps !! j)) js σ = Return tt σ' →
  m ∉ js → ById.lost σ e m q → ById.lost σ' e m q.
Proof.
  induction js as [|j js IH]; intros σ σ' H Hnin Hst; simpl in H.
  { by injection H as <-. }
  apply bind_Return in H as ([] & σ1 & H1 & H).
  apply not_elem_of_cons in Hnin as [Hne Hnin].
  eapply IH; [exact H|done|]. by eapply invoke_keeps_lost.
Qed.

Lemma loop_update_loses e (ps : list Part) m p js : ∀ σ σ',
  forM (λ j, invoke_part env e j (ps !! j)) js σ = Return tt σ' →
  NoDup js → m ∈ js → ps !! m = Some p →
  ById.stale σ e m → ById.lost σ' e m p.
Proof.
  induction js as [|j js IH]; intros σ σ' H Hnd Hin Hp Hst; simpl in H.
  { by apply elem_of_nil in Hin. }
  apply bind_Return in H as ([] & σ1 & H1 & H).
  apply NoDup_cons in Hnd as [Hnin Hnd].
  destruct (decide (j = m)) as [->|Hne].
  - rewrite Hp in H1. eapply loop_keeps_lost; [exact H|done|].
    by eapply invoke_update_loses.
  - eapply (IH σ1 σ'); try done.
    + by apply elem_of_cons in Hin as [->|].
    + by eapply invoke_keeps_stale.
Qed.

(** A refresh with as many parts as the entry has handles calls every
    handle with its part; a stale handle takes the part and stays
    stale. *)
Lemma byid_one_regrow options d s e x :
  ById.stylesInDom s !! s_id d = Some e →
  entries (ById.vars s) !! e = Some x →
  length (s_parts d) = length (parts x) →
  ∃ s', ById.addStylesToDom_one env options d s = ById.Done tt s'
        ∧ ById.stylesInDom s' = ById.stylesInDom s
        ∧ (∃ x', entries (ById.vars s') !! e = Some x'
                 ∧ refs x' = (refs x + 1)%Z)
        ∧ ∀ m p, ById.stale (ById.vars s) e m → s_parts d !! m = Some p →
                 ById.lost (ById.vars s') e m p.
Proof.
  intros Hreg He Hlen.
  set (σ1 := upd_entry e (λ d, set_refs (refs d + 1) d) (ById.vars s)).
  assert (He1 : entries σ1 !! e = Some (set_refs (refs x + 1) x)).
  { subst σ1. unfold upd_entry. cbn [entries with_entries].
    by rewrite lookup_alter_eq, He. }
  destruct (refresh_updates env e (s_parts d) (length (parts x))
              (seq 0 (length (parts x))) σ1 _ He1)
    as (σ' & x' & Hloop & He' & Hrefs & _).
  { apply Forall_forall. intros j Hj. apply elem_of_seq in Hj.
    cbn [parts set_refs]. split; [lia|]. split; [lia|].
    apply lookup_lt_is_Some_2. lia. }
  exists {| ById.stylesInDom := ById.stylesInDom s; ById.vars := σ' |}.
  split; [|split; [done|split]].
  - unfold ById.addStylesToDom_one, ById.lookup_style.
    rewrite byid_bind_eq, Hreg. apply byid_lift_Return.
    mstep. fold σ1. unfold entry_parts. rewrite He1. cbn [parts set_refs].
    rewrite Hloop. rewrite drop_ge by lia. done.
  - exists x'. split; [done|]. by rewrite Hrefs.
  - intros m p Hst Hp. cbn [ById.vars].
    eapply (loop_update_loses e (s_parts d) m p _ σ1 σ' Hloop);
      [apply NoDup_seq| |done|by apply stale_upd_entry].
    apply elem_of_seq. apply lookup_lt_Some in Hp. lia.
Qed.

Lemma byid_add_single options d s :
  ById.addStylesToDom env [d] options s
  = match ById.addStylesToDom_one env options d s with
    | ById.Done _ s' => ById.Done tt s'
    | ById.Raised err s' => ById.Raised err s'
    end.
Proof.
  unfold ById.addStylesToDom. cbn [ById.forS]. rewrite byid_bind_eq.
  by destruct (ById.addStylesToDom_one env options d s).
Qed.

Lemma byid_update_regrow c items s d i e x ps :
  cl_styles c = [d] → s_id d = i →
  ById.stylesInDom s !! i = Some e →
  entries (ById.vars s) !! e = Some x → refs x = 1%Z →
  grouped items = [(i, ps)] → length ps = length (parts x) →
  ∃ s', ById.update env c (Some items) s = ById.Done tt s'
        ∧ ById.stylesInDom s' !! i = Some e
        ∧ ∀ m p, ById.stale (ById.vars s) e m → ps !! m = Some p →
                 ById.lost (ById.vars s') e m p.
Proof.
  intros Hds Hdi Hreg He Hrefs Hg Hlen.
  unfold ById.update. rewrite Hds.
  rewrite byid_bind_eq, (byid_stage [d] [e] s)
    by (constructor; [by rewrite Hdi|constructor]).
  rewrite byid_bind_eq.
  erewrite byid_lift_bind by reflexivity.
  cbn [foldl ById.vars ById.stylesInDom].
  set (σa := upd_entry e (λ d, set_refs (refs d - 1) d) (ById.vars s)).
  destruct (grouped_single (next_ref σa) items i ps Hg)
    as (d3 & -> & Hi3 & Hp3).
  set (sb := {| ById.stylesInDom := ById.stylesInDom s; ById.vars := _ |}).
  destruct (byid_one_regrow (cl_options c) d3 sb e (set_refs (refs x - 1) x))
    as (s' & Hone & Hreg' & (x' & He' & Hrefs') & Hlost).
  { subst sb. cbn [ById.stylesInDom]. by rewrite Hi3. }
  { subst sb σa. cbn [ById.vars]. unfold upd_entry.
    cbn [entries with_entries with_next_ref].
    by rewrite lookup_alter_eq, He. }
  { by rewrite Hp3. }
  rewrite byid_add_single, Hone.
  rewrite (byid_keep_all env [e] s').
  2:{ constructor; [|constructor]. rewrite He'. cbn [refs set_refs] in Hrefs'.
      simpl. intros [= H0]. lia. }
  exists s'. split; [reflexivity|]. split.
  - rewrite Hreg'. subst sb. done.
  - intros m p Hst Hp. apply Hlost; [|by rewrite Hp3].
    subst sb σa. cbn [ById.vars].
    destruct (stale_upd_entry (ById.vars s) e e m
                (λ d, set_refs (refs d - 1) d) ltac:(done) Hst)
      as (y & h & ? & ? & ? & ?).
    by exists y, h.
Qed.

End ByIdRegrow.

(** In the id-keyed version a part that was dropped by an update does
    not come back. A module is installed, with elements of their own
    for its parts; an update brings it with fewer parts, and a further
    update brings it with as many parts as at first. That update
    returns, and each handle beyond the parts of the shorter list now
    holds its new part, but its element has no parent: the part is
    written to an element that is out of the document. *)
Theorem byid_restored_part_stays_out env items1 items2 items3 options
    i ps1 ps2 ps3 s0 c s1 s2 :
  own_elements env options → isOldIE_memo_wf env (ById.vars s0) →
  ById.stylesInDom s0 !! i = None →
  grouped items1 = [(i, ps1)] → grouped items2 = [(i, ps2)] →
  grouped items3 = [(i, ps3)] →
  length ps2 < length ps1 → length ps3 = length ps1 →
  ById.install env items1 options s0 = ById.Done c s1 →
  ById.update env c (Some items2) s1 = ById.Done tt s2 →
  ∃ s3 e,
    ById.update env c (Some items3) s2 = ById.Done tt s3
    ∧ ById.stylesInDom s3 !! i = Some e
    ∧ ∀ m p, length ps2 ≤ m → ps3 !! m = Some p →
             ById.lost (ById.vars s3) e m p.
Proof.
  intros Hown Hmemo Hfresh Hg1 Hg2 Hg3 Hlt Hle Hinst Hupd.
  destruct (byid_after_lost_part env items1 items2 options i ps1 ps2 s0 c
              s1 s2)
    as (d & e & x2 & Hds & Hdi & Hreg & He & Hrefs & Hlen & Hst);
    try done.
  destruct (byid_update_regrow env c items3 s2 d i e x2 ps3)
    as (s3 & Hrun & Hreg3 & Hlost); try done; [congruence|].
  exists s3, e. split; [done|]. split; [done|].
  intros m p Hm Hp. apply Hlost; [|done].
  apply Hst. apply lookup_lt_Some in Hp. lia.
Qed.

(** ** The properties at sample inputs *)

Lemma registry_fresh_start kids par n :
  registry_fresh (session_start kids par n).
Proof.
  split; simpl.
  - intros i bucket r e H. by rewrite lookup_empty in H.
  - intros e [x H]. by rewrite lookup_empty in H.
Qed.



(** Two top insertions into the head of the sample document. *)
Lemma top_insertion_witness :
  ∃ σ',
    (insertStyleElement modern_env (options_at "top" false) 3 ;;
     insertStyleElement modern_env (options_at "top" false) 4) sample_state
    = Return tt σ'
    ∧ children_of σ' 0 = 3 :: 4 :: children_of sample_state 0
    ∧ styleElementsInsertedAtTop σ' = [3; 4].
Proof.
  apply (top_insertion_keeps_arrival_order modern_env
           (options_at "top" false) sample_state 3 4 0);
    try reflexivity; try lia.
  apply (bool_decide_unpack _). vm_compute. exact I.
Defined.

(** The later element does not come first. *)
Lemma top_insertion_order_counterexample :
  let σ' :=
    state_of
      ((insertStyleElement modern_env (options_at "top" false) 3 ;;
        insertStyleElement modern_env (options_at "top" false) 4)
         sample_state) in
  styleElementsInsertedAtTop sample_state = []
  ∧ children_of sample_state 0 = [1; 2]
  ∧ children_of σ' 0 = [3; 4; 1; 2]
  ∧ children_of σ' 0 ≠ [4; 3; 1; 2].
Proof. vm_compute. repeat split; discriminate. Qed.

(** Two descriptor objects for module 7 with their own entries in the
    registry. *)
Lemma colliding_entries_witness :
  let d1 := {| s_ref := 0; s_id := 7; s_parts := [] |} in
  let d2 := {| s_ref := 1; s_id := 7; s_parts := [] |} in
  let registered :=
    with_cache
      (stylesInDom_set (stylesInDom_set (cache two_entries) d1 2) d2 3)
      two_entries in
  stylesInDom_get (cache registered) d1 = Some 2
  ∧ stylesInDom_get (cache registered) d2 = Some 3
  ∧ stylesInDom_get (stylesInDom_delete (cache registered) 7 2) d2 = Some 3
  ∧ stylesInDom_get (stylesInDom_delete (cache registered) 7 3) d1 = Some 2
  ∧ (let σ' := state_of (evict 2 registered) in
     stylesInDom_get (cache σ') d2 = Some 3
     ∧ entries σ' = entries two_entries)
  ∧ (let σ' := state_of (evict 3 registered) in
     stylesInDom_get (cache σ') d1 = Some 2
     ∧ entries σ' = entries two_entries).
Proof.
  apply (id_colliding_entries_stay_apart two_entries
           {| s_ref := 0; s_id := 7; s_parts := [] |}
           {| s_ref := 1; s_id := 7; s_parts := [] |} 2 3);
    simpl; lia.
Defined.



(** Slots 0 and 1 of the shared element in the old browser. *)
Lemma singleton_slot_witness :
  let options := options_at "bottom" true in
  let first := addStyle legacy_env red_part options sample_state in
  ∃ h0 σ1 h1 σ2 σ3,
    first = Return h0 σ1
    ∧ addStyle legacy_env blue_part options σ1 = Return h1 σ2
    ∧ updateStyle legacy_env h0 None σ2 = Return h0 σ3
    ∧ element_text true σ3 (h_el h0) = css blue_part
    ∧ textStore σ3 = [Some EmptyString; Some (css blue_part)].
Proof.
  intros options first.
  assert (Hfirst : first = Return
            {| h_el := 3; h_strategy := SingletonSlot 0; h_obj := red_part |}
            (state_of first)) by (vm_compute; reflexivity).
  destruct (singleton_removed_slot_is_dropped legacy_env options sample_state
              red_part blue_part _ _ eq_refl eq_refl eq_refl eq_refl Hfirst)
    as (h1 & σ2 & σ3 & H1 & _ & _ & _ & H3 & Htext & Hstore & _).
  eexists _, _, h1, σ2, σ3. split; [exact Hfirst|].
  split; [exact H1|]. split; [exact H3|]. split; [exact Htext|].
  exact Hstore.
Defined.


Lemma dom_wf_sample : dom_wf sample_state.
Proof.
  split.
  - intros el t. unfold children_of. simpl.
    destruct (decide (t = 0)) as [->|Hne].
    + rewrite lookup_singleton_eq. simpl. intros Hin.
      repeat (apply elem_of_cons in Hin as [->|Hin]); try done.
      by apply elem_of_nil in Hin.
    + rewrite lookup_singleton_ne by done. simpl. intros Hin.
      by apply elem_of_nil in Hin.
  - intros el. simpl. intros [t Ht].
    destruct (decide (el = 1)) as [->|H1]; [lia|].
    destruct (decide (el = 2)) as [->|H2]; [lia|].
    rewrite lookup_insert_ne, lookup_singleton_ne in Ht by done. done.
Qed.


(** C4 (what the code does at the failing input): after one consumer has
    installed module 1, calling its closure with the very same list does
    not leave the document alone. The fresh descriptor is not found in the
    registry, so a new element is created for the part and a new entry with
    one reference is registered, and the old element is taken out of the
    document when the old entry, left without a reference, is torn down. *)
Theorem identical_update_recreates_elements :
  let σ1 := state_of red_installed in
  let σ2 := state_of red_updated in
  thrown red_installed = None ∧ thrown red_updated = None
  ∧ children_of σ1 0 = [1; 2; 3] ∧ children_of σ2 0 = [1; 2; 4]
  ∧ next_node σ1 = 4 ∧ next_node σ2 = 5
  ∧ parent σ2 !! 3 = None
  ∧ refs <$> entries σ1 !! 2 = Some 1%Z
  ∧ refs <$> entries σ2 !! 2 = Some 0%Z
  ∧ refs <$> entries σ2 !! 4 = Some 1%Z
  ∧ cache σ2 !! 1%Z = Some [(1, 2); (3, 4)].
Proof. vm_compute. repeat split; reflexivity. Qed.

(** Two consumers with lists that share module 1: tearing both down
    releases the three elements and the object URL. *)
Lemma teardown_witness :
  ∃ σ2,
    teardowns modern_env
      (default [] (value_of (installs modern_env two_consumers sample_state)))
      (state_of (installs modern_env two_consumers sample_state))
    = Return tt σ2
    ∧ length (default [] (value_of
                (installs modern_env two_consumers sample_state)))
      = length two_consumers
    ∧ (∀ el, next_node sample_state ≤ el < next_node σ2 → detached σ2 el)
    ∧ (∀ u, length (blobs sample_state) ≤ u < length (blobs σ2) →
         u ∈ revoked σ2).
Proof.
  apply (teardown_releases_everything modern_env two_consumers sample_state).
  - apply registry_fresh_start.
  - apply dom_wf_sample.
  - by left.
  - repeat constructor.
  - vm_compute. reflexivity.
Defined.

(** One consumer in singleton mode: after its teardown the shared
    element is still in the document. *)
Lemma teardown_singleton_counterexample :
  let installed := installs modern_env singleton_consumer sample_state in
  let torn :=
    teardowns modern_env (default [] (value_of installed))
      (state_of installed) in
  thrown installed = None ∧ thrown torn = None
  ∧ next_node sample_state = 3 ∧ next_node (state_of torn) = 4
  ∧ parent (state_of torn) !! 3 = Some 0
  ∧ children_of (state_of torn) 0 = [1; 2; 3].
Proof. vm_compute. repeat split; reflexivity. Qed.

(** Two consumers of module 1 with elements of their own: after both
    teardowns the registry still holds both pairs, because [delete] tests
    the filtered array and does not store it. *)
Lemma teardown_leaves_colliding_entries :
  let installed :=
    installs modern_env [([red_item], None); ([red_item], None)]
      sample_state in
  let torn :=
    teardowns modern_env (default [] (value_of installed))
      (state_of installed) in
  thrown installed = None ∧ thrown torn = None
  ∧ children_of (state_of torn) 0 = [1; 2]
  ∧ cache (state_of torn) !! 1%Z = Some [(1, 2); (4, 5)].
Proof. vm_compute. repeat split; reflexivity. Qed.




(** ** The further properties at sample inputs *)

Lemma one_pair_empty : one_pair_per_descriptor ∅.
Proof. intros i b H. by rewrite lookup_empty in H. Qed.

(** Module 7 registered twice under the same descriptor object. *)
Lemma set_overwrites_witness :
  let cache := stylesInDom_set ∅ first_seven 2 in
  one_pair_per_descriptor (stylesInDom_set cache first_seven 3)
  ∧ stylesInDom_get (stylesInDom_set cache first_seven 3) first_seven
    = Some 3
  ∧ (∀ d', s_ref d' ≠ s_ref first_seven →
       stylesInDom_get (stylesInDom_set cache first_seven 3) d'
       = stylesInDom_get cache d')
  ∧ (∀ i, i ≠ s_id first_seven →
       stylesInDom_set cache first_seven 3 !! i = cache !! i).
Proof.
  apply (set_overwrites_in_place (stylesInDom_set ∅ first_seven 2)
           first_seven 3).
  apply set_one_pair, one_pair_empty.
Defined.

Lemma set_then_delete_witness :
  stylesInDom_delete (stylesInDom_set ∅ first_seven 2) 7 2 = ∅.
Proof. apply (set_then_delete_restores ∅ first_seven 2). reflexivity. Defined.

Lemma delete_shared_bucket_witness :
  let cache := stylesInDom_set (stylesInDom_set ∅ first_seven 2)
                 second_seven 3 in
  stylesInDom_delete cache 7 2 = cache
  ∧ stylesInDom_get (stylesInDom_delete cache 7 2) first_seven = Some 2.
Proof.
  apply (delete_keeps_shared_bucket
           (stylesInDom_set (stylesInDom_set ∅ first_seven 2) second_seven 3)
           first_seven second_seven 2 3);
    [reflexivity|reflexivity|reflexivity|lia].
Defined.

Lemma memoize_witness :
  memoize_calls from_two None ([0; 1] ++ 2 :: [3; 0])
  = replicate 2 None ++ replicate 3 (Some 20)
  ∧ ∀ env σ,
      isOldIE env σ
      = let r := memoize (λ _ : unit, Some (oldIE env)) (isOldIE_memo σ) () in
        Return (default false r.1) (with_isOldIE_memo r.2 σ).
Proof.
  apply (memoize_first_result_sticks from_two [0; 1] 2 [3; 0] 20);
    [repeat constructor|reflexivity].
Defined.

Lemma applyToTag_media_witness :
  ∃ σ',
    (applyToTag modern_env 3 print_part ;; applyToTag modern_env 3 plain_part)
      style_created = Return tt σ'
    ∧ element_text false σ' 3 = css plain_part
    ∧ getAttribute σ' 3 "media" = Some "print".
Proof.
  eapply (applyToTag_never_clears_media modern_env 3 _ print_part plain_part
            style_created); reflexivity.
Defined.

Lemma handle_remove_twice_witness :
  let h := {| h_el := 3; h_strategy := InlineTag; h_obj := red_part |} in
  ∃ σ1,
    updateStyle modern_env h None (state_of two_parts_own) = Return h σ1
    ∧ parent σ1 !! 3 = None
    ∧ updateStyle modern_env h None σ1 = Throw TypeError σ1.
Proof.
  apply (handle_remove_twice_throws modern_env
           {| h_el := 3; h_strategy := InlineTag; h_obj := red_part |} 0
           (state_of two_parts_own)); reflexivity.
Defined.

Lemma singleton_update_witness :
  ∃ σ',
    applyToSingletonTag legacy_env 3 0 false (Some blue_part)
      (state_of two_parts_singleton) = Return tt σ'
    ∧ textStore σ'
      = <[0 := Some (css blue_part)]> (textStore (state_of two_parts_singleton))
    ∧ cssText <$> nodes σ' !! 3
      = Some (String.concat nl (filter_Boolean (textStore σ'))).
Proof.
  eapply (singleton_update_touches_one_slot legacy_env 3 _ 0 blue_part
            (state_of two_parts_singleton)).
  - vm_compute. reflexivity.
  - vm_compute. lia.
Defined.

Lemma updateLink_urls_witness :
  ∃ σ',
    forM (updateLink modern_env 3 (options_at "bottom" false))
      [mapped_part; red_part; mapped_part] link_created = Return tt σ'
    ∧ blobs σ'
      = blobs link_created
        ++ (link_css modern_env (options_at "bottom" false)
              <$> [mapped_part; red_part; mapped_part])
    ∧ href_of σ' 3 = Some (length (blobs link_created) + 3 - 1)
    ∧ ∀ u, u ∈ revoked σ'
           ↔ length (blobs link_created) ≤ u
               < length (blobs link_created) + 3 - 1
             ∨ u ∈ revoked link_created.
Proof.
  apply (updateLink_revokes_all_but_last modern_env 3
           (options_at "bottom" false) [mapped_part; red_part; mapped_part]
           link_created new_link); [reflexivity|reflexivity|done].
Defined.




Lemma singleton_gap_witness :
  let options := options_at "bottom" true in
  let added := addStyle modern_env blue_part options failed_singleton in
  let h := {| h_el := 4; h_strategy := SingletonSlot 1; h_obj := blue_part |} in
  singletonCounter failed_singleton = 1
  ∧ added = Return h (state_of added)
  ∧ ∃ σ2,
      updateStyle modern_env h None (state_of added) = Return h σ2
      ∧ childNodes <$> nodes σ2 !! 4 = Some [css blue_part; EmptyString]
      ∧ element_text false σ2 4 = css blue_part.
Proof.
  intros options added h.
  assert (Hadded : added = Return h (state_of added))
    by (vm_compute; reflexivity).
  split; [vm_compute; reflexivity|]. split; [exact Hadded|].
  apply (singleton_gap_keeps_removed_text modern_env options blue_part
           failed_singleton h (state_of added));
    [reflexivity|reflexivity|vm_compute; reflexivity|vm_compute; lia
    |exact Hadded].
Defined.

Lemma install_atomic_witness :
  let failed := install modern_env [red_item]
                  (Some (raw_options_at "middle" false)) sample_state in
  failed = Throw InvalidInsertAt (state_of failed)
  ∧ children (state_of failed) = children sample_state
  ∧ parent (state_of failed) = parent sample_state
  ∧ styleElementsInsertedAtTop (state_of failed)
    = styleElementsInsertedAtTop sample_state
  ∧ cache (state_of failed) = cache sample_state
  ∧ entries (state_of failed) = entries sample_state
  ∧ singletonElement (state_of failed) = singletonElement sample_state
  ∧ blobs (state_of failed) = blobs sample_state
  ∧ revoked (state_of failed) = revoked sample_state.
Proof.
  intros failed.
  assert (H : failed = Throw InvalidInsertAt (state_of failed))
    by (vm_compute; reflexivity).
  split; [exact H|].
  apply (install_failure_is_atomic modern_env [red_item]
           (Some (raw_options_at "middle" false)) sample_state
           InvalidInsertAt (state_of failed));
    [apply registry_fresh_start|exact H].
Defined.





Lemma cache_sample_empty (it : Item) (items : list Item) :
  it ∈ items → cache sample_state !! item_id it = None.
Proof. intros _. apply lookup_empty. Qed.

Lemma teardown_registry_witness :
  ∃ σ2,
    update modern_env three_closure None (state_of three_installed)
    = Return tt σ2
    ∧ cache σ2 = cache sample_state
    ∧ ∀ d, d ∈ cl_styles three_closure →
           stylesInDom_get (cache σ2) d = None.
Proof.
  apply (teardown_restores_registry modern_env three_items None
           sample_state three_closure (state_of three_installed)).
  - apply registry_fresh_start.
  - apply dom_wf_sample.
  - by left.
  - reflexivity.
  - intros it. apply cache_sample_empty.
  - vm_compute. reflexivity.
Defined.

Lemma update_after_teardown_witness :
  ∃ σ2,
    update modern_env three_closure None (state_of three_installed)
    = Return tt σ2
    ∧ ∀ newList,
        update modern_env three_closure newList σ2 = Throw TypeError σ2.
Proof.
  apply (update_after_teardown_throws modern_env three_items None
           sample_state three_closure (state_of three_installed)).
  - apply registry_fresh_start.
  - apply dom_wf_sample.
  - by left.
  - reflexivity.
  - intros it. apply cache_sample_empty.
  - done.
  - vm_compute. reflexivity.
Defined.

Lemma byid_fresh_start σ (items : list Item) i :
  i ∈ item_id <$> items → ById.stylesInDom (ById.start σ) !! i = None.
Proof. intros _. apply lookup_empty. Qed.

Lemma byid_install_again_witness :
  let s := ById.session_of byid_installed in
  ∃ c s', ById.install modern_env three_items None s = ById.Done c s'
    ∧ view <$> cl_styles c = grouped three_items
    ∧ ById.stylesInDom s' = ById.stylesInDom s
    ∧ same_document (ById.vars s) (ById.vars s')
    ∧ (∀ g, g ∈ grouped three_items →
         ∃ e x, ById.stylesInDom s !! g.1 = Some e
                ∧ entries (ById.vars s) !! e = Some x
                ∧ entries (ById.vars s') !! e
                  = Some (set_refs (refs x + 1) x))
    ∧ (∀ i e x, ById.stylesInDom s !! i = Some e →
         entries (ById.vars s) !! e = Some x → dom_id x = i →
         i ∉ item_id <$> three_items →
         entries (ById.vars s') !! e = Some x).
Proof.
  intros s.
  apply (byid_install_again_shares_elements modern_env three_items None s).
  apply is_applied_spec. vm_compute. reflexivity.
Defined.

Lemma byid_update_same_list_witness :
  let s := ById.session_of byid_installed in
  ById.update modern_env byid_closure (Some three_items) s
  = ById.Done tt
      {| ById.stylesInDom := ById.stylesInDom s;
         ById.vars := with_next_ref
                        (next_ref (ById.vars s) + length (grouped three_items))
                        (ById.vars s) |}.
Proof.
  intros s.
  apply (byid_update_with_same_list_changes_nothing modern_env byid_closure
           three_items s).
  - vm_compute. reflexivity.
  - apply is_applied_spec. vm_compute. reflexivity.
Defined.

Lemma byid_elements_outlive_witness :
  let s1 := ById.session_of byid_installed in
  ∃ c2 s2,
    ById.install modern_env three_items None s1 = ById.Done c2 s2
    ∧ same_document (ById.vars s1) (ById.vars s2)
    ∧ ∀ c, c = byid_closure ∨ c = c2 →
        ∃ s3, ById.update modern_env c None s2 = ById.Done tt s3
              ∧ same_document (ById.vars s1) (ById.vars s3)
              ∧ ById.stylesInDom s3 = ById.stylesInDom s1
              ∧ entries (ById.vars s3) = entries (ById.vars s1).
Proof.
  intros s1.
  apply (byid_elements_outlive_first_teardown modern_env three_items None
           None (ById.start sample_state) byid_closure s1).
  - apply byid_fresh_start.
  - vm_compute. reflexivity.
Defined.

Lemma byid_lost_part_witness :
  byid_one_part = ById.Done tt (ById.session_of byid_one_part)
  ∧ ∃ s3, ById.update modern_env byid_two_closure (Some [red_item])
            (ById.session_of byid_one_part)
          = ById.Raised TypeError s3.
Proof.
  assert (H : byid_one_part = ById.Done tt (ById.session_of byid_one_part))
    by (vm_compute; reflexivity).
  split; [exact H|].
  apply (byid_update_after_lost_part_throws modern_env
           [red_item; blue_item] [red_item] [red_item] None 1
           [red_part; blue_part] [red_part] [red_part]
           (ById.start sample_state) byid_two_closure
           (ById.session_of byid_two_parts)
           (ById.session_of byid_one_part)).
  - reflexivity.
  - by left.
  - apply lookup_empty.
  - vm_compute. reflexivity.
  - vm_compute. reflexivity.
  - vm_compute. reflexivity.
  - simpl. lia.
  - simpl. lia.
  - vm_compute. reflexivity.
  - exact H.
Defined.

Lemma byid_restored_part_witness :
  ∃ s3 e,
    ById.update modern_env byid_two_closure (Some [red_item; blue_item])
      (ById.session_of byid_one_part) = ById.Done tt s3
    ∧ ById.stylesInDom s3 !! 1%Z = Some e
    ∧ ∀ m p, length [red_part] ≤ m →
             [red_part; blue_part] !! m = Some p →
             ById.lost (ById.vars s3) e m p.
Proof.
  apply (byid_restored_part_stays_out modern_env
           [red_item; blue_item] [red_item] [red_item; blue_item] None 1
           [red_part; blue_part] [red_part] [red_part; blue_part]
           (ById.start sample_state) byid_two_closure
           (ById.session_of byid_two_parts)
           (ById.session_of byid_one_part)).
  - reflexivity.
  - by left.
  - apply lookup_empty.
  - vm_compute. reflexivity.
  - vm_compute. reflexivity.
  - vm_compute. reflexivity.
  - simpl. lia.
  - reflexivity.
  - vm_compute. reflexivity.
  - vm_compute. reflexivity.
Defined.
